(** * site-to-md: the conversion pipeline of [site_to_md/converter.py]

    A shallow embedding of [URLToMarkdownConverter] and the properties
    of its cleaning, code-block, URL and post-processing steps.

    Python [str] values are modelled as Stdlib strings whose characters
    stand for the code points 0..255; the character classes of [re] are
    written out for that range. *)

From Stdlib Require Import Ascii String List Arith Lia Bool.
From stdpp Require Import base option list strings gmap.

Local Open Scope string_scope.
Local Open Scope list_scope.
Local Open Scope nat_scope.

(** ** Character classes of Python's [re] on [str] patterns *)

Module Re.

Definition code (c : ascii) : nat := nat_of_ascii c.

Definition between (lo hi n : nat) : bool := (lo <=? n) && (n <=? hi).

(** [\s]: the characters for which [str.isspace()] holds. *)
Definition is_space (c : ascii) : bool :=
  let n := code c in
  between 9 13 n || between 28 32 n || (n =? 133) || (n =? 160).

(** [\w]: alphanumeric characters ([str.isalnum()]) and the underscore. *)
Definition is_word (c : ascii) : bool :=
  let n := code c in
  between 48 57 n || between 65 90 n || between 97 122 n || (n =? 95)
  || (n =? 170) || (n =? 178) || (n =? 179) || (n =? 181) || (n =? 185)
  || (n =? 186) || between 188 190 n || between 192 214 n
  || between 216 246 n || between 248 255 n.

Definition text := list ascii.

Definition lit (s : string) : text := list_ascii_of_string s.

Definition nl : ascii := "010"%char.

(** [s.startswith(p)], returning the rest of [s] after [p]. *)
Fixpoint strip_prefix (p s : text) : option text :=
  match p, s with
  | [], _ => Some s
  | a :: p', b :: s' => if Ascii.eqb a b then strip_prefix p' s' else None
  | _ :: _, [] => None
  end.

(** The longest run of characters of class [cls] at the head of [s]:
    what a greedy [cls*] consumes first. *)
Fixpoint span (cls : ascii -> bool) (s : text) : text * text :=
  match s with
  | c :: r => if cls c then let '(w, r') := span cls r in (c :: w, r')
              else ([], s)
  | [] => ([], [])
  end.

(** A pattern, as [re.sub] uses it: at each position, either no match or
    the number of characters matched and the text put in their place. *)
Definition matcher := text -> option (nat * text).

(** [re.sub]: scan from the left; at a match, emit the replacement and
    resume after the matched characters; otherwise emit one character.
    [skip] counts the matched characters still to pass over.  None of
    the patterns used here matches the empty string. *)
Fixpoint sub_from (m : matcher) (skip : nat) (s : text) : text :=
  match s with
  | [] => []
  | c :: r =>
      match skip with
      | S k => sub_from m k r
      | O =>
          match m s with
          | Some (S k, repl) => repl ++ sub_from m k r
          | _ => c :: sub_from m 0 r
          end
      end
  end.

Definition sub (m : matcher) (s : text) : text := sub_from m 0 s.

End Re.

(** ** PostProcessor: the four substitutions of [html_to_markdown] *)

Module PostProcessor.
Import Re.

Definition fence : text := lit "```".

(** [\[code\]\s*] replaced by the empty string. *)
Definition m_open_marker : matcher := fun s =>
  match strip_prefix (lit "[code]") s with
  | Some r => let '(ws, _) := span is_space r in Some (6 + length ws, [])
  | None => None
  end.

(** [\s*\[/code\]] replaced by the empty string.  The greedy [\s*] takes
    the whole run of whitespace; giving characters back cannot help, as
    the next character would be whitespace and not the bracket. *)
Definition m_close_marker : matcher := fun s =>
  let '(ws, r) := span is_space s in
  match strip_prefix (lit "[/code]") r with
  | Some _ => Some (length ws + 7, [])
  | None => None
  end.

(** Three backticks, a captured run of word characters and two
    newlines, replaced by the backticks, the captured run and one
    newline. *)
Definition m_fence_open : matcher := fun s =>
  match strip_prefix fence s with
  | Some r =>
      let '(w, r') := span is_word r in
      match strip_prefix [nl; nl] r' with
      | Some _ => Some (3 + length w + 2, fence ++ w ++ [nl])
      | None => None
      end
  | None => None
  end.

(** Two newlines and three backticks, replaced by one newline and the
    backticks. *)
Definition m_fence_close : matcher := fun s =>
  match strip_prefix (nl :: nl :: fence) s with
  | Some _ => Some (5, nl :: fence)
  | None => None
  end.

(** The cleanup applied to the renderer's output, in source order. *)
Definition post_process (markdown : text) : text :=
  let markdown := sub m_open_marker markdown in
  let markdown := sub m_close_marker markdown in
  let markdown := sub m_fence_open markdown in
  let markdown := sub m_fence_close markdown in
  markdown.

End PostProcessor.

(** ** The content tree

    A BeautifulSoup tree is a mutable object graph; every node is a
    Python object with its own identity.  [oid] is that identity: the
    loops of [clean_html] collect nodes with [find_all] and then mutate
    the tree through those references.  bs4 keeps the multi-valued
    [class] attribute as a list of tokens and every other attribute
    ([href], [src], ...) as a string. *)

Module Dom.

#[local] Set Warnings "-register-all".

Inductive node : Type :=
| Text (oid : nat) (s : string)
| Elem (oid : nat) (name : string) (classes : option (list string))
       (attrs : gmap string string) (children : list node).

Definition oid (n : node) : nat :=
  match n with Text i _ => i | Elem i _ _ _ _ => i end.

Definition children (n : node) : list node :=
  match n with Text _ _ => [] | Elem _ _ _ _ ch => ch end.

(** [tag.name] for a [Tag]; a [NavigableString] is no tag. *)
Definition tag_name (n : node) : option string :=
  match n with Text _ _ => None | Elem _ nm _ _ _ => Some nm end.

Definition has_name (names : list string) (n : node) : bool :=
  match tag_name n with
  | Some nm => bool_decide (nm ∈ names)
  | None => false
  end.

(** The node with all its descendants, in document order. *)
Fixpoint subtree (n : node) : list node :=
  n :: match n with
       | Text _ _ => []
       | Elem _ _ _ _ ch => flat_map subtree ch
       end.

(** [tag.descendants]: the node itself is not among them. *)
Definition descendants (n : node) : list node := flat_map subtree (children n).

Definition oids (n : node) : list nat := map oid (subtree n).

(** [tag.find_all(names)]: the descendant tags with one of the names,
    collected into a list before the caller's loop runs. *)
Definition find_all (names : list string) (n : node) : list node :=
  filter (fun d => has_name names d = true) (descendants n).

(** [tag.find(name)]: the first such descendant, or [None]. *)
Definition find (nm : string) (n : node) : option node :=
  head (find_all [nm] n).

(** [tag.get_text()]: the strings below the tag, concatenated. *)
Fixpoint get_text (n : node) : string :=
  match n with
  | Text _ s => s
  | Elem _ _ _ _ ch => fold_right (fun c acc => String.append (get_text c) acc) "" ch
  end.

(** The node reached from [n] by child indices. *)
Fixpoint at_path (n : node) (p : list nat) : option node :=
  match p with
  | [] => Some n
  | i :: p' =>
      match children n !! i with
      | Some c => at_path c p'
      | None => None
      end
  end.

(** *** In-place mutation, by object identity

    The root (the [BeautifulSoup] object) has no parent and is never
    among the results of [find_all]; the operations act below it. *)

(** [element.decompose()] for the element of identity [i]: it leaves its
    parent's child list, with everything below it.  An element that is
    no longer in the tree is not found, and the tree stays as it is. *)
Fixpoint remove_oid (i : nat) (n : node) : node :=
  match n with
  | Text _ _ => n
  | Elem j nm cl at_ ch =>
      Elem j nm cl at_
        (flat_map (fun c => if decide (oid c = i) then []
                            else [remove_oid i c]) ch)
  end.

(** [element.replace_with(new)]: [new] takes the element's place in its
    parent's child list. *)
Fixpoint replace_oid (i : nat) (new : node) (n : node) : node :=
  match n with
  | Text _ _ => n
  | Elem j nm cl at_ ch =>
      Elem j nm cl at_
        (map (fun c => if decide (oid c = i) then new
                       else replace_oid i new c) ch)
  end.

(** A mutation [f] of the fields of the object of identity [i]. *)
Fixpoint modify_oid (i : nat) (f : node → node) (n : node) : node :=
  match n with
  | Text _ _ => n
  | Elem j nm cl at_ ch =>
      Elem j nm cl at_
        (map (fun c => let c' := modify_oid i f c in
                       if decide (oid c = i) then f c' else c') ch)
  end.

(** The soup: the tree and the next unused object identity. *)
Record soup : Type := Soup { root : node; next_oid : nat }.

(** [soup.new_tag('pre')] followed by [new_tag.string = s]: two new
    objects, the tag and the string below it. *)
Definition new_pre (c : nat) (s : string) : node :=
  Elem c "pre" None ∅ [Text (S c) s].

End Dom.

(** ** Exceptions *)

Inductive exn : Type :=
| IndexError
| ValueError (msg : string)
| RuntimeError (msg : string)
| RequestException (msg : string)
| OSError (msg : string)
| OtherError (msg : string).

(** [str(e)], as an f-string formats the exception: its message. *)
Definition str_exn (e : exn) : string :=
  match e with
  | IndexError => "list index out of range"
  | ValueError msg | RuntimeError msg | RequestException msg | OSError msg
  | OtherError msg => msg
  end.

Inductive result (A : Type) : Type :=
| Ok (a : A)
| Raise (e : exn).
Arguments Ok {A} a.
Arguments Raise {A} e.

(** A raised exception ends the computation it is raised in. *)
#[global] Instance result_bind : MBind result := fun A B k r =>
  match r with Ok a => k a | Raise e => Raise e end.

(** ** String methods of [str] used by the converter *)

Module Str.

Definition slash : ascii := "/"%char.
Definition hyphen : ascii := "-"%char.

Fixpoint map_string (f : ascii → ascii) (s : string) : string :=
  match s with
  | EmptyString => EmptyString
  | String a r => String (f a) (map_string f r)
  end.

(** [c in s]. *)
Fixpoint contains (c : ascii) (s : string) : bool :=
  match s with
  | EmptyString => false
  | String a r => Ascii.eqb a c || contains c r
  end.

Definition startswith (s p : string) : bool := String.prefix p s.

(** [s.lstrip(c)] for a single character [c]. *)
Fixpoint lstrip (c : ascii) (s : string) : string :=
  match s with
  | String a r => if Ascii.eqb a c then lstrip c r else s
  | EmptyString => EmptyString
  end.

(** [s.rstrip(c)] for a single character [c]. *)
Fixpoint rstrip (c : ascii) (s : string) : string :=
  match s with
  | String a r =>
      match rstrip c r with
      | EmptyString => if Ascii.eqb a c then EmptyString else String a EmptyString
      | r' => String a r'
      end
  | EmptyString => EmptyString
  end.

(** [s.split(c)] for a single character [c]: never empty. *)
Fixpoint split (c : ascii) (s : string) : list string :=
  match s with
  | EmptyString => [EmptyString]
  | String a r =>
      if Ascii.eqb a c then EmptyString :: split c r
      else match split c r with
           | h :: t => String a h :: t
           | [] => [String a EmptyString]
           end
  end.

(** [s.endswith(p)]. *)
Definition endswith (s p : string) : bool :=
  let n := String.length s in
  let k := String.length p in
  (k <=? n) && String.eqb (String.substring (n - k) k s) p.

End Str.

(** ** [ConversionConfig] *)

Record ConversionConfig : Type := Config {
  remove_elements : list string;
  body_width : nat;
  code_language_classes : list string;
  base_url : option string
}.

(** The dataclass constructor with [__post_init__]: a list left at
    [None] takes its default. *)
Definition make_config (re : option (list string)) (bw : nat)
    (clc : option (list string)) (bu : option string) : ConversionConfig :=
  {| remove_elements :=
       default ["script"; "style"; "nav"; "footer"; "iframe"; "aside"] re;
     body_width := bw;
     code_language_classes := default ["language-"; "lang-"] clc;
     base_url := bu |}.

Definition default_config : ConversionConfig := make_config None 0 None None.

(** ** [URLToMarkdownConverter]: the tree steps of [clean_html] *)

Module Converter.
Import Dom Str.

(** Lines 93-95: every element found by [find_all(remove_elements)] is
    decomposed, in document order. *)
Definition remove_unwanted (cfg : ConversionConfig) (s : soup) : soup :=
  Soup (fold_left (fun t element => remove_oid (oid element) t)
                  (find_all (remove_elements cfg) (root s)) (root s))
       (next_oid s).

(** Lines 118-123: the first class, in class-list order, that starts
    with any of the prefixes gives the language, [cls.split('-')[1]];
    the index raises [IndexError] when the class has no hyphen. *)
Fixpoint scan_classes (prefixes : list string) (cls : list string)
  : result string :=
  match cls with
  | [] => Ok ""
  | c :: rest =>
      if existsb (fun prefix => startswith c prefix) prefixes
      then match split hyphen c !! 1 with
           | Some l => Ok l
           | None => Raise IndexError
           end
      else scan_classes prefixes rest
  end.

Definition language_of (cfg : ConversionConfig) (code : node)
  : result string :=
  match code with
  | Elem _ _ (Some (c :: rest)) _ _ =>
      scan_classes (code_language_classes cfg) (c :: rest)
  | _ => Ok ""
  end.

(** The text of the fenced unit, line 128. *)
Definition fenced (language code_text : string) : string :=
  String.append "```"
    (String.append language
       (String.append (String "010" code_text) (String "010" "```"))).

(** One turn of the loop of [_process_code_blocks] for the element
    [pre].  The loop visits the elements in document order and a
    replacement only detaches what lies below an element already
    visited, so [pre] is still as [find_all] saw it. *)
Definition process_pre (cfg : ConversionConfig) (s : soup) (pre : node)
  : result soup :=
  match find "code" pre with
  | Some code =>
      language ← language_of cfg code;
      let new_tag := new_pre (next_oid s) (fenced language (get_text code)) in
      Ok (Soup (replace_oid (oid pre) new_tag (root s)) (2 + next_oid s))
  | None => Ok s
  end.

Fixpoint for_each {A S : Type} (body : S → A → result S) (l : list A)
    (s : S) : result S :=
  match l with
  | [] => Ok s
  | a :: l' => s' ← body s a; for_each body l' s'
  end.

Definition _process_code_blocks (cfg : ConversionConfig) (s : soup)
  : result soup :=
  for_each (process_pre cfg) (find_all ["pre"] (root s)) s.

(** Lines 141-142 and 144-145 for one attribute value. *)
Definition absolutize (base_url ref : string) : string :=
  if startswith ref "http://" || startswith ref "https://" then ref
  else String.append (rstrip slash base_url)
         (String slash (lstrip slash ref)).

Definition rewrite_attr (key base_url : string) (a : gmap string string)
  : gmap string string :=
  match a !! key with
  | Some v => <[key := absolutize base_url v]> a
  | None => a
  end.

(** The body of the loop of [_convert_relative_urls] on one tag. *)
Definition rewrite_tag (base_url : string) (tag : node) : node :=
  match tag with
  | Elem i nm cl a ch =>
      if bool_decide (nm = "a") && bool_decide (is_Some (a !! "href"))
      then Elem i nm cl (rewrite_attr "href" base_url a) ch
      else if bool_decide (nm = "img") && bool_decide (is_Some (a !! "src"))
      then Elem i nm cl (rewrite_attr "src" base_url a) ch
      else tag
  | Text _ _ => tag
  end.

Definition _convert_relative_urls (s : soup) (base_url : string) : soup :=
  Soup (fold_left (fun t tag => modify_oid (oid tag) (rewrite_tag base_url) t)
                  (find_all ["a"; "img"] (root s)) (root s))
       (next_oid s).

(** Python's [x or y] and truth value for an optional string. *)
Definition truthy (o : option string) : bool :=
  match o with Some (String _ _) => true | _ => false end.

Definition py_or (x y : option string) : option string :=
  if truthy x then x else y.

(** Lines 93-103 of [clean_html], on the parsed soup. *)
Definition clean_tree (cfg : ConversionConfig) (url : option string)
    (s : soup) : result soup :=
  let s := remove_unwanted cfg s in
  s ← _process_code_blocks cfg s;
  match py_or url (base_url cfg) with
  | Some (String c r) => Ok (_convert_relative_urls s (String c r))
  | _ => Ok s
  end.

End Converter.

(** ** Library functions on URLs

    [urllib.parse.urlparse] and [urllib.parse.unquote] are not part of
    the repository; they are written out here after the CPython 3.11
    sources ([Lib/urllib/parse.py]).  The validation of a host written
    between brackets ([_check_bracketed_host], which calls [ipaddress])
    stays external: it is the variable of the section.  [_checknetloc]
    raises only when the NFKC form of the network location holds one of
    [/?#@:]; no character up to code point 255 normalizes to one of
    them, so it never raises on the strings modelled here. *)

Module Url.
Import Str.

(** The text before the first character satisfying [stop], and the rest
    from that character on. *)
Fixpoint break_at (stop : ascii → bool) (s : string) : string * string :=
  match s with
  | EmptyString => (EmptyString, EmptyString)
  | String a r =>
      if stop a then (EmptyString, s)
      else let '(h, t) := break_at stop r in (String a h, t)
  end.

Definition is_char (c : ascii) : ascii → bool := fun a => Ascii.eqb a c.

Definition is_alpha (a : ascii) : bool :=
  let n := nat_of_ascii a in
  ((65 <=? n) && (n <=? 90)) || ((97 <=? n) && (n <=? 122)).

Definition is_scheme_char (a : ascii) : bool :=
  let n := nat_of_ascii a in
  is_alpha a || ((48 <=? n) && (n <=? 57))
  || is_char "+" a || is_char "-" a || is_char "." a.

Fixpoint forallb_string (p : ascii → bool) (s : string) : bool :=
  match s with
  | EmptyString => true
  | String a r => p a && forallb_string p r
  end.

(** [c.join(l)]. *)
Fixpoint join (c : ascii) (l : list string) : string :=
  match l with
  | [] => EmptyString
  | [x] => x
  | x :: r => String.append x (String c (join c r))
  end.

(** [s.lstrip(chars)] for a class of characters. *)
Fixpoint lstrip_where (p : ascii → bool) (s : string) : string :=
  match s with
  | String a r => if p a then lstrip_where p r else s
  | EmptyString => EmptyString
  end.

(** Every character of the class is taken out of [s]. *)
Fixpoint remove_where (p : ascii → bool) (s : string) : string :=
  match s with
  | String a r => if p a then remove_where p r else String a (remove_where p r)
  | EmptyString => EmptyString
  end.

(** [_WHATWG_C0_CONTROL_OR_SPACE]: the code points 0 to 32. *)
Definition is_c0_or_space (a : ascii) : bool := nat_of_ascii a <=? 32.

(** [_UNSAFE_URL_BYTES_TO_REMOVE]: tab, carriage return and newline. *)
Definition is_unsafe (a : ascii) : bool :=
  is_char "009" a || is_char "013" a || is_char "010" a.

(** [str.lower()] on the characters a scheme is made of. *)
Definition lower (a : ascii) : ascii :=
  let n := nat_of_ascii a in
  if (65 <=? n) && (n <=? 90) then ascii_of_nat (n + 32) else a.

(** [s.rpartition(c)[2]]: what follows the last [c], or all of [s]. *)
Fixpoint after_last (c : ascii) (s : string) : string :=
  match s with
  | EmptyString => EmptyString
  | String a r =>
      if contains c r then after_last c r
      else if Ascii.eqb a c then r else s
  end.

(** [_splitparams]: what follows the first semicolon of the last
    segment of the path is cut off. *)
Definition cut_params (p : string) : string :=
  match reverse (split slash p) with
  | last :: before =>
      join slash (reverse (fst (break_at (is_char ";") last) :: before))
  | [] => p
  end.

Definition uses_params : list string :=
  [""; "ftp"; "hdl"; "prospero"; "http"; "imap"; "https"; "shttp"; "rtsp";
   "rtspu"; "sip"; "sips"; "mms"; "sftp"; "tel"].

Record parsed_url : Type := Parsed {
  scheme : string; netloc : string; path : string }.

Definition invalid_ipv6 {A : Type} : result A :=
  Raise (ValueError "Invalid IPv6 URL").

Section UrlParse.

Variable check_bracketed_host : string → result unit.

(** [_check_bracketed_netloc]. *)
Definition check_bracketed_netloc (netloc : string) : result unit :=
  let hostname_and_port := after_last "@" netloc in
  match break_at (is_char "[") hostname_and_port with
  | (before_bracket, String _ bracketed) =>
      if negb (bool_decide (before_bracket = EmptyString)) then invalid_ipv6
      else
        let '(hostname, rest) := break_at (is_char "]") bracketed in
        let port := match rest with String _ p => p | EmptyString => rest end in
        if negb (bool_decide (port = EmptyString)) && negb (startswith port ":")
        then invalid_ipv6
        else check_bracketed_host hostname
  | (_, EmptyString) =>
      check_bracketed_host (fst (break_at (is_char ":") hostname_and_port))
  end.

(** The scheme, if the text before the first colon is one, and the rest
    of the URL. *)
Definition split_scheme (url : string) : string * string :=
  match break_at (is_char ":") url with
  | (String a h, String _ t) =>
      if is_alpha a && forallb_string is_scheme_char (String a h)
      then (map_string lower (String a h), t) else (EmptyString, url)
  | _ => (EmptyString, url)
  end.

(** The network location after [//], up to the next [/], [?] or [#];
    brackets in it must come in pairs around a valid host. *)
Definition split_netloc (url : string) : result (string * string) :=
  match url with
  | String "/" (String "/" t) =>
      let '(netloc, url) :=
        break_at (fun a => is_char "/" a || is_char "?" a || is_char "#" a) t in
      if xorb (contains "[" netloc) (contains "]" netloc) then invalid_ipv6
      else
        _ ← (if contains "[" netloc then check_bracketed_netloc netloc
             else Ok tt);
        Ok (netloc, url)
  | _ => Ok (EmptyString, url)
  end.

(** [urlparse(url)]: [urlsplit], then the parameters of the path for the
    schemes that have them. *)
Definition urlparse (url : string) : result parsed_url :=
  let url := lstrip_where is_c0_or_space url in
  let url := remove_where is_unsafe url in
  let '(scheme, url) := split_scheme url in
  '(netloc, url) ← split_netloc url;
  let '(url, _) := break_at (is_char "#") url in
  let '(url, _) := break_at (is_char "?") url in
  let url :=
    if bool_decide (scheme ∈ uses_params) && contains ";" url
    then cut_params url else url in
  Ok (Parsed scheme netloc url).

End UrlParse.

(** [[p for p in s.split('/') if p]]. *)
Definition nonempty_parts (s : string) : list string :=
  filter (fun p => p ≠ EmptyString) (split slash s).

Definition hex_val (a : ascii) : option nat :=
  let n := nat_of_ascii a in
  if (48 <=? n) && (n <=? 57) then Some (n - 48)
  else if (65 <=? n) && (n <=? 70) then Some (n - 55)
  else if (97 <=? n) && (n <=? 102) then Some (n - 87)
  else None.

(** [unquote(s)]: the percent escapes are turned into bytes and the
    bytes decoded as UTF-8, invalid bytes giving U+FFFD.  The result is
    [Some] text when all its characters lie in the modelled range, up to
    code point 255: the escaped bytes below 128, and the two-byte
    sequences led by [C2] or [C3].  [None] stands for a result with a
    character beyond that range. *)
Fixpoint unquote (s : string) : option string :=
  match s with
  | EmptyString => Some EmptyString
  | String a t =>
      if negb (Ascii.eqb a "%") then String a <$> unquote t
      else
        match t with
        | String x (String y r) =>
            match hex_val x, hex_val y with
            | Some h, Some l =>
                let b := 16 * h + l in
                if b <? 128 then String (ascii_of_nat b) <$> unquote r
                else if (b =? 194) || (b =? 195) then
                  match r with
                  | String "%" (String x' (String y' r')) =>
                      match hex_val x', hex_val y' with
                      | Some h', Some l' =>
                          let b' := 16 * h' + l' in
                          if (128 <=? b') && (b' <? 192)
                          then String (ascii_of_nat (64 * (b - 194) + b'))
                                 <$> unquote r'
                          else None
                      | _, _ => None
                      end
                  | _ => None
                  end
                else None
            | _, _ => String a <$> unquote t
            end
        | _ => String a <$> unquote t
        end
  end.

(** [s.strip('/')]. *)
Definition strip_slashes (s : string) : string := rstrip slash (lstrip slash s).

(** [os.path.splitext(p)[0]] for a name without directory separator: the
    name up to its last dot, unless only dots come before that dot. *)
Fixpoint splitext_root_aux (seen_other : bool) (s : string) : option string :=
  match s with
  | EmptyString => None
  | String a r =>
      let dot := Ascii.eqb a "." in
      match splitext_root_aux (seen_other || negb dot) r with
      | Some r' => Some (String a r')
      | None => if dot && seen_other then Some EmptyString else None
      end
  end.

Definition splitext_root (s : string) : string :=
  default s (splitext_root_aux false s).

End Url.

(** ** Paths: [pathlib.PurePosixPath]

    A path is its root ([/], [//] or none) and its names; the parser
    drops empty names and [.] names.  Written after [Lib/pathlib.py] of
    CPython 3.11 for the POSIX flavour, which has no drive. *)

Module PathLib.
Import Str Url.

Record PurePosixPath : Type := MkPath { anchor : string; names : list string }.

(** [splitroot]: one leading slash, or exactly two, is the root. *)
Definition splitroot (part : string) : string * string :=
  match part with
  | String "/" _ =>
      let stripped_part := lstrip slash part in
      if String.length part - String.length stripped_part =? 2
      then ("//", stripped_part) else ("/", stripped_part)
  | _ => (EmptyString, part)
  end.

Definition rel_names (rel : string) : list string :=
  filter (fun x => x ≠ EmptyString ∧ x ≠ ".") (split slash rel).

(** [parse_parts]: the arguments are read from the last one backwards
    and reading stops at the first one with a root, so a rooted
    argument discards all arguments before it. *)
Fixpoint parse_parts (args : list string) : PurePosixPath :=
  match args with
  | [] => MkPath EmptyString []
  | part :: rest =>
      let later := parse_parts rest in
      if negb (bool_decide (anchor later = EmptyString)) then later
      else if bool_decide (part = EmptyString) then later
      else let '(root, rel) := splitroot part in
           MkPath root (rel_names rel ++ names later)
  end.

(** [Path(s)]. *)
Definition Path (s : string) : PurePosixPath := parse_parts [s].

(** [p.parts]. *)
Definition parts (p : PurePosixPath) : list string :=
  if bool_decide (anchor p = EmptyString) then names p
  else anchor p :: names p.

(** [p.parent]: a path without names is its own parent. *)
Definition parent (p : PurePosixPath) : PurePosixPath :=
  MkPath (anchor p) (removelast (names p)).

(** [p.name]. *)
Definition name (p : PurePosixPath) : string :=
  default EmptyString (last (names p)).

(** [join_parsed_parts]: a rooted second path replaces the first. *)
Definition join_parsed_parts (p q : PurePosixPath) : PurePosixPath :=
  if bool_decide (anchor q = EmptyString)
  then MkPath (anchor p) (names p ++ names q) else q.

(** [p.joinpath] on a tuple of strings. *)
Definition joinpath (p : PurePosixPath) (args : list string) : PurePosixPath :=
  join_parsed_parts p (parse_parts args).

(** [p / key] for a string and for a path, whose parts are parsed
    again. *)
Definition truediv (p : PurePosixPath) (key : string) : PurePosixPath :=
  joinpath p [key].

Definition truediv_path (p q : PurePosixPath) : PurePosixPath :=
  joinpath p (parts q).

(** [str(p)]. *)
Definition str (p : PurePosixPath) : string :=
  let s := String.append (anchor p) (join slash (names p)) in
  if bool_decide (s = EmptyString) then "." else s.

End PathLib.

(** ** File names: [generate_filename] and [_get_safe_filename] *)

Module Filename.
Import Str Url PathLib.

(** The class of characters the substitution keeps: word characters,
    hyphen, underscore and dot. *)
Definition is_safe (a : ascii) : bool :=
  Re.is_word a || Ascii.eqb a "-" || Ascii.eqb a "_" || Ascii.eqb a ".".

(** Replacing every character outside the class by an underscore. *)
Definition sanitize (s : string) : string :=
  map_string (fun a => if is_safe a then a else "_"%char) s.

Section Names.

Variable check_bracketed_host : string → result unit.

(** [generate_filename] of [site_to_md/converter.py]. *)
Definition generate_filename (url : string) : result string :=
  parsed ← urlparse check_bracketed_host url;
  let filename := name (Path (path parsed)) in
  let filename :=
    if bool_decide (filename = EmptyString) then
      default (netloc parsed) (last (nonempty_parts (path parsed)))
    else filename in
  let filename := sanitize filename in
  Ok (if endswith filename ".md" then filename
      else String.append (rstrip "." filename) ".md").

(** [_get_safe_filename] of [site_to_md/site_to_md/converter.py].  The
    name is [None] when unquoting leaves the modelled characters. *)
Definition _get_safe_filename (url : string) : result (option string) :=
  parsed ← urlparse check_bracketed_host url;
  let base_name :=
    if negb (bool_decide (path parsed = EmptyString))
       && negb (bool_decide (path parsed = "/")) then
      unquoted ← unquote (path parsed);
      let clean_path := strip_slashes unquoted in
      Some (default (netloc parsed) (last (nonempty_parts clean_path)))
    else Some (netloc parsed) in
  Ok (base_name ← base_name;
      let base_name := splitext_root base_name in
      let safe_name := sanitize base_name in
      Some (String.append safe_name ".md")).

End Names.

End Filename.

(** ** [convert]: the pipeline with its effects

    The world holds what [convert] can change: the file system and the
    log.  The network, the readability extraction, the parser, the
    renderer, the home directory and the file system calls are
    external; they are the variables of the section. *)

Module Pipeline.
Import Dom Str Url PathLib Converter Filename.

Record world : Type := World {
  files : gmap string string;
  dirs : gset string;
  log : list string
}.

(** Computations that read and write the world and may raise. *)
Definition M (A : Type) : Type := world → result A * world.

Definition ret {A : Type} (a : A) : M A := fun w => (Ok a, w).
Definition raise {A : Type} (e : exn) : M A := fun w => (Raise e, w).
Definition lift {A : Type} (r : result A) : M A := fun w => (r, w).

Definition bindM {A B : Type} (m : M A) (k : A → M B) : M B := fun w =>
  match m w with
  | (Ok a, w') => k a w'
  | (Raise e, w') => (Raise e, w')
  end.

Notation "'let*' x ':=' m 'in' k" := (bindM m (fun x => k))
  (at level 10, x name, m at level 100, k at level 200,
   format "'[v' 'let*'  x  ':='  m  'in' '/' k ']'").

(** [try: body except Exception as e: handler(e); raise]. *)
Definition try_reraise {A : Type} (body : M A) (handler : exn → world → world)
  : M A := fun w =>
  match body w with
  | (Ok a, w') => (Ok a, w')
  | (Raise e, w') => (Raise e, handler e w')
  end.

Definition logger (level msg : string) : M unit := fun w =>
  (Ok tt, World (files w) (dirs w) (log w ++ [String.append level msg])).

Definition log_error (msg : string) (w : world) : world :=
  World (files w) (dirs w) (log w ++ [String.append "ERROR " msg]).

(** The f-string [f"{text} {url}: {e}"] of the two error lines. *)
Definition error_line (text url : string) (e : exn) : string :=
  String.append text (String.append url (String.append ": " (str_exn e))).

Section Convert.

Variable check_bracketed_host : string → result unit.
Variable http_get : string → result string.
Variable summary : string → result string.
Variable parse : string → soup.
Variable render : soup → string.
Variable html2text_handle : nat → string → result string.
Variable expanduser : string.
Variable mkdir : string → world → result unit * world.
Variable write_text : string → string → world → result unit * world.

Variable cfg : ConversionConfig.

Definition is_request_exception (e : exn) : bool :=
  match e with RequestException _ => true | _ => false end.

Definition fetch_url (url : string) : M string :=
  try_reraise (lift (http_get url))
    (fun e w => if is_request_exception e
                then log_error (error_line "Failed to fetch URL " url e) w
                else w).

Definition clean_html (html_content : string) (url : option string)
  : M string :=
  let* content := lift (summary html_content) in
  let soup := parse content in
  let* soup := lift (clean_tree cfg url soup) in
  ret (render soup).

Definition html_to_markdown (html_content : string) : M string :=
  let* markdown := lift (html2text_handle (body_width cfg) html_content) in
  ret (string_of_list_ascii
         (PostProcessor.post_process (list_ascii_of_string markdown))).

(** [Path.home()]: [expanduser] is what [os.path.expanduser('~')]
    gives; a tilde left in it means there is no home directory. *)
Definition home : result PurePosixPath :=
  if startswith expanduser "~"
  then Raise (RuntimeError "Could not determine home directory.")
  else Ok (parse_parts [expanduser]).

Definition get_default_output_dir (url : string) : result PurePosixPath :=
  home ← home;
  let docs_dir := truediv (truediv home "Documents") "website-markdown" in
  parsed ← urlparse check_bracketed_host url;
  let domain_path := Path (netloc parsed) in
  let domain_path :=
    if negb (bool_decide (path parsed = EmptyString)) then
      let path_parts := parts (parent (Path (path parsed))) in
      joinpath domain_path path_parts
    else domain_path in
  Ok (truediv_path docs_dir domain_path).

Definition convert (url : string) (output_dir : option string) : M string :=
  try_reraise
    (let* _ := logger "INFO " (String.append "Fetching content from " url) in
     let* html_content := fetch_url url in
     let* _ := logger "INFO " "Cleaning HTML content" in
     let* cleaned_html := clean_html html_content (Some url) in
     let* _ := logger "INFO " "Converting to markdown" in
     let* markdown_content := html_to_markdown cleaned_html in
     let* output_path :=
       lift (if truthy output_dir
             then Ok (Path (default EmptyString output_dir))
             else get_default_output_dir url) in
     let* _ := mkdir (str output_path) in
     let* filename := lift (generate_filename check_bracketed_host url) in
     let output_file := truediv output_path filename in
     let* _ := logger "INFO " (String.append "Saving to " (str output_file)) in
     let* _ := write_text (str output_file) markdown_content in
     ret (str output_file))
    (fun e w => log_error (error_line "Error converting " url e) w).

End Convert.

End Pipeline.

(** ** Directories: [_get_url_path_parts] of the sibling module *)

Module Dirs.
Import Str Url.

(** [_get_url_path_parts] of [site_to_md/site_to_md/converter.py]: the
    domain, then the path components, the last one left out when it
    looks like a file.  The list is [None] when unquoting leaves the
    modelled characters. *)
Definition _get_url_path_parts (check_bracketed_host : string → result unit)
    (url : string) : result (option (list string)) :=
  parsed ← urlparse check_bracketed_host url;
  let path_parts := [netloc parsed] in
  if negb (bool_decide (path parsed = EmptyString))
     && negb (bool_decide (path parsed = "/")) then
    Ok (unquoted ← unquote (path parsed);
        let clean_path := strip_slashes unquoted in
        let parts := nonempty_parts clean_path in
        Some (match last parts with
              | Some l =>
                  if contains "." l then path_parts ++ removelast parts
                  else path_parts ++ parts
              | None => path_parts
              end))
  else Ok (Some path_parts).

End Dirs.

(** * Specification vocabulary *)

Module Spec.
Import Dom Str Url PathLib Converter Filename Pipeline.

(** A [code] element with a class list and one string below it. *)
Definition code_with (i : nat) (cls : list string) (body : string) : node :=
  Elem i "code" (Some cls) ∅ [Text (S i) body].

(** The raw text of a node: the strings in it, in document order, one
    after the other. *)
Definition strings_of (l : list node) : list string :=
  omap (fun d => match d with Text _ s => Some s | Elem _ _ _ _ _ => None end) l.

Definition raw_text (n : node) : string :=
  fold_right String.append EmptyString (strings_of (subtree n)).

(** [cls] starts with one of the recognized prefixes. *)
Definition recognized (prefixes : list string) (cls : string) : bool :=
  existsb (fun prefix => startswith cls prefix) prefixes.

(** The tag taken from a class, [cls.split('-')[1]]. *)
Definition tag_of_class (cls : string) : result string :=
  match split hyphen cls !! 1 with
  | Some l => Ok l
  | None => Raise IndexError
  end.

(** The selection in configured prefix order, as the specification words
    it: the first prefix that some class starts with decides, whatever
    the position of that class in the class list. *)
Fixpoint select_by_prefix_order (prefixes cls : list string) : option string :=
  match prefixes with
  | [] => None
  | p :: ps =>
      match List.find (fun c => startswith c p) cls with
      | Some c => Some c
      | None => select_by_prefix_order ps cls
      end
  end.

Definition language_by_prefix_order (prefixes cls : list string)
  : result string :=
  match select_by_prefix_order prefixes cls with
  | Some c => tag_of_class c
  | None => Ok ""
  end.

(** [tag.get(key)] on the tag reached by the path [p] in the result. *)
Definition attr_at (key : string) (p : list nat) (r : result soup)
  : option string :=
  match r with
  | Ok s =>
      match at_path (root s) p with
      | Some (Elem _ _ _ a _) => a !! key
      | _ => None
      end
  | Raise _ => None
  end.

Definition with_base_url (b : option string) (cfg : ConversionConfig)
  : ConversionConfig :=
  Config (remove_elements cfg) (body_width cfg) (code_language_classes cfg) b.

(** [p not in s], for a pattern [p] that is not empty. *)
Fixpoint free (p s : Re.text) : bool :=
  match s with
  | [] => true
  | _ :: r =>
      match Re.strip_prefix p s with
      | Some _ => false
      | None => free p r
      end
  end.

(** The pattern matches at no position of [s]. *)
Fixpoint nomatch (m : Re.matcher) (s : Re.text) : bool :=
  match s with
  | [] => true
  | _ :: r =>
      match m s with
      | Some _ => false
      | None => nomatch m r
      end
  end.

(** Three backticks, a run of word characters and three newlines that
    are not directly followed by three backticks: an opening fence with
    a newline too many after it. *)
Definition m_fence_open_blank : Re.matcher := fun s =>
  match Re.strip_prefix PostProcessor.fence s with
  | Some r =>
      let '(w, r') := Re.span Re.is_word r in
      match Re.strip_prefix [Re.nl; Re.nl; Re.nl] r' with
      | Some r'' =>
          match Re.strip_prefix PostProcessor.fence r'' with
          | Some _ => None
          | None => Some (3 + length w + 3, [])
          end
      | None => None
      end
  | None => None
  end.

(** On the reversed text: three backticks, three newlines and a run of
    word characters that is not directly followed by three backticks.
    In the text itself these are three newlines before a fence that do
    not come directly after an opening fence. *)
Definition m_fence_close_blank : Re.matcher := fun s =>
  match Re.strip_prefix (PostProcessor.fence ++ [Re.nl; Re.nl; Re.nl]) s with
  | Some r =>
      let '(w, r') := Re.span Re.is_word r in
      match Re.strip_prefix PostProcessor.fence r' with
      | Some _ => None
      | None => Some (6 + length w, [])
      end
  | None => None
  end.

(** Three newlines before a fence come directly after an opening
    fence. *)
Definition blank_after_open_only (s : Re.text) : Prop :=
  ∀ x y, s = x ++ [Re.nl; Re.nl; Re.nl] ++ PostProcessor.fence ++ y →
    ∃ x0 w, x = x0 ++ PostProcessor.fence ++ w
            ∧ Forall (fun c => Re.is_word c = true) w.

(** The opening pattern, three backticks, a run of word characters and
    two newlines, where no three backticks follow it directly. *)
Definition m_fence_open_text : Re.matcher := fun s =>
  match Re.strip_prefix PostProcessor.fence s with
  | Some r =>
      let '(w, r') := Re.span Re.is_word r in
      match Re.strip_prefix [Re.nl; Re.nl] r' with
      | Some r'' =>
          match Re.strip_prefix PostProcessor.fence r'' with
          | Some _ => None
          | None => Some (3 + length w + 2, [])
          end
      | None => None
      end
  | None => None
  end.

(** The text after the two substitutions that strip the markers. *)
Definition markers_stripped (markdown : Re.text) : Re.text :=
  Re.sub PostProcessor.m_close_marker
    (Re.sub PostProcessor.m_open_marker markdown).

(** [tag.get('class', [])]. *)
Definition class_list (n : node) : list string :=
  match n with
  | Elem _ _ (Some cls) _ _ => cls
  | _ => []
  end.

(** ['-' in s]. *)
Fixpoint has_hyphen (s : string) : bool :=
  match s with
  | EmptyString => false
  | String a r => Ascii.eqb a hyphen || has_hyphen r
  end.

(** The tree invariant: every node is one object, and [next_oid] is
    beyond all of them. *)
Definition wf_soup (s : soup) : Prop :=
  NoDup (oids (root s)) ∧ Forall (fun i => i < next_oid s) (oids (root s)).

(** A [pre] element with a [code] element below it. *)
Definition is_code_block (n : node) : bool :=
  has_name ["pre"] n && bool_decide (is_Some (find "code" n)).

(** The nodes passed on the way from [n] to the node at path [p], both
    ends excluded. *)
Fixpoint inner_nodes (n : node) (p : list nat) : list node :=
  match p with
  | [] => []
  | i :: p' =>
      match children n !! i, p' with
      | Some c, _ :: _ => c :: inner_nodes c p'
      | _, _ => []
      end
  end.

(** The node at [p] does not lie inside a code block. *)
Definition outside_blocks (n : node) (p : list nat) : Prop :=
  Forall (fun a => is_code_block a = false) (inner_nodes n p).

(** What a node is by itself: identity, tag, classes and attributes, or
    identity and string. *)
Definition label (n : node)
  : nat * option (string * option (list string) * gmap string string)
    * option string :=
  match n with
  | Text i s => (i, None, Some s)
  | Elem i nm cl a _ => (i, Some (nm, cl, a), None)
  end.

(** *** The loops as one pass over the tree

    Each loop of [clean_html] mutates the tree once per collected
    element.  The functions below make all the mutations of a loop in a
    single traversal; the loops are proved equal to them. *)

(** All elements with a [dead] identity leave the tree. *)
Fixpoint prune (dead : nat → bool) (n : node) : node :=
  match n with
  | Text _ _ => n
  | Elem j nm cl a ch =>
      Elem j nm cl a
        (flat_map (fun c => if dead (oid c) then [] else [prune dead c]) ch)
  end.

(** [f] is applied to the fields of all selected objects. *)
Fixpoint map_where (sel : nat → bool) (f : node → node) (n : node) : node :=
  match n with
  | Text _ _ => n
  | Elem j nm cl a ch =>
      Elem j nm cl a
        (map (fun c => let c' := map_where sel f c in
                       if sel (oid c) then f c' else c') ch)
  end.

(** A mutation that touches the attributes only. *)
Definition local_mutation (f : node → node) : Prop :=
  ∃ g : string → gmap string string → gmap string string,
    ∀ n, f n = match n with
               | Text _ _ => n
               | Elem i nm cl a ch => Elem i nm cl (g nm a) ch
               end.

(** Every element with an entry in [r] gives way to that entry. *)
Fixpoint replace_where (r : nat → option node) (n : node) : node :=
  match n with
  | Text _ _ => n
  | Elem j nm cl a ch =>
      Elem j nm cl a
        (map (fun c => match r (oid c) with
                       | Some new => new
                       | None => replace_where r c
                       end) ch)
  end.

(** The replacements the loop of [_process_code_blocks] makes for the
    elements [l], the first new identity being [c]. *)
Fixpoint edits (cfg : ConversionConfig) (l : list node) (c : nat)
  : result (list (nat * node)) :=
  match l with
  | [] => Ok []
  | pre :: l' =>
      match find "code" pre with
      | Some code =>
          language ← language_of cfg code;
          rest ← edits cfg l' (2 + c);
          Ok ((oid pre, new_pre c (fenced language (get_text code))) :: rest)
      | None => edits cfg l' c
      end
  end.

Definition edit_for (es : list (nat * node)) (j : nat) : option node :=
  snd <$> List.find (fun e => fst e =? j) es.

(** [tag.attrs]; a string has none. *)
Definition attrs_of (n : node) : gmap string string :=
  match n with
  | Text _ _ => ∅
  | Elem _ _ _ a _ => a
  end.

(** A node without its attributes and children: identity, tag and
    classes, or identity and string. *)
Definition sans_attrs (n : node)
  : nat * option (string * option (list string)) * option string :=
  match n with
  | Text i s => (i, None, Some s)
  | Elem i nm cl _ _ => (i, Some (nm, cl), None)
  end.

(** A base URL that keeps its scheme when its trailing slashes go. *)
Definition keeps_scheme (base_url : string) : bool :=
  startswith (rstrip slash base_url) "http://"
  || startswith (rstrip slash base_url) "https://".

(** [v] is [base] without the slashes at its end, one slash, and [ref]
    without the slashes at its start. *)
Definition joined_by_one_slash (base ref v : string) : Prop :=
  ∃ b r sb sr,
    v = String.append b (String slash r)
    ∧ base = String.append b sb ∧ ref = String.append sr r
    ∧ forallb_string (is_char slash) sb = true
    ∧ forallb_string (is_char slash) sr = true
    ∧ (∀ x, b ≠ String.append x "/")
    ∧ (∀ x, r ≠ String slash x).

(** A name as the path parser keeps it. *)
Definition clean_name (x : string) : Prop :=
  x ≠ EmptyString ∧ x ≠ "." ∧ contains "/" x = false.

(** A path as the parser makes it. *)
Definition wf_path (p : PurePosixPath) : Prop :=
  (anchor p = EmptyString ∨ anchor p = "/" ∨ anchor p = "//")
  ∧ Forall clean_name (names p).

(** The step of a run of [convert] that raised [e]: each step is named
    with the values the steps before it returned, and the file system
    calls with the world as the steps before them left it. *)
Definition raised_by
    (check : string → result unit)
    (http_get summary : string → result string)
    (parse : string → soup) (render : soup → string)
    (html2text_handle : nat → string → result string) (expanduser : string)
    (mkdir : string → world → result unit * world)
    (write_text : string → string → world → result unit * world)
    (cfg : ConversionConfig) (url : string) (output_dir : option string)
    (w : world) (e : exn) : Prop :=
  http_get url = Raise e
  ∨ ∃ html, http_get url = Ok html ∧
    (summary html = Raise e
     ∨ ∃ content, summary html = Ok content ∧
       (clean_tree cfg (Some url) (parse content) = Raise e
        ∨ ∃ s, clean_tree cfg (Some url) (parse content) = Ok s ∧
          (html2text_handle (body_width cfg) (render s) = Raise e
           ∨ ∃ md, html2text_handle (body_width cfg) (render s) = Ok md ∧
             let output_path :=
               if truthy output_dir
               then Ok (Path (default EmptyString output_dir))
               else get_default_output_dir check expanduser url in
             (output_path = Raise e
              ∨ ∃ out, output_path = Ok out ∧
                let w1 :=
                  World (files w) (dirs w)
                    (log w ++ [String.append "INFO "
                                 (String.append "Fetching content from " url);
                               "INFO Cleaning HTML content";
                               "INFO Converting to markdown"]) in
                (fst (mkdir (str out) w1) = Raise e
                 ∨ ∃ w2, mkdir (str out) w1 = (Ok tt, w2) ∧
                   (generate_filename check url = Raise e
                    ∨ ∃ filename,
                        generate_filename check url = Ok filename ∧
                        let output_file := str (truediv out filename) in
                        let w3 :=
                          World (files w2) (dirs w2)
                            (log w2 ++ [String.append "INFO "
                                          (String.append "Saving to "
                                                         output_file)]) in
                        fst (write_text output_file
                               (string_of_list_ascii
                                  (PostProcessor.post_process
                                     (list_ascii_of_string md))) w3)
                        = Raise e)))))).

End Spec.

(** * Properties *)

Import Dom Str Url PathLib Converter Filename Pipeline Spec.

(** ** Trees and object identities *)

Lemma node_ind' (P : node → Prop) :
  (∀ i s, P (Text i s)) →
  (∀ i nm cl a ch, Forall P ch → P (Elem i nm cl a ch)) →
  ∀ n, P n.
Proof.
  intros HT HE. fix IH 1. intros [i s | i nm cl a ch].
  - apply HT.
  - apply HE. induction ch as [|c ch IHch]; constructor.
    + apply IH.
    + apply IHch.
Qed.

Lemma subtree_eq (n : node) : subtree n = n :: descendants n.
Proof. destruct n; reflexivity. Qed.

Lemma oids_eq (n : node) : oids n = oid n :: flat_map oids (children n).
Proof.
  unfold oids. rewrite subtree_eq. simpl. f_equal.
  unfold descendants. induction (children n) as [|c ch IH]; simpl.
  - reflexivity.
  - rewrite map_app, IH. reflexivity.
Qed.

Lemma in_subtree_self (n : node) : n ∈ subtree n.
Proof. rewrite subtree_eq. left. Qed.

Lemma in_descendants (d n : node) :
  d ∈ descendants n ↔ ∃ c, c ∈ children n ∧ d ∈ subtree c.
Proof.
  unfold descendants. rewrite list_elem_of_In, in_flat_map.
  split; intros (c & Hc & Hd); exists c;
    rewrite ?list_elem_of_In in *; auto.
Qed.

Lemma subtree_trans (d e n : node) :
  d ∈ subtree e → e ∈ subtree n → d ∈ subtree n.
Proof.
  revert e d. induction n as [i s | i nm cl a ch IH] using node_ind';
    intros e d Hd He.
  - simpl in He. apply list_elem_of_singleton in He. subst e. exact Hd.
  - rewrite subtree_eq in He. apply elem_of_cons in He as [-> | He];
      [exact Hd|].
    rewrite subtree_eq. right.
    apply in_descendants in He as (c & Hc & He).
    apply in_descendants. exists c. split; [exact Hc|].
    rewrite Forall_forall in IH. eapply IH; eauto.
Qed.

Lemma in_oids (d n : node) : d ∈ subtree n → oid d ∈ oids n.
Proof. intros H. unfold oids. apply list_elem_of_fmap. eauto. Qed.

Lemma at_path_subtree (n m : node) (p : list nat) :
  at_path n p = Some m → m ∈ subtree n.
Proof.
  revert n. induction p as [|i p IH]; simpl; intros n H.
  - inversion H. apply in_subtree_self.
  - destruct (children n !! i) as [c|] eqn:E; [|discriminate].
    rewrite subtree_eq. right. apply in_descendants.
    exists c. split; [eapply list_elem_of_lookup_2; eauto | auto].
Qed.

(** ** Language tags *)

(** C3: the language tag is [cls.split('-')[1]], the part of the class
    between its first and its second hyphen: the class
    [language-objective-c] gives the tag [objective], where the
    substring after the first hyphen is [objective-c]. *)
Theorem language_tag_stops_at_second_hyphen :
  let code := code_with 2 ["language-objective-c"] "x" in
  let s := Soup (Elem 0 "[document]" None ∅ [Elem 1 "pre" None ∅ [code]]) 4 in
  language_of default_config code = Ok "objective"
  ∧ String.substring 9 11 "language-objective-c" = "objective-c"
  ∧ (s' ← _process_code_blocks default_config s; Ok (get_text (root s')))
    = Ok (fenced "objective" "x").
Proof. repeat split; vm_compute; reflexivity. Qed.

(** The class at which the loop over the class list breaks. *)
Lemma scan_classes_split (prefixes cls : list string) :
  (Forall (fun c => recognized prefixes c = false) cls
   ∧ scan_classes prefixes cls = Ok "")
  ∨ ∃ before c after,
      cls = before ++ c :: after
      ∧ Forall (fun c => recognized prefixes c = false) before
      ∧ recognized prefixes c = true
      ∧ scan_classes prefixes cls = tag_of_class c.
Proof.
  unfold recognized, tag_of_class.
  induction cls as [|c cls IH]; simpl.
  - left. split; [constructor | reflexivity].
  - destruct (existsb (fun p => startswith c p) prefixes) eqn:E.
    + right. exists [], c, cls. repeat split; [constructor | exact E].
    + destruct IH as [[Hall Hs] | (before & c' & after & -> & Hb & Hc & Hs)].
      * left. split; [constructor; assumption | exact Hs].
      * right. exists (c :: before), c', after.
        repeat split; [constructor; assumption | exact Hc | exact Hs].
Qed.

Lemma existsb_perm {A : Type} (f : A → bool) (l l' : list A) :
  l ≡ₚ l' → existsb f l = existsb f l'.
Proof.
  induction 1; simpl; try congruence.
  destruct (f x), (f y); reflexivity.
Qed.

Lemma scan_classes_perm (prefixes prefixes' cls : list string) :
  prefixes ≡ₚ prefixes' →
  scan_classes prefixes' cls = scan_classes prefixes cls.
Proof.
  intros HP. induction cls as [|c cls IH]; simpl; [reflexivity|].
  rewrite <- (existsb_perm _ _ _ HP), IH. reflexivity.
Qed.

Lemma language_of_scan (cfg : ConversionConfig) i nm cls a ch :
  language_of cfg (Elem i nm (Some cls) a ch)
  = scan_classes (code_language_classes cfg) cls.
Proof. destruct cls; reflexivity. Qed.

(** C4, as the code has it: the class that gives the language is the
    first class of the class list, in class-list order, that starts with
    any recognized prefix; the order of the prefixes in
    [code_language_classes] has no influence on the choice. *)
Theorem language_from_first_matching_class
    (cfg : ConversionConfig) (i : nat) (nm : string) (cls : list string)
    (a : gmap string string) (ch : list node) :
  let code := Elem i nm (Some cls) a ch in
  let prefixes := code_language_classes cfg in
  (∀ cfg', prefixes ≡ₚ code_language_classes cfg' →
           language_of cfg' code = language_of cfg code)
  ∧ ((Forall (fun c => recognized prefixes c = false) cls
      ∧ language_of cfg code = Ok "")
     ∨ ∃ before c after,
         cls = before ++ c :: after
         ∧ Forall (fun c => recognized prefixes c = false) before
         ∧ recognized prefixes c = true
         ∧ language_of cfg code = tag_of_class c).
Proof.
  intros code prefixes. subst code. split.
  - intros cfg' HP. rewrite !language_of_scan.
    apply scan_classes_perm. exact HP.
  - rewrite language_of_scan. apply scan_classes_split.
Qed.

(** C4 as stated fails: with the default prefixes [language-], [lang-]
    and the class list [lang-js language-python], prefix order would
    choose [language-python]; the code gives [js]. *)
Lemma prefix_order_does_not_decide :
  let cls := ["lang-js"; "language-python"] in
  language_by_prefix_order (code_language_classes default_config) cls
    = Ok "python"
  ∧ language_of default_config (code_with 1 cls "x") = Ok "js"
  ∧ language_of default_config (code_with 1 cls "x")
    ≠ language_by_prefix_order (code_language_classes default_config) cls.
Proof. repeat split; try reflexivity. discriminate. Qed.

(** ** File names *)

(** C7: [generate_filename] keeps the extension of the last path
    component and appends [.md]; [_get_safe_filename] of the sibling
    module removes the extension first. *)
Theorem generate_filename_keeps_extension
    (check_bracketed_host : string → result unit) :
  generate_filename check_bracketed_host "https://example.com/docs/guide.html"
  = Ok "guide.html.md"
  ∧ _get_safe_filename check_bracketed_host
      "https://example.com/docs/guide.html"
    = Ok (Some "guide.md")
  ∧ generate_filename check_bracketed_host "https://example.com/"
    = Ok "example.com.md".
Proof. repeat split; vm_compute; reflexivity. Qed.

(** ** The base of relative references *)



(** ** Failure of a pipeline stage *)

Section ConvertFailure.

Variable check_bracketed_host : string → result unit.
Variable http_get : string → result string.
Variable summary : string → result string.
Variable parse : string → soup.
Variable render : soup → string.
Variable html2text_handle : nat → string → result string.
Variable expanduser : string.
Variable mkdir : string → world → result unit * world.
Variable write_text : string → string → world → result unit * world.
Variable cfg : ConversionConfig.

Let fetch := fetch_url http_get.
Let clean := clean_html summary parse render cfg.
Let to_markdown := html_to_markdown html2text_handle cfg.
Let run := convert check_bracketed_host http_get summary parse render
                   html2text_handle expanduser mkdir write_text cfg.

Lemma fetch_url_frame (url : string) (w : world) :
  fst (fetch url w) = http_get url
  ∧ files (snd (fetch url w)) = files w ∧ dirs (snd (fetch url w)) = dirs w.
Proof.
  unfold fetch, fetch_url, try_reraise, lift.
  destruct (http_get url) as [html|e]; simpl; auto.
  destruct (is_request_exception e); auto.
Qed.

Lemma fetch_url_world (url : string) (w w0 : world) :
  fst (fetch url w) = fst (fetch url w0).
Proof.
  rewrite (proj1 (fetch_url_frame url w)), (proj1 (fetch_url_frame url w0)).
  reflexivity.
Qed.

Lemma clean_html_frame (html : string) (url : option string) (w : world) :
  snd (clean html url w) = w ∧ ∀ w0, fst (clean html url w) = fst (clean html url w0).
Proof.
  unfold clean, clean_html, bindM, lift, ret.
  destruct (summary html); simpl; auto.
  destruct (clean_tree cfg url (parse a)); simpl; auto.
Qed.

Lemma html_to_markdown_frame (html : string) (w : world) :
  snd (to_markdown html w) = w
  ∧ ∀ w0, fst (to_markdown html w) = fst (to_markdown html w0).
Proof.
  unfold to_markdown, html_to_markdown, bindM, lift, ret.
  destruct (html2text_handle (body_width cfg) html); simpl; auto.
Qed.

Lemma convert_failure_pair
    (url : string) (output_dir : option string) (w : world) (e : exn) :
  (fst (fetch url w) = Raise e
   ∨ (∃ html, fst (fetch url w) = Ok html
              ∧ fst (clean html (Some url) w) = Raise e)
   ∨ (∃ html cleaned, fst (fetch url w) = Ok html
              ∧ fst (clean html (Some url) w) = Ok cleaned
              ∧ fst (to_markdown cleaned w) = Raise e)) →
  ∃ w', run url output_dir w = (Raise e, w')
        ∧ files w' = files w ∧ dirs w' = dirs w.
Proof.
  intros H.
  unfold run, convert, try_reraise.
  unfold bindM at 1. unfold logger at 1.
  set (w1 := World _ _ _).
  assert (Hf := fetch_url_frame url w1).
  assert (Hfw := fetch_url_world url w w1).
  unfold bindM at 1. fold fetch.
  destruct (fetch url w1) as [[html|e1] w2] eqn:E1; simpl in Hf, Hfw.
  2:{ destruct H as [H | [(html & H & _) | (html & cl & H & _)]];
      rewrite Hfw in H; try discriminate.
      inversion H; subst. destruct Hf as (_ & Hf1 & Hf2).
      eexists; split; [reflexivity|]. simpl. rewrite Hf1, Hf2. auto. }
  destruct Hf as (_ & Hf1 & Hf2).
  unfold bindM at 1. unfold logger at 1.
  set (w3 := World _ _ _).
  unfold bindM at 1. fold clean.
  destruct (clean_html_frame html (Some url) w3) as [Hc1 Hc2].
  destruct (clean html (Some url) w3) as [[cleaned|e2] w4] eqn:E2;
    simpl in Hc1; subst w4.
  2:{ destruct H as [H | [(html' & H & H2) | (html' & cl & H & H2 & _)]];
      rewrite Hfw in H; try discriminate;
      inversion H; subst html';
      rewrite <- (Hc2 w) in H2; simpl in H2; try discriminate.
      inversion H2; subst. eexists; split; [reflexivity|].
      simpl. rewrite Hf1, Hf2. auto. }
  unfold bindM at 1. unfold logger at 1.
  set (w5 := World _ _ _).
  unfold bindM at 1. fold to_markdown.
  destruct (html_to_markdown_frame cleaned w5) as [Hm1 Hm2].
  destruct (to_markdown cleaned w5) as [[md|e3] w6] eqn:E3;
    simpl in Hm1; subst w6.
  - exfalso.
    destruct H as [H | [(html' & H & H2) | (html' & cl & H & H2 & H3)]];
      rewrite Hfw in H; try discriminate;
      inversion H; subst html';
      rewrite <- (Hc2 w) in H2; simpl in H2; try discriminate.
    inversion H2; subst cl.
    rewrite <- (Hm2 w) in H3. simpl in H3. discriminate.
  - destruct H as [H | [(html' & H & H2) | (html' & cl & H & H2 & H3)]];
      rewrite Hfw in H; try discriminate;
      inversion H; subst html';
      rewrite <- (Hc2 w) in H2; simpl in H2; try discriminate.
    inversion H2; subst cl.
    rewrite <- (Hm2 w) in H3. simpl in H3. inversion H3; subst.
    eexists; split; [reflexivity|]. simpl. rewrite Hf1, Hf2. auto.
Qed.

(** C9: when fetching, cleaning or the markdown conversion raises,
    [convert] raises the same exception and the file system is as it
    was: no directory is made and no file is written. *)
Theorem convert_failure_writes_nothing
    (url : string) (output_dir : option string) (w : world) (e : exn) :
  (fst (fetch url w) = Raise e
   ∨ (∃ html, fst (fetch url w) = Ok html
              ∧ fst (clean html (Some url) w) = Raise e)
   ∨ (∃ html cleaned, fst (fetch url w) = Ok html
              ∧ fst (clean html (Some url) w) = Ok cleaned
              ∧ fst (to_markdown cleaned w) = Raise e)) →
  fst (run url output_dir w) = Raise e
  ∧ files (snd (run url output_dir w)) = files w
  ∧ dirs (snd (run url output_dir w)) = dirs w.
Proof.
  intros H.
  destruct (convert_failure_pair url output_dir w e H) as (w' & -> & Hf & Hd).
  simpl. auto.
Qed.

End ConvertFailure.

(** A run in which the cleaning stage raises: the configured prefix [hl]
    has no hyphen, so the language of the class [hl] cannot be taken. *)
Lemma convert_failure_witness :
  let http_get := fun _ : string => Ok "<pre><code class=hl>x</code></pre>" in
  let summary := fun html : string => Ok html in
  let parse := fun _ : string =>
    Soup (Elem 0 "[document]" None ∅
            [Elem 1 "pre" None ∅ [code_with 2 ["hl"] "x"]]) 4 in
  let render := fun s : soup => get_text (root s) in
  let handle := fun (_ : nat) (html : string) => Ok html in
  let mkdir := fun (p : string) (w : world) =>
    (Ok tt, World (files w) ({[ p ]} ∪ dirs w) (log w)) in
  let write_text := fun (p content : string) (w : world) =>
    (Ok tt, World (<[p := content]> (files w)) (dirs w) (log w)) in
  let cfg := Config ["nav"] 0 ["hl"] None in
  let w := World ∅ ∅ [] in
  let run := convert (fun _ => Ok tt) http_get summary parse render handle
                     "/home/u" mkdir write_text cfg in
  fst (run "https://example.com/" None w) = Raise IndexError
  ∧ files (snd (run "https://example.com/" None w)) = files w
  ∧ dirs (snd (run "https://example.com/" None w)) = dirs w.
Proof.
  intros http_get summary parse render handle mkdir write_text cfg w run.
  apply (convert_failure_writes_nothing (fun _ => Ok tt) http_get summary
           parse render handle "/home/u" mkdir write_text cfg
           "https://example.com/" None w IndexError).
  right. left. eexists. split; vm_compute; reflexivity.
Defined.

(** ** Removal of unwanted elements *)

Lemma elem_of_flat_map {A B : Type} (f : A → list B) (l : list A) (y : B) :
  y ∈ flat_map f l ↔ ∃ x, x ∈ l ∧ y ∈ f x.
Proof.
  rewrite list_elem_of_In, in_flat_map.
  split; intros (x & Hx & Hy); exists x;
    rewrite ?list_elem_of_In in *; auto.
Qed.

Lemma NoDup_oids_children (n : node) :
  NoDup (oids n) →
  (oid n ∉ flat_map oids (children n)) ∧ NoDup (flat_map oids (children n)).
Proof. rewrite oids_eq. intros H. apply NoDup_cons in H. exact H. Qed.

Lemma NoDup_flat_map_child (ch : list node) (c : node) :
  NoDup (flat_map oids ch) → c ∈ ch → NoDup (oids c).
Proof.
  induction ch as [|c0 ch IH]; simpl; intros HN Hc.
  - inversion Hc.
  - apply NoDup_app in HN as (H1 & _ & H2).
    apply elem_of_cons in Hc as [-> | Hc]; auto.
Qed.

(** Two children of one node that share an identity are one child. *)
Lemma same_child (ch : list node) (c c' : node) (x : nat) :
  NoDup (flat_map oids ch) → c ∈ ch → c' ∈ ch →
  x ∈ oids c → x ∈ oids c' → c = c'.
Proof.
  induction ch as [|c0 ch IH]; simpl; intros HN Hc Hc' Hx Hx'.
  - inversion Hc.
  - apply NoDup_app in HN as (H1 & Hd & H2).
    assert (Hin : ∀ k, k ∈ ch → x ∈ oids k → x ∈ flat_map oids ch).
    { intros k Hk Hxk. apply elem_of_flat_map. eauto. }
    apply elem_of_cons in Hc as [-> | Hc];
      apply elem_of_cons in Hc' as [-> | Hc']; auto.
    + exfalso. eapply Hd; eauto.
    + exfalso. eapply Hd; eauto.
Qed.

Lemma oid_prune (dead : nat → bool) (n : node) : oid (prune dead n) = oid n.
Proof. destruct n; reflexivity. Qed.

Lemma remove_oid_prune (i : nat) (n : node) :
  remove_oid i n = prune (fun j => bool_decide (j = i)) n.
Proof.
  induction n as [j s | j nm cl a ch IH] using node_ind'; simpl; [reflexivity|].
  f_equal. induction IH as [|c ch Hc _ IHch]; simpl; [reflexivity|].
  f_equal; [|exact IHch].
  case_bool_decide; destruct (decide (oid c = i)); try contradiction;
    rewrite ?Hc; reflexivity.
Qed.

Lemma prune_prune (p q : nat → bool) (n : node) :
  prune p (prune q n) = prune (fun j => q j || p j) n.
Proof.
  induction n as [j s | j nm cl a ch IH] using node_ind'; simpl; [reflexivity|].
  f_equal. induction IH as [|c ch Hc _ IHch]; simpl; [reflexivity|].
  destruct (q (oid c)) eqn:Eq; simpl.
  - exact IHch.
  - rewrite oid_prune. destruct (p (oid c)); simpl; rewrite IHch;
      [reflexivity | rewrite Hc; reflexivity].
Qed.

Lemma prune_ext (p q : nat → bool) (n : node) :
  (∀ j, p j = q j) → prune p n = prune q n.
Proof.
  intros E.
  induction n as [j s | j nm cl a ch IH] using node_ind'; simpl; [reflexivity|].
  f_equal. induction IH as [|c ch Hc _ IHch]; simpl; [reflexivity|].
  rewrite E, Hc, IHch. reflexivity.
Qed.

Lemma prune_none (n : node) : prune (fun _ => false) n = n.
Proof.
  induction n as [j s | j nm cl a ch IH] using node_ind'; simpl; [reflexivity|].
  f_equal. induction IH as [|c ch Hc _ IHch]; simpl; [reflexivity|].
  rewrite Hc, IHch. reflexivity.
Qed.

(** The loop of decompositions is one pruning. *)
Lemma fold_remove_prune (l : list node) (t : node) :
  fold_left (fun t element => remove_oid (oid element) t) l t
  = prune (fun j => bool_decide (j ∈ map oid l)) t.
Proof.
  assert (G : ∀ (l : list node) (dead : nat → bool) (t : node),
    fold_left (fun t element => remove_oid (oid element) t) l (prune dead t)
    = prune (fun j => dead j || bool_decide (j ∈ map oid l)) t).
  { clear. induction l as [|e l IH]; simpl; intros dead t.
    - apply prune_ext. intros j. rewrite orb_false_r. reflexivity.
    - rewrite remove_oid_prune, prune_prune, IH. apply prune_ext. intros j.
      destruct (dead j); simpl; [reflexivity|].
      rewrite <- bool_decide_or. apply bool_decide_ext.
      rewrite elem_of_cons. tauto. }
  rewrite <- (prune_none t) at 1. rewrite G. reflexivity.
Qed.

Lemma oids_prune_incl (dead : nat → bool) (n : node) (x : nat) :
  x ∈ oids (prune dead n) → x ∈ oids n.
Proof.
  revert x. induction n as [j s | j nm cl a ch IH] using node_ind';
    intros x; [auto|].
  rewrite !oids_eq. simpl. rewrite !elem_of_cons.
  intros [E | H]; [left; exact E | right].
  induction IH as [|c ch Hc _ IHch]; simpl in *; [exact H|].
  rewrite flat_map_app in H. apply elem_of_app.
  apply elem_of_app in H as [H | H].
  - left. destruct (dead (oid c)); simpl in H; [inversion H|].
    rewrite app_nil_r in H. auto.
  - right. auto.
Qed.

(** Nothing below a pruned element stays. *)
Lemma prune_removes (dead : nat → bool) (t e d : node) :
  NoDup (oids t) → e ∈ descendants t → dead (oid e) = true →
  d ∈ subtree e → oid d ∉ oids (prune dead t).
Proof.
  revert e d. induction t as [j s | j nm cl a ch IH] using node_ind';
    intros e d HN He Hdead Hd.
  - unfold descendants in He. simpl in He. inversion He.
  - apply in_descendants in He as (c & Hc & He). simpl in Hc.
    assert (Hdc : d ∈ subtree c) by (eapply subtree_trans; eauto).
    apply NoDup_oids_children in HN as [Hj HN]. simpl in Hj, HN.
    rewrite oids_eq. simpl. intros Hin. apply elem_of_cons in Hin as [E | Hin].
    + apply Hj. rewrite <- E. apply elem_of_flat_map.
      exists c. split; [exact Hc | apply in_oids; exact Hdc].
    + apply elem_of_flat_map in Hin as (k & Hk & Hin).
      apply elem_of_flat_map in Hk as (c' & Hc' & Hk).
      destruct (dead (oid c')) eqn:Ec'; [inversion Hk|].
      apply list_elem_of_singleton in Hk. subst k.
      assert (c = c').
      { eapply same_child; eauto using oids_prune_incl.
        apply in_oids. exact Hdc. }
      subst c'. rewrite subtree_eq in He.
      apply elem_of_cons in He as [-> | He]; [congruence|].
      rewrite Forall_forall in IH.
      eapply (IH c Hc e d); eauto.
      eapply NoDup_flat_map_child; eauto.
Qed.

Lemma has_name_prune (names : list string) (dead : nat → bool) (n : node) :
  has_name names (prune dead n) = has_name names n.
Proof. destruct n; reflexivity. Qed.

(** What stays after pruning is the pruned form of a node that was not
    dead. *)
Lemma descendants_prune (dead : nat → bool) (t n : node) :
  n ∈ descendants (prune dead t) →
  ∃ n0, n0 ∈ descendants t ∧ dead (oid n0) = false ∧ n = prune dead n0.
Proof.
  revert n. induction t as [j s | j nm cl a ch IH] using node_ind'; intros n Hn.
  - inversion Hn.
  - apply in_descendants in Hn as (k & Hk & Hn). simpl in Hk.
    apply elem_of_flat_map in Hk as (c & Hc & Hk).
    destruct (dead (oid c)) eqn:Ec; [inversion Hk|].
    apply list_elem_of_singleton in Hk. subst k.
    rewrite subtree_eq in Hn. apply elem_of_cons in Hn as [-> | Hn].
    + exists c. repeat split; auto.
      apply in_descendants. exists c. split; [exact Hc | apply in_subtree_self].
    + rewrite Forall_forall in IH.
      destruct (IH c Hc n Hn) as (n0 & Hn0 & Hd & ->).
      exists n0. repeat split; auto.
      apply in_descendants. exists c. split; [exact Hc|].
      rewrite subtree_eq. right. exact Hn0.
Qed.

Lemma in_find_all (names : list string) (t e : node) :
  e ∈ find_all names t ↔ e ∈ descendants t ∧ has_name names e = true.
Proof. unfold find_all. rewrite list_elem_of_filter. tauto. Qed.

(** After the removal loop neither a removed element nor any node of
    its subtree is in the tree, and no element with such a tag is left. *)
Lemma removal_loop_leaves_no_trace
    (cfg : ConversionConfig) (s : soup) (e d : node) :
  NoDup (oids (root s)) →
  e ∈ descendants (root s) →
  has_name (remove_elements cfg) e = true →
  d ∈ subtree e →
  (oid d ∉ oids (root (remove_unwanted cfg s)))
  ∧ ∀ n, n ∈ descendants (root (remove_unwanted cfg s)) →
         has_name (remove_elements cfg) n = false.
Proof.
  intros HN He Hname Hd. unfold remove_unwanted. simpl.
  rewrite fold_remove_prune. split.
  - eapply prune_removes; eauto.
    apply bool_decide_eq_true_2, list_elem_of_fmap.
    exists e. split; [reflexivity|]. apply in_find_all. auto.
  - intros n Hn. apply descendants_prune in Hn as (n0 & Hn0 & Hdead & ->).
    rewrite has_name_prune.
    destruct (has_name (remove_elements cfg) n0) eqn:E; [|reflexivity].
    apply bool_decide_eq_false_1 in Hdead. exfalso. apply Hdead.
    apply list_elem_of_fmap. exists n0. split; [reflexivity|].
    apply in_find_all. auto.
Qed.

(** ** Rewriting of relative references *)

Lemma NoDup_map_filter {A B : Type} (f : A → B) (P : A → Prop)
    `{∀ x, Decision (P x)} (l : list A) :
  NoDup (map f l) → NoDup (map f (filter P l)).
Proof.
  induction l as [|x l IH]; simpl; intros HN; [constructor|].
  apply NoDup_cons in HN as [Hx HN].
  rewrite filter_cons. destruct (decide (P x)); simpl; auto.
  apply NoDup_cons. split; auto.
  intros Hin. apply Hx.
  apply list_elem_of_fmap in Hin as (y & -> & Hy).
  apply list_elem_of_filter in Hy as [_ Hy].
  apply list_elem_of_fmap. eauto.
Qed.

Lemma NoDup_find_all (names : list string) (t : node) :
  NoDup (oids t) → NoDup (map oid (find_all names t)).
Proof.
  unfold oids. rewrite subtree_eq. simpl. intros HN.
  apply NoDup_cons in HN as [_ HN].
  unfold find_all. apply NoDup_map_filter. exact HN.
Qed.

(** In a tree of distinct objects, the identity determines the node. *)
Lemma oid_inj (t n m : node) :
  NoDup (oids t) → n ∈ subtree t → m ∈ subtree t → oid n = oid m → n = m.
Proof.
  revert n m. induction t as [j s | j nm cl a ch IH] using node_ind';
    intros n m HN Hn Hm E.
  - simpl in Hn, Hm. apply list_elem_of_singleton in Hn, Hm. congruence.
  - apply NoDup_oids_children in HN as [Hj HN]. simpl in Hj, HN.
    rewrite subtree_eq in Hn, Hm.
    assert (Hbelow : ∀ k, k ∈ descendants (Elem j nm cl a ch) → oid k ≠ j).
    { intros k Hk Ek. apply Hj. rewrite <- Ek.
      apply in_descendants in Hk as (c & Hc & Hk).
      apply elem_of_flat_map. exists c. split; [exact Hc | apply in_oids, Hk]. }
    apply elem_of_cons in Hn as [-> | Hn];
      apply elem_of_cons in Hm as [-> | Hm]; auto.
    + exfalso. eapply Hbelow; eauto.
    + exfalso. eapply Hbelow; eauto.
    + apply in_descendants in Hn as (c & Hc & Hn).
      apply in_descendants in Hm as (c' & Hc' & Hm). simpl in Hc, Hc'.
      assert (c = c').
      { eapply same_child; eauto using in_oids.
        rewrite E. apply in_oids. exact Hm. }
      subst c'. rewrite Forall_forall in IH.
      apply (IH c Hc n m); auto. eapply NoDup_flat_map_child; eauto.
Qed.

Lemma local_oid (f : node → node) (n : node) :
  local_mutation f → oid (f n) = oid n.
Proof. intros [g Hg]. rewrite Hg. destruct n; reflexivity. Qed.

Lemma local_children (f : node → node) (n : node) :
  local_mutation f → children (f n) = children n.
Proof. intros [g Hg]. rewrite Hg. destruct n; reflexivity. Qed.

Lemma oid_map_where (sel : nat → bool) (f : node → node) (n : node) :
  oid (map_where sel f n) = oid n.
Proof. destruct n; reflexivity. Qed.

Lemma map_where_local (sel : nat → bool) (f : node → node) (n : node) :
  local_mutation f → map_where sel f (f n) = f (map_where sel f n).
Proof.
  intros [g Hg]. destruct n as [j s | j nm cl a ch].
  - simpl. rewrite !Hg. reflexivity.
  - rewrite (Hg (Elem j nm cl a ch)). simpl. rewrite Hg. reflexivity.
Qed.

Lemma modify_oid_map_where (i : nat) (f : node → node) (n : node) :
  modify_oid i f n = map_where (fun j => bool_decide (j = i)) f n.
Proof.
  induction n as [j s | j nm cl a ch IH] using node_ind'; simpl; [reflexivity|].
  f_equal. induction IH as [|c ch Hc _ IHch]; simpl; [reflexivity|].
  f_equal; [|exact IHch]. rewrite Hc.
  case_bool_decide; destruct (decide (oid c = i)); try contradiction;
    reflexivity.
Qed.

Lemma map_where_ext (p q : nat → bool) (f : node → node) (n : node) :
  (∀ j, p j = q j) → map_where p f n = map_where q f n.
Proof.
  intros E.
  induction n as [j s | j nm cl a ch IH] using node_ind'; simpl; [reflexivity|].
  f_equal. induction IH as [|c ch Hc _ IHch]; simpl; [reflexivity|].
  rewrite E, Hc, IHch. reflexivity.
Qed.

Lemma map_where_none (f : node → node) (n : node) :
  map_where (fun _ => false) f n = n.
Proof.
  induction n as [j s | j nm cl a ch IH] using node_ind'; simpl; [reflexivity|].
  f_equal. induction IH as [|c ch Hc _ IHch]; simpl; [reflexivity|].
  rewrite Hc, IHch. reflexivity.
Qed.

Lemma map_where_map_where (p q : nat → bool) (f : node → node) (n : node) :
  local_mutation f → (∀ j, q j = true → p j = false) →
  map_where p f (map_where q f n) = map_where (fun j => q j || p j) f n.
Proof.
  intros Hf Hpq.
  induction n as [j s | j nm cl a ch IH] using node_ind'; simpl; [reflexivity|].
  f_equal. rewrite map_map.
  induction IH as [|c ch Hc _ IHch]; simpl; [reflexivity|].
  f_equal; [|exact IHch].
  destruct (q (oid c)) eqn:Eq; simpl.
  - rewrite local_oid, oid_map_where, (Hpq _ Eq) by exact Hf.
    rewrite map_where_local, Hc by exact Hf. reflexivity.
  - rewrite oid_map_where, Hc. reflexivity.
Qed.

(** The loop of in-place mutations is one pass. *)
Lemma fold_modify_map_where (f : node → node) (l : list node) (t : node) :
  local_mutation f → NoDup (map oid l) →
  fold_left (fun t tag => modify_oid (oid tag) f t) l t
  = map_where (fun j => bool_decide (j ∈ map oid l)) f t.
Proof.
  intros Hf.
  assert (G : ∀ (l : list node) (q : nat → bool) (t : node),
    NoDup (map oid l) → (∀ j, q j = true → j ∉ map oid l) →
    fold_left (fun t tag => modify_oid (oid tag) f t) l (map_where q f t)
    = map_where (fun j => q j || bool_decide (j ∈ map oid l)) f t).
  { clear l t. induction l as [|e l IH]; simpl; intros q t HN Hq.
    - apply map_where_ext. intros j. rewrite orb_false_r. reflexivity.
    - apply NoDup_cons in HN as [He HN].
      rewrite modify_oid_map_where, map_where_map_where; [|exact Hf|].
      + rewrite IH; [|exact HN|].
        * apply map_where_ext. intros j. rewrite <- orb_assoc. f_equal.
          rewrite <- bool_decide_or. apply bool_decide_ext.
          rewrite elem_of_cons. tauto.
        * intros j Hj. apply orb_true_iff in Hj as [Hj | Hj].
          -- intros Hin. apply (Hq j Hj). right. exact Hin.
          -- apply bool_decide_eq_true_1 in Hj. subst j. exact He.
      + intros j Hj. apply bool_decide_eq_false_2. intros ->.
        apply (Hq _ Hj). left. }
  intros HN. rewrite <- (map_where_none f t) at 1.
  rewrite G; [reflexivity | exact HN | discriminate].
Qed.

Lemma at_path_local (f : node → node) (n : node) (p : list nat) :
  local_mutation f → p ≠ [] → at_path (f n) p = at_path n p.
Proof.
  intros Hf Hp. destruct p as [|i p]; [contradiction|].
  simpl. rewrite local_children by exact Hf. reflexivity.
Qed.

Lemma at_path_map_where (sel : nat → bool) (f : node → node)
    (t n : node) (p : list nat) :
  local_mutation f → at_path t p = Some n → p ≠ [] →
  at_path (map_where sel f t) p
  = Some (if sel (oid n) then f (map_where sel f n) else map_where sel f n).
Proof.
  intros Hf. revert t. induction p as [|i p IH]; intros t Hn Hp;
    [contradiction|].
  simpl in Hn. destruct (children t !! i) as [c|] eqn:Ec; [|discriminate].
  destruct t as [j s | j nm cl a ch]; simpl in Ec; [discriminate|].
  simpl. rewrite list_lookup_fmap, Ec. simpl.
  destruct p as [|i' p].
  - simpl in Hn. inversion Hn; subst. reflexivity.
  - specialize (IH c Hn ltac:(discriminate)).
    destruct (sel (oid c)); [rewrite at_path_local by (auto; discriminate)|];
      exact IH.
Qed.

Lemma at_path_descendants (t n : node) (p : list nat) :
  at_path t p = Some n → p ≠ [] → n ∈ descendants t.
Proof.
  destruct p as [|i p]; [contradiction|]. simpl. intros H _.
  destruct (children t !! i) as [c|] eqn:E; [|discriminate].
  apply in_descendants. exists c.
  split; [eapply list_elem_of_lookup_2; eauto | eapply at_path_subtree; eauto].
Qed.

(** Under distinct identities, [find_all] is found again by identity. *)
Lemma found_by_oid (names : list string) (t n : node) :
  NoDup (oids t) → n ∈ descendants t →
  bool_decide (oid n ∈ map oid (find_all names t)) = has_name names n.
Proof.
  intros HN Hn. destruct (has_name names n) eqn:E.
  - apply bool_decide_eq_true_2. apply list_elem_of_fmap. exists n.
    split; [reflexivity | apply in_find_all; auto].
  - apply bool_decide_eq_false_2. intros Hin.
    apply list_elem_of_fmap in Hin as (e & Eo & He).
    apply in_find_all in He as [He Hname].
    assert (n = e).
    { apply (oid_inj t); auto; rewrite subtree_eq; right; assumption. }
    congruence.
Qed.

Lemma rewrite_tag_local (base_url : string) :
  local_mutation (rewrite_tag base_url).
Proof.
  exists (fun nm a =>
    if bool_decide (nm = "a") && bool_decide (is_Some (a !! "href"))
    then rewrite_attr "href" base_url a
    else if bool_decide (nm = "img") && bool_decide (is_Some (a !! "src"))
    then rewrite_attr "src" base_url a
    else a).
  intros [j s | j nm cl a ch]; simpl; [reflexivity|].
  repeat (destruct (_ && _); try reflexivity).
Qed.

Lemma rstrip_suffix (c : ascii) (s : string) :
  ∃ t, s = String.append (rstrip c s) t ∧ forallb_string (is_char c) t = true.
Proof.
  induction s as [|a r IH]; [exists EmptyString; auto|].
  destruct IH as (t & Hr & Ht). simpl.
  destruct (rstrip c r) as [|b r'] eqn:E.
  - change (r = t) in Hr. subst t.
    destruct (Ascii.eqb_spec a c) as [->|].
    + exists (String c r). split; [reflexivity|].
      simpl. unfold is_char at 1. rewrite Ascii.eqb_refl. exact Ht.
    + exists r. split; [reflexivity | exact Ht].
  - exists t. split; [|exact Ht].
    change (String a r = String a (String.append (String b r') t)).
    rewrite <- Hr. reflexivity.
Qed.

Lemma rstrip_no_trailing (c : ascii) (s x : string) :
  rstrip c s ≠ String.append x (String c EmptyString).
Proof.
  revert x. induction s as [|a r IH]; intros x; simpl.
  - destruct x; discriminate.
  - destruct (rstrip c r) as [|b r'] eqn:E.
    + destruct (Ascii.eqb_spec a c) as [->|Hac]; [destruct x; discriminate|].
      destruct x as [|y x]; intros H.
      * change (String a EmptyString = String c EmptyString) in H. congruence.
      * change (String a EmptyString
                = String y (String.append x (String c EmptyString))) in H.
        injection H as _ H. destruct x; discriminate H.
    + destruct x as [|y x]; intros H.
      * change (String a (String b r') = String c EmptyString) in H.
        discriminate H.
      * change (String a (String b r')
                = String y (String.append x (String c EmptyString))) in H.
        injection H as _ H. apply (IH x). exact H.
Qed.

Lemma lstrip_prefix (c : ascii) (s : string) :
  ∃ t, s = String.append t (lstrip c s) ∧ forallb_string (is_char c) t = true.
Proof.
  induction s as [|a r IH]; [exists EmptyString; auto|].
  simpl. destruct (Ascii.eqb_spec a c) as [->|].
  - destruct IH as (t & Hr & Ht). exists (String c t). split.
    + change (String c r = String c (String.append t (lstrip c r))).
      rewrite <- Hr. reflexivity.
    + simpl. unfold is_char at 1. rewrite Ascii.eqb_refl. exact Ht.
  - exists EmptyString. auto.
Qed.

Lemma lstrip_no_leading (c : ascii) (s : string) :
  startswith (lstrip c s) (String c EmptyString) = false.
Proof.
  induction s as [|a r IH]; [reflexivity|]. simpl.
  destruct (Ascii.eqb_spec a c) as [->|Hac]; [exact IH|].
  unfold startswith. simpl.
  destruct (ascii_dec c a); [congruence | reflexivity].
Qed.

Lemma lstrip_not_slash (c : ascii) (s x : string) : lstrip c s ≠ String c x.
Proof.
  induction s as [|a r IH]; [discriminate|]. cbn [lstrip].
  destruct (Ascii.eqb_spec a c) as [->|Hac]; [exact IH | congruence].
Qed.

Lemma absolutize_joined (base_url v : string) :
  startswith v "http://" || startswith v "https://" = false →
  joined_by_one_slash base_url v (absolutize base_url v).
Proof.
  intros Hrel. unfold absolutize. rewrite Hrel.
  destruct (rstrip_suffix slash base_url) as (sb & Hb & Hsb).
  destruct (lstrip_prefix slash v) as (sr & Hr & Hsr).
  exists (rstrip slash base_url), (lstrip slash v), sb, sr.
  repeat split; auto.
  - apply rstrip_no_trailing.
  - apply lstrip_not_slash.
Qed.

(** The parts named by [joined_by_one_slash] are determined by the base
    and the reference. *)
Lemma all_slashes_rstrip (c : ascii) (t : string) :
  forallb_string (is_char c) t = true → rstrip c t = EmptyString.
Proof.
  induction t as [|a t IH]; [reflexivity|]. intros H.
  change (is_char c a && forallb_string (is_char c) t = true) in H.
  apply andb_true_iff in H as [Ha Ht]. cbn [rstrip].
  rewrite (IH Ht). unfold is_char in Ha. rewrite Ha. reflexivity.
Qed.

Lemma rstrip_append_slashes (c : ascii) (b t : string) :
  forallb_string (is_char c) t = true →
  (∀ x, b ≠ String.append x (String c EmptyString)) →
  rstrip c (String.append b t) = b.
Proof.
  intros Ht. induction b as [|a b IH]; intros Hb.
  - apply all_slashes_rstrip, Ht.
  - change (rstrip c (String a (String.append b t)) = String a b).
    cbn [rstrip]. rewrite IH.
    + destruct b as [|a' b]; [|reflexivity].
      destruct (Ascii.eqb_spec a c) as [->|]; [|reflexivity].
      exfalso. apply (Hb EmptyString). reflexivity.
    + intros x E. apply (Hb (String a x)). rewrite E. reflexivity.
Qed.

Lemma lstrip_append_slashes (c : ascii) (t r : string) :
  forallb_string (is_char c) t = true → (∀ x, r ≠ String c x) →
  lstrip c (String.append t r) = r.
Proof.
  intros Ht Hr. induction t as [|a t IH].
  - change (lstrip c r = r). destruct r as [|a r]; [reflexivity|].
    cbn [lstrip]. destruct (Ascii.eqb_spec a c) as [->|]; [|reflexivity].
    exfalso. eapply Hr. reflexivity.
  - change (is_char c a && forallb_string (is_char c) t = true) in Ht.
    apply andb_true_iff in Ht as [Ha Ht].
    change (lstrip c (String a (String.append t r)) = r). cbn [lstrip].
    unfold is_char in Ha. rewrite Ha. exact (IH Ht).
Qed.

Lemma joined_by_one_slash_unique (base ref v v' : string) :
  joined_by_one_slash base ref v → joined_by_one_slash base ref v' → v = v'.
Proof.
  intros (b & r & sb & sr & -> & Eb & Er & Hsb & Hsr & Hb & Hr)
         (b' & r' & sb' & sr' & -> & Eb' & Er' & Hsb' & Hsr' & Hb' & Hr').
  assert (b = b') as <-.
  { rewrite <- (rstrip_append_slashes slash b sb Hsb Hb).
    rewrite <- (rstrip_append_slashes slash b' sb' Hsb' Hb').
    congruence. }
  assert (r = r') as <-.
  { rewrite <- (lstrip_append_slashes slash sr r Hsr Hr).
    rewrite <- (lstrip_append_slashes slash sr' r' Hsr' Hr').
    congruence. }
  reflexivity.
Qed.

(** C2: an anchor with an [href], or an image with a [src], whose value
    does not start with [http://] or [https://] gets the base URL without
    its trailing slashes, one slash, and the value without its leading
    slashes; a value with one of these prefixes stays as it is. *)
Theorem relative_references_made_absolute
    (s : soup) (base_url : string) (p : list nat) (i : nat) (nm key : string)
    (cl : option (list string)) (a : gmap string string) (ch : list node)
    (v : string) :
  NoDup (oids (root s)) →
  at_path (root s) p = Some (Elem i nm cl a ch) → p ≠ [] →
  (nm = "a" ∧ key = "href") ∨ (nm = "img" ∧ key = "src") →
  a !! key = Some v →
  ∃ v' ch',
    at_path (root (_convert_relative_urls s base_url)) p
    = Some (Elem i nm cl (<[key := v']> a) ch')
    ∧ if startswith v "http://" || startswith v "https://" then v' = v
      else joined_by_one_slash base_url v v'.
Proof.
  intros HN Hp Hne Hnm Hv. exists (absolutize base_url v).
  assert (Hv' : if startswith v "http://" || startswith v "https://"
                then absolutize base_url v = v
                else joined_by_one_slash base_url v (absolutize base_url v)).
  { destruct (startswith v "http://" || startswith v "https://") eqn:E.
    - unfold absolutize. rewrite E. reflexivity.
    - apply absolutize_joined, E. }
  unfold _convert_relative_urls. simpl.
  rewrite fold_modify_map_where
    by (auto using rewrite_tag_local, NoDup_find_all).
  rewrite (at_path_map_where _ _ _ _ _ (rewrite_tag_local base_url) Hp Hne).
  rewrite found_by_oid by eauto using at_path_descendants.
  destruct Hnm as [[-> ->] | [-> ->]]; simpl; eexists.
  - rewrite bool_decide_eq_true_2 by eauto. simpl.
    unfold rewrite_attr. rewrite Hv. split; [reflexivity | exact Hv'].
  - rewrite bool_decide_eq_true_2 by eauto. simpl.
    unfold rewrite_attr. rewrite Hv. split; [reflexivity | exact Hv'].
Qed.

(** The base [https://example.com/blog//] and the reference [//post2]:
    the slashes at the seam go and the reference becomes
    [https://example.com/blog/post2]. *)
Lemma relative_references_witness :
  let s := Soup (Elem 0 "[document]" None ∅
             [Elem 1 "p" None ∅
                [Elem 2 "a" None {[ "href" := "//post2" ]} [Text 3 "next"]]]) 4 in
  ∃ ch', at_path (root (_convert_relative_urls s "https://example.com/blog//"))
                 [0; 0]
         = Some (Elem 2 "a" None
                   (<["href" := "https://example.com/blog/post2"]>
                      {[ "href" := "//post2" ]}) ch').
Proof.
  intros s.
  destruct (relative_references_made_absolute s "https://example.com/blog//"
              [0; 0] 2 "a" "href" None {[ "href" := "//post2" ]}
              [Text 3 "next"] "//post2") as (v' & ch' & Hat & Hv').
  - vm_compute. apply (bool_decide_unpack (NoDup _)). vm_compute. exact I.
  - reflexivity.
  - discriminate.
  - left. split; reflexivity.
  - reflexivity.
  - change (joined_by_one_slash "https://example.com/blog//" "//post2" v')
      in Hv'.
    assert (v' = "https://example.com/blog/post2") as ->.
    { apply (joined_by_one_slash_unique _ _ _ _ Hv').
      exists "https://example.com/blog", "post2", "//", "//".
      repeat split; try reflexivity.
      - intros x. exact (rstrip_no_trailing slash "https://example.com/blog" x).
      - discriminate. }
    exists ch'. exact Hat.
Defined.

(** ** Code-block normalization *)

Lemma for_each_edits (cfg : ConversionConfig) (l : list node) (t : node)
    (c : nat) :
  for_each (process_pre cfg) l (Soup t c)
  = (es ← edits cfg l c;
     Ok (Soup (fold_left (fun t e => replace_oid (fst e) (snd e) t) es t)
              (2 * length es + c))).
Proof.
  revert t c. induction l as [|pre l IH]; intros t c; simpl; [reflexivity|].
  unfold process_pre. destruct (find "code" pre) as [code|]; simpl.
  - destruct (language_of cfg code) as [lang|e]; simpl; [|reflexivity].
    rewrite IH. destruct (edits cfg l (S (S c))) as [es|e]; simpl;
      [|reflexivity].
    do 2 f_equal. lia.
  - apply IH.
Qed.

Lemma oid_replace_where (r : nat → option node) (n : node) :
  oid (replace_where r n) = oid n.
Proof. destruct n; reflexivity. Qed.

Lemma replace_where_ext (r r' : nat → option node) (n : node) :
  (∀ j, r j = r' j) → replace_where r n = replace_where r' n.
Proof.
  intros E.
  induction n as [j s | j nm cl a ch IH] using node_ind'; simpl; [reflexivity|].
  f_equal. induction IH as [|c ch Hc _ IHch]; simpl; [reflexivity|].
  rewrite E, Hc, IHch. reflexivity.
Qed.

(** Where no descendant has an entry, nothing changes. *)
Lemma replace_where_id (r : nat → option node) (n : node) :
  (∀ d, d ∈ descendants n → r (oid d) = None) → replace_where r n = n.
Proof.
  induction n as [j s | j nm cl a ch IH] using node_ind'; intros H;
    simpl; [reflexivity|].
  f_equal.
  assert (Hch : ∀ c, c ∈ ch → r (oid c) = None ∧
                 ∀ d, d ∈ descendants c → r (oid d) = None).
  { intros c Hc. split.
    - apply H, in_descendants. exists c. split; [exact Hc|].
      apply in_subtree_self.
    - intros d Hd. apply H, in_descendants. exists c. split; [exact Hc|].
      rewrite subtree_eq. right. exact Hd. }
  clear H. induction IH as [|c ch Hc _ IHch]; simpl; [reflexivity|].
  destruct (Hch c ltac:(left)) as [-> Hd]. rewrite (Hc Hd). f_equal.
  apply IHch. intros c' Hc'. apply Hch. right. exact Hc'.
Qed.

Lemma replace_oid_replace_where (i : nat) (new n : node) :
  replace_oid i new n
  = replace_where (fun j => if decide (j = i) then Some new else None) n.
Proof.
  induction n as [j s | j nm cl a ch IH] using node_ind'; simpl; [reflexivity|].
  f_equal. induction IH as [|c ch Hc _ IHch]; simpl; [reflexivity|].
  rewrite Hc, IHch. destruct (decide (oid c = i)); reflexivity.
Qed.

Lemma replace_oid_fresh (i : nat) (new n : node) :
  i ∉ oids n → replace_oid i new n = n.
Proof.
  intros H. rewrite replace_oid_replace_where. apply replace_where_id.
  intros d Hd. destruct (decide (oid d = i)) as [E|E]; [|reflexivity].
  exfalso. apply H. rewrite <- E. apply in_oids. rewrite subtree_eq.
  right. exact Hd.
Qed.

(** One more replacement, after those of [r]. *)
Lemma replace_oid_after (r : nat → option node) (i : nat) (new t : node) :
  (∀ j n, r j = Some n → i ∉ oids n) →
  replace_oid i new (replace_where r t)
  = replace_where (fun j => match r j with
                            | Some n => Some n
                            | None => if decide (j = i) then Some new else None
                            end) t.
Proof.
  intros Hr.
  induction t as [j s | j nm cl a ch IH] using node_ind'; simpl; [reflexivity|].
  f_equal. rewrite map_map.
  induction IH as [|c ch Hc _ IHch]; simpl; [reflexivity|].
  f_equal; [|exact IHch].
  destruct (r (oid c)) as [n|] eqn:E.
  - assert (Hi := Hr _ _ E).
    destruct (decide (oid n = i)) as [En|En].
    + exfalso. apply Hi. rewrite <- En. apply in_oids, in_subtree_self.
    + apply replace_oid_fresh. exact Hi.
  - rewrite oid_replace_where. destruct (decide (oid c = i)); auto.
Qed.

Lemma edit_for_cons (i j : nat) (new : node) (es : list (nat * node)) :
  edit_for ((i, new) :: es) j
  = if decide (j = i) then Some new else edit_for es j.
Proof.
  unfold edit_for. simpl. destruct (Nat.eqb_spec i j) as [E|E];
    destruct (decide (j = i)); try congruence; reflexivity.
Qed.

(** The loop of replacements is one pass, when the new nodes are new. *)
Lemma fold_replace_where (es : list (nat * node)) (t : node) :
  Forall (fun e => ∀ k, k ∈ oids (snd e) → k ∉ map fst es) es →
  fold_left (fun t e => replace_oid (fst e) (snd e) t) es t
  = replace_where (edit_for es) t.
Proof.
  assert (G : ∀ (es : list (nat * node)) (r : nat → option node) (t : node),
    (∀ j n, r j = Some n → ∀ k, k ∈ oids n → k ∉ map fst es) →
    Forall (fun e => ∀ k, k ∈ oids (snd e) → k ∉ map fst es) es →
    fold_left (fun t e => replace_oid (fst e) (snd e) t) es (replace_where r t)
    = replace_where (fun j => match r j with
                              | Some n => Some n
                              | None => edit_for es j
                              end) t).
  { clear. induction es as [|[i new] es IH]; intros r t Hr Hes; simpl.
    - apply replace_where_ext. intros j. destruct (r j); reflexivity.
    - apply Forall_cons in Hes as [Hnew Hes]. simpl in Hnew.
      rewrite replace_oid_after.
      + rewrite IH.
        * apply replace_where_ext. intros j. rewrite edit_for_cons.
          destruct (r j); [reflexivity|].
          destruct (decide (j = i)); reflexivity.
        * intros j n Hj k Hk Hin. destruct (r j) as [n'|] eqn:E.
          -- inversion Hj; subst n'. apply (Hr _ _ E k Hk). right. exact Hin.
          -- destruct (decide (j = i)); [|discriminate].
             inversion Hj; subst n. apply (Hnew k Hk). right. exact Hin.
        * eapply Forall_impl; [exact Hes|]. simpl.
          intros e He k Hk Hin. apply (He k Hk). right. exact Hin.
      + intros j n Hj Hin. apply (Hr _ _ Hj i Hin). left. }
  intros Hes.
  rewrite <- (replace_where_id (fun _ => None) t) at 1 by reflexivity.
  rewrite G; [reflexivity | discriminate | exact Hes].
Qed.

Lemma edits_sound (cfg : ConversionConfig) (l : list node) (c : nat)
    (es : list (nat * node)) :
  edits cfg l c = Ok es →
  Forall (fun e => ∃ pre code lang k,
            pre ∈ l ∧ oid pre = fst e ∧ find "code" pre = Some code
            ∧ language_of cfg code = Ok lang ∧ c ≤ k
            ∧ snd e = new_pre k (fenced lang (get_text code))) es.
Proof.
  revert c es. induction l as [|pre l IH]; intros c es; simpl.
  - intros [= <-]. constructor.
  - destruct (find "code" pre) as [code|] eqn:Ecode.
    + destruct (language_of cfg code) as [lang|] eqn:El; simpl; [|discriminate].
      destruct (edits cfg l (S (S c))) as [rest|] eqn:Er; simpl; [|discriminate].
      intros [= <-]. constructor.
      * exists pre, code, lang, c. simpl. repeat split; auto. left.
      * eapply Forall_impl; [apply (IH _ _ Er)|]. simpl.
        intros e (pre' & code' & lang' & k & H1 & H2 & H3 & H4 & H5 & H6).
        exists pre', code', lang', k. repeat split; auto; [right; auto | lia].
    + intros H. eapply Forall_impl; [apply (IH _ _ H)|]. simpl.
      intros e (pre' & code' & lang' & k & H1 & H2 & H3 & H4 & H5 & H6).
      exists pre', code', lang', k. repeat split; auto. right; auto.
Qed.

Lemma edits_complete (cfg : ConversionConfig) (l : list node) (c : nat)
    (es : list (nat * node)) (pre : node) :
  edits cfg l c = Ok es → pre ∈ l → is_Some (find "code" pre) →
  oid pre ∈ map fst es.
Proof.
  revert c es. induction l as [|pre0 l IH]; intros c es; simpl.
  - intros _ H. inversion H.
  - intros He Hin Hcode. destruct (find "code" pre0) as [code|] eqn:Ecode.
    + destruct (language_of cfg code) as [lang|]; simpl in He; [|discriminate].
      destruct (edits cfg l (S (S c))) as [rest|] eqn:Er; simpl in He;
        [|discriminate].
      injection He as <-. simpl.
      apply elem_of_cons in Hin as [-> | Hin]; [left | right; eauto].
    + apply elem_of_cons in Hin as [-> | Hin]; [|eauto].
      rewrite Ecode in Hcode. destruct Hcode as [? [=]].
Qed.

Lemma edit_for_Some (es : list (nat * node)) (j : nat) (n : node) :
  edit_for es j = Some n → (j, n) ∈ es.
Proof.
  induction es as [|[i new] es IH]; [discriminate|].
  rewrite edit_for_cons. destruct (decide (j = i)) as [->|].
  - intros [= ->]. left.
  - intros H. right. auto.
Qed.

Lemma edit_for_is_Some (es : list (nat * node)) (j : nat) :
  j ∈ map fst es → is_Some (edit_for es j).
Proof.
  induction es as [|[i new] es IH]; simpl; intros H; [inversion H|].
  rewrite edit_for_cons. destruct (decide (j = i)); [eauto|].
  apply elem_of_cons in H as [? | H]; [contradiction | auto].
Qed.

Lemma oids_new_pre (k : nat) (s : string) : oids (new_pre k s) = [k; S k].
Proof. reflexivity. Qed.

(** The loop of [_process_code_blocks] as one pass. *)
Lemma process_code_blocks_pass (cfg : ConversionConfig) (s s' : soup) :
  wf_soup s → _process_code_blocks cfg s = Ok s' →
  ∃ es, edits cfg (find_all ["pre"] (root s)) (next_oid s) = Ok es
        ∧ root s' = replace_where (edit_for es) (root s).
Proof.
  intros [HN Hlt]. destruct s as [t c]. unfold _process_code_blocks. simpl in *.
  rewrite for_each_edits.
  destruct (edits cfg (find_all ["pre"] t) c) as [es|] eqn:Ees; simpl;
    [|discriminate].
  intros [= <-]. exists es. split; [reflexivity|]. simpl.
  apply fold_replace_where.
  assert (Hkeys : ∀ j, j ∈ map fst es → j < c).
  { intros j Hj. apply list_elem_of_fmap in Hj as ([j' n] & -> & Hj).
    apply edits_sound in Ees. rewrite Forall_forall in Ees.
    destruct (Ees _ Hj) as (pre & _ & _ & _ & Hpre & Ho & _). simpl in *.
    subst j'. rewrite Forall_forall in Hlt. apply Hlt.
    apply in_find_all in Hpre as [Hpre _]. apply in_oids.
    rewrite subtree_eq. right. exact Hpre. }
  assert (Hs := edits_sound _ _ _ _ Ees).
  eapply Forall_impl; [exact Hs|]. simpl.
  intros e (pre & code & lang & k & _ & _ & _ & _ & Hk & ->) j Hj Hin.
  rewrite oids_new_pre in Hj. apply Hkeys in Hin.
  apply elem_of_cons in Hj as [-> | Hj]; [lia|].
  apply list_elem_of_singleton in Hj. lia.
Qed.

Lemma at_path_replace_where (r : nat → option node) (t n : node)
    (p : list nat) :
  at_path t p = Some n → p ≠ [] →
  Forall (fun a => r (oid a) = None) (inner_nodes t p) →
  at_path (replace_where r t) p
  = Some (match r (oid n) with
          | Some new => new
          | None => replace_where r n
          end).
Proof.
  revert t. induction p as [|i p IH]; intros t Hn Hp Hin; [contradiction|].
  simpl in Hn, Hin. destruct (children t !! i) as [c|] eqn:Ec; [|discriminate].
  destruct t as [j s | j nm cl a ch]; simpl in Ec; [discriminate|].
  simpl. rewrite list_lookup_fmap, Ec. simpl.
  destruct p as [|i' p].
  - simpl in Hn. inversion Hn; subst. reflexivity.
  - apply Forall_cons in Hin as [Hc Hin]. rewrite Hc.
    apply IH; auto.
Qed.

(** *** The loop returns when every prefix holds a hyphen *)

Lemma split_nonempty (c : ascii) (s : string) : split c s ≠ [].
Proof.
  destruct s as [|a r]; simpl; [discriminate|].
  destruct (Ascii.eqb a c); [discriminate|].
  destruct (split c r); discriminate.
Qed.

Lemma split_has_hyphen (s : string) :
  has_hyphen s = true → is_Some (split hyphen s !! 1).
Proof.
  induction s as [|a r IH]; simpl; [discriminate|].
  destruct (Ascii.eqb a hyphen); simpl.
  - intros _. destruct (split hyphen r) eqn:E; [|eauto].
    exfalso. eapply split_nonempty; eauto.
  - intros H. destruct (IH H) as [x Hx].
    destruct (split hyphen r) as [|h [|h' t]]; try discriminate. eauto.
Qed.

Lemma prefix_has_hyphen (p s : string) :
  String.prefix p s = true → has_hyphen p = true → has_hyphen s = true.
Proof.
  revert s. induction p as [|a p IH]; intros s Hp Hh; [discriminate Hh|].
  destruct s as [|b s]; [discriminate Hp|]. simpl in Hp, Hh.
  destruct (ascii_dec a b) as [->|]; [|discriminate Hp]. simpl.
  apply orb_true_iff in Hh as [Hh | Hh].
  - rewrite Hh. reflexivity.
  - rewrite (IH _ Hp Hh). apply orb_true_r.
Qed.

Lemma scan_classes_total (prefixes cls : list string) :
  Forall (fun p => has_hyphen p = true) prefixes →
  ∃ l, scan_classes prefixes cls = Ok l.
Proof.
  intros Hp. induction cls as [|c cls IH]; simpl; [eauto|].
  destruct (existsb _ prefixes) eqn:E; [|exact IH].
  apply existsb_exists in E as (p & Hin & Hs).
  rewrite Forall_forall in Hp.
  assert (Hh : has_hyphen c = true).
  { eapply prefix_has_hyphen; [exact Hs|]. apply Hp, list_elem_of_In, Hin. }
  destruct (split_has_hyphen _ Hh) as [l ->]. eauto.
Qed.

Lemma language_of_total (cfg : ConversionConfig) (code : node) :
  Forall (fun p => has_hyphen p = true) (code_language_classes cfg) →
  ∃ l, language_of cfg code = Ok l.
Proof.
  intros Hp. destruct code as [|i nm [[|c cls]|] a ch]; simpl; eauto.
  apply (scan_classes_total _ (c :: cls) Hp).
Qed.

Lemma process_pre_total (cfg : ConversionConfig) (s : soup) (pre : node) :
  Forall (fun p => has_hyphen p = true) (code_language_classes cfg) →
  ∃ s', process_pre cfg s pre = Ok s'.
Proof.
  intros Hp. unfold process_pre. destruct (find "code" pre) as [code|]; [|eauto].
  destruct (language_of_total cfg code Hp) as [lang ->]. simpl. eauto.
Qed.

Lemma process_code_blocks_total (cfg : ConversionConfig) (s : soup) :
  Forall (fun p => has_hyphen p = true) (code_language_classes cfg) →
  ∃ s', _process_code_blocks cfg s = Ok s'.
Proof.
  intros Hp. unfold _process_code_blocks.
  generalize (find_all ["pre"] (root s)). intros l. revert s.
  induction l as [|pre l IH]; intros s; cbn [for_each]; [eauto|].
  destruct (process_pre_total cfg s pre Hp) as [s1 ->]. apply IH.
Qed.

Lemma scan_classes_none (prefixes cls : list string) :
  Forall (fun c => recognized prefixes c = false) cls →
  scan_classes prefixes cls = Ok "".
Proof.
  induction 1 as [|c cls Hc _ IH]; simpl; [reflexivity|].
  unfold recognized in Hc. rewrite Hc. exact IH.
Qed.

Lemma language_of_none (cfg : ConversionConfig) (code : node) :
  Forall (fun c => recognized (code_language_classes cfg) c = false)
         (class_list code) →
  language_of cfg code = Ok "".
Proof.
  destruct code as [|i nm [[|c cls]|] a ch]; simpl; try reflexivity.
  apply (scan_classes_none _ (c :: cls)).
Qed.

Lemma inner_nodes_descendants (t a : node) (p : list nat) :
  a ∈ inner_nodes t p → a ∈ descendants t.
Proof.
  revert t. induction p as [|i p IH]; intros t; simpl; [inversion 1|].
  destruct (children t !! i) as [c|] eqn:Ec; [|inversion 1].
  destruct p as [|i' p]; [inversion 1|].
  intros H. apply in_descendants. exists c.
  split; [eapply list_elem_of_lookup_2; eauto|].
  apply elem_of_cons in H as [-> | H]; [apply in_subtree_self|].
  rewrite subtree_eq. right. apply IH. exact H.
Qed.

(** An entry of the replacement table belongs to a code block of the
    tree, and is the fenced form of that block. *)
Lemma edit_for_code_block (cfg : ConversionConfig) (t a n : node) (c : nat)
    (es : list (nat * node)) :
  NoDup (oids t) → edits cfg (find_all ["pre"] t) c = Ok es →
  a ∈ descendants t → edit_for es (oid a) = Some n →
  is_code_block a = true
  ∧ ∃ code lang k, find "code" a = Some code
      ∧ language_of cfg code = Ok lang
      ∧ n = new_pre k (fenced lang (get_text code)).
Proof.
  intros HN Hes Ha Hn. apply edit_for_Some in Hn.
  apply edits_sound in Hes. rewrite Forall_forall in Hes.
  destruct (Hes _ Hn) as (pre & code & lang & k & Hpre & Ho & Hc & Hl & _ & E).
  simpl in Ho, E. subst n. apply in_find_all in Hpre as [Hpre Hname].
  assert (pre = a).
  { apply (oid_inj t); auto; rewrite subtree_eq; right; assumption. }
  subst pre. split; [|eauto 6].
  unfold is_code_block. rewrite Hname, Hc. reflexivity.
Qed.

Lemma edit_for_outside (cfg : ConversionConfig) (t a : node) (c : nat)
    (es : list (nat * node)) :
  NoDup (oids t) → edits cfg (find_all ["pre"] t) c = Ok es →
  a ∈ descendants t → is_code_block a = false → edit_for es (oid a) = None.
Proof.
  intros HN Hes Ha Hb. destruct (edit_for es (oid a)) as [n|] eqn:E;
    [|reflexivity].
  destruct (edit_for_code_block _ _ _ _ _ _ HN Hes Ha E) as [H _]. congruence.
Qed.

Lemma outside_blocks_no_edit (cfg : ConversionConfig) (t : node)
    (p : list nat) (c : nat) (es : list (nat * node)) :
  NoDup (oids t) → edits cfg (find_all ["pre"] t) c = Ok es →
  outside_blocks t p →
  Forall (fun a => edit_for es (oid a) = None) (inner_nodes t p).
Proof.
  intros HN Hes Hout. unfold outside_blocks in Hout.
  rewrite Forall_forall in *. intros a Ha.
  eapply edit_for_outside; eauto using inner_nodes_descendants.
Qed.

Lemma concat_strings_app (a b : list string) :
  fold_right String.append EmptyString (a ++ b)
  = String.append (fold_right String.append EmptyString a)
                  (fold_right String.append EmptyString b).
Proof.
  induction a as [|x a IH]; [reflexivity|].
  change (String.append x (fold_right String.append EmptyString (a ++ b))
          = String.append
              (String.append x (fold_right String.append EmptyString a))
              (fold_right String.append EmptyString b)).
  rewrite IH. clear IH.
  induction x as [|c x IHx]; [reflexivity|].
  change (String c (String.append x
            (String.append (fold_right String.append EmptyString a)
                           (fold_right String.append EmptyString b)))
          = String c (String.append
              (String.append x (fold_right String.append EmptyString a))
              (fold_right String.append EmptyString b))).
  rewrite IHx. reflexivity.
Qed.

Lemma append_empty_r (s : string) : String.append s EmptyString = s.
Proof.
  induction s as [|c s IH]; [reflexivity|].
  change (String c (String.append s EmptyString) = String c s).
  rewrite IH. reflexivity.
Qed.

(** [get_text] gives the raw text. *)
Lemma get_text_raw_text (n : node) : get_text n = raw_text n.
Proof.
  induction n as [i s | i nm cl a ch IH] using node_ind'.
  - unfold raw_text. cbn [subtree strings_of omap mbind option_bind app
                          fold_right get_text].
    symmetry. apply append_empty_r.
  - unfold raw_text. cbn [subtree get_text].
    change (strings_of (Elem i nm cl a ch :: flat_map subtree ch))
      with (strings_of (flat_map subtree ch)).
    induction IH as [|c ch Hc _ IHch]; [reflexivity|].
    cbn [fold_right flat_map]. unfold strings_of at 1.
    rewrite omap_app. fold (strings_of (subtree c)).
    fold (strings_of (flat_map subtree ch)).
    rewrite concat_strings_app, <- IHch, Hc. reflexivity.
Qed.

(** C5, as the code has it: a [pre] element with a [code] element below
    it, not lying inside another such block, is replaced by one [pre]
    node holding one string: three backticks and the language tag, a
    newline, the raw text of the code element, a newline and three
    backticks.  The tag is empty when no class starts with a recognized
    prefix.  The normalization returns whenever every configured prefix
    holds a hyphen, as the default prefixes do. *)
Theorem code_block_becomes_fenced_pre
    (cfg : ConversionConfig) (s : soup) (p : list nat) (pre code : node) :
  wf_soup s →
  at_path (root s) p = Some pre → p ≠ [] → outside_blocks (root s) p →
  has_name ["pre"] pre = true → find "code" pre = Some code →
  (Forall (fun prefix => has_hyphen prefix = true) (code_language_classes cfg)
   → ∃ s', _process_code_blocks cfg s = Ok s')
  ∧ ∀ s', _process_code_blocks cfg s = Ok s' →
      ∃ language k,
        language_of cfg code = Ok language
        ∧ at_path (root s') p
          = Some (Elem k "pre" None ∅
                    [Text (S k)
                       (String.append "```"
                          (String.append language
                             (String.append (String "010" (raw_text code))
                                            (String "010" "```"))))])
        ∧ (Forall (fun c => recognized (code_language_classes cfg) c = false)
                  (class_list code) → language = "").
Proof.
  intros Hwf Hp Hne Hout Hname Hcode. split.
  - apply process_code_blocks_total.
  - intros s' Hs'. assert (HN := proj1 Hwf).
    destruct (process_code_blocks_pass cfg s s' Hwf Hs') as (es & Hes & ->).
    assert (Hd : pre ∈ descendants (root s))
      by eauto using at_path_descendants.
    assert (Hin : oid pre ∈ map fst es).
    { eapply edits_complete; eauto. apply in_find_all. auto. }
    destruct (edit_for_is_Some _ _ Hin) as [n Hn].
    destruct (edit_for_code_block _ _ _ _ _ _ HN Hes Hd Hn)
      as (_ & code' & lang & k & Hc' & Hl & ->).
    assert (code' = code) by congruence. subst code'.
    exists lang, k. split; [exact Hl|]. split.
    + rewrite (at_path_replace_where _ _ _ _ Hp Hne)
        by eauto using outside_blocks_no_edit.
      rewrite Hn, <- get_text_raw_text. reflexivity.
    + intros Hnone. rewrite (language_of_none _ _ Hnone) in Hl. congruence.
Qed.

(** A block with the class [lang-js] below a [div]; its [code] element
    holds strings and a [span]: the fence holds the raw text [x=1]. *)
Lemma code_block_witness :
  let code := Elem 3 "code" (Some ["lang-js"]) ∅
                [Text 4 "x"; Elem 5 "span" None ∅ [Text 6 "="]; Text 7 "1"] in
  let s := Soup (Elem 0 "[document]" None ∅
             [Elem 1 "div" None ∅ [Elem 2 "pre" None ∅ [code]]]) 8 in
  ∃ s',
    _process_code_blocks default_config s = Ok s'
    ∧ at_path (root s') [0; 0]
      = Some (Elem 8 "pre" None ∅
                [Text 9 (String.append "```js"
                           (String "010"
                              (String.append "x=1" (String "010" "```"))))]).
Proof.
  intros code s.
  destruct (code_block_becomes_fenced_pre default_config s [0; 0]
              (Elem 2 "pre" None ∅ [code]) code) as [Htotal Hfenced].
  - split.
    + vm_compute. apply (bool_decide_unpack (NoDup _)). vm_compute. exact I.
    + vm_compute. repeat constructor.
  - reflexivity.
  - discriminate.
  - repeat constructor.
  - reflexivity.
  - reflexivity.
  - destruct Htotal as [s' Hs']; [repeat constructor|].
    destruct (Hfenced s' Hs') as (language & k & Hl & Hat & _).
    exists s'. split; [exact Hs'|]. rewrite Hat.
    assert (language = "js") as -> by (vm_compute in Hl; congruence).
    assert (k = 8) as ->.
    { vm_compute in Hs'. injection Hs' as <-. vm_compute in Hat.
      injection Hat as <-. reflexivity. }
    reflexivity.
Defined.

(** C5 as stated fails for a code block inside another one: the outer
    block is replaced by the fence of its first [code] element, and the
    inner block, detached with it, is replaced nowhere.  The text [b] of
    the inner block's [code] element is not in the result. *)
Lemma nested_code_block_not_fenced :
  let inner := Elem 4 "pre" None ∅ [code_with 5 ["lang-js"] "b"] in
  let outer := Elem 1 "pre" None ∅ [code_with 2 ["plain"] "a"; inner] in
  let s := Soup (Elem 0 "[document]" None ∅ [outer]) 7 in
  let s' := Soup (Elem 0 "[document]" None ∅
              [Elem 7 "pre" None ∅
                 [Text 8 (String.append "```"
                            (String "010"
                               (String.append "a" (String "010" "```"))))]])
              11 in
  at_path (root s) [0; 1] = Some inner
  ∧ has_name ["pre"] inner = true
  ∧ find "code" inner = Some (code_with 5 ["lang-js"] "b")
  ∧ _process_code_blocks default_config s = Ok s'
  ∧ at_path (root s') [0; 1] = None.
Proof. repeat split; vm_compute; reflexivity. Qed.

Lemma label_replace_where (r : nat → option node) (n : node) :
  label (replace_where r n) = label n
  ∧ length (children (replace_where r n)) = length (children n).
Proof.
  destruct n; simpl; [auto|]. split; [reflexivity | apply length_map].
Qed.

Lemma find_none_no_block (n d : node) :
  find "code" n = None → d ∈ descendants n → is_code_block d = false.
Proof.
  intros Hn Hd. unfold is_code_block.
  destruct (find "code" d) as [code|] eqn:E;
    [|rewrite bool_decide_eq_false_2, andb_false_r;
      [reflexivity | intros [? [=]]]].
  exfalso. unfold find in *.
  assert (Hc : code ∈ find_all ["code"] d).
  { destruct (find_all ["code"] d); inversion E. left. }
  apply in_find_all in Hc as [Hc Hname].
  assert (Hc' : code ∈ find_all ["code"] n).
  { apply in_find_all. split; [|exact Hname].
    apply in_descendants in Hd as (c & Hcn & Hd).
    apply in_descendants. exists c. split; [exact Hcn|].
    eapply subtree_trans; [|exact Hd]. rewrite subtree_eq. right. exact Hc. }
  destruct (find_all ["code"] n); [inversion Hc' | discriminate].
Qed.

(** C10, as the code has it: outside the code blocks nothing changes.
    A node that is no code block and lies in none keeps its place, its
    identity, tag, classes and attributes (or string) and the number of
    its children;
    an element without [code] element below it, in particular a [pre]
    without one, stays as it is with all that lies below it. *)
Theorem normalization_leaves_the_rest
    (cfg : ConversionConfig) (s s' : soup) (p : list nat) (n : node) :
  wf_soup s → _process_code_blocks cfg s = Ok s' →
  at_path (root s) p = Some n → outside_blocks (root s) p →
  p = [] ∨ is_code_block n = false →
  ∃ n', at_path (root s') p = Some n'
        ∧ label n' = label n
        ∧ length (children n') = length (children n)
        ∧ (find "code" n = None → n' = n)
        ∧ ((∀ d, d ∈ descendants n → is_code_block d = false) → n' = n).
Proof.
  intros Hwf Hs' Hp Hout Hn. assert (HN := proj1 Hwf).
  destruct (process_code_blocks_pass cfg s s' Hwf Hs') as (es & Hes & ->).
  exists (replace_where (edit_for es) n).
  assert (Hsame : (∀ d, d ∈ descendants n → is_code_block d = false) →
                  replace_where (edit_for es) n = n).
  { intros Hd. apply replace_where_id. intros d Hdn.
    eapply edit_for_outside; eauto.
    destruct p as [|i p'].
    - simpl in Hp. inversion Hp; subst. exact Hdn.
    - assert (Hnd : n ∈ descendants (root s))
        by (eapply at_path_descendants; eauto; discriminate).
      apply in_descendants in Hnd as (c & Hc & Hnc).
      apply in_descendants. exists c. split; [exact Hc|].
      eapply subtree_trans; [|exact Hnc]. rewrite subtree_eq. right. exact Hdn. }
  repeat split.
  - destruct p as [|i p'].
    + simpl in Hp. inversion Hp; subst. reflexivity.
    + rewrite (at_path_replace_where _ _ _ _ Hp ltac:(discriminate))
        by eauto using outside_blocks_no_edit.
      destruct Hn as [Hn | Hn]; [discriminate|].
      erewrite edit_for_outside; eauto.
      eapply at_path_descendants; eauto.
  - apply label_replace_where.
  - apply label_replace_where.
  - intros Hnone. apply Hsame. intros d Hd.
    eapply find_none_no_block; eauto.
  - exact Hsame.
Qed.

(** A page with a code block and, beside it, a [pre] without [code]
    element: the latter stays. *)
Lemma normalization_frame_witness :
  let plain := Elem 4 "pre" None ∅ [Text 5 "a  b"] in
  let s := Soup (Elem 0 "[document]" None ∅
             [Elem 1 "pre" None ∅ [code_with 2 ["lang-js"] "x=1"]; plain]) 6 in
  let s' := Soup (Elem 0 "[document]" None ∅
             [new_pre 6 (fenced "js" "x=1"); plain]) 8 in
  ∃ n', at_path (root s') [1] = Some n'
        ∧ label n' = label plain
        ∧ length (children n') = length (children plain)
        ∧ (find "code" plain = None → n' = plain)
        ∧ ((∀ d, d ∈ descendants plain → is_code_block d = false)
           → n' = plain).
Proof.
  intros plain s s'.
  apply (normalization_leaves_the_rest default_config s s' [1] plain).
  - split.
    + vm_compute. apply (bool_decide_unpack (NoDup _)). vm_compute. exact I.
    + vm_compute. repeat constructor.
  - vm_compute. reflexivity.
  - reflexivity.
  - constructor.
  - right. reflexivity.
Defined.

(** C10 as stated fails inside a code block: a [pre] without [code]
    element, and a [span], lying in a [pre] that has a [code] element
    leave the tree with that block, and the string [plain] with them. *)
Lemma plain_pre_inside_block_dropped :
  let plain := Elem 5 "pre" None ∅ [Text 6 "plain"] in
  let span := Elem 3 "span" None ∅ [Text 4 "x=1"] in
  let s := Soup (Elem 0 "[document]" None ∅
             [Elem 1 "pre" None ∅ [Elem 2 "code" None ∅ [span]; plain]]) 7 in
  let s' := Soup (Elem 0 "[document]" None ∅
              [Elem 7 "pre" None ∅
                 [Text 8 (String.append "```"
                            (String "010"
                               (String.append "x=1" (String "010" "```"))))]])
              9 in
  at_path (root s) [0; 1] = Some plain
  ∧ has_name ["pre"] plain = true ∧ find "code" plain = None
  ∧ at_path (root s) [0; 0; 0] = Some span
  ∧ _process_code_blocks default_config s = Ok s'
  ∧ at_path (root s') [0; 1] = None
  ∧ at_path (root s') [0; 0; 0] = None.
Proof. repeat split; vm_compute; reflexivity. Qed.

(** ** The PostProcessor *)

Import Re PostProcessor.

Lemma strip_prefix_app (p r : text) : strip_prefix p (p ++ r) = Some r.
Proof.
  induction p as [|a p IH]; simpl; [destruct r; reflexivity|].
  rewrite Ascii.eqb_refl. exact IH.
Qed.

Lemma strip_prefix_Some (p s r : text) :
  strip_prefix p s = Some r → s = p ++ r.
Proof.
  revert s. induction p as [|a p IH]; intros s; simpl.
  - destruct s; intros [= <-]; reflexivity.
  - destruct s as [|b s]; [discriminate|].
    destruct (Ascii.eqb_spec a b) as [<-|]; [|discriminate].
    intros H. rewrite (IH _ H). reflexivity.
Qed.

Lemma strip_prefix_None (p s : text) :
  strip_prefix p s = None → ∀ r, s ≠ p ++ r.
Proof.
  intros H r ->. rewrite strip_prefix_app in H. discriminate.
Qed.

Lemma span_app (cls : ascii → bool) (s w r : text) :
  span cls s = (w, r) → s = w ++ r ∧ Forall (fun c => cls c = true) w
    ∧ match r with [] => True | c :: _ => cls c = false end.
Proof.
  revert w r. induction s as [|c s IH]; intros w r; simpl.
  - intros [= <- <-]. auto.
  - destruct (cls c) eqn:E.
    + destruct (span cls s) as [w' r'] eqn:Es. intros [= <- <-].
      destruct (IH _ _ eq_refl) as (-> & Hw & Hr). auto.
    + intros [= <- <-]. auto.
Qed.

Lemma span_intro (cls : ascii → bool) (w r : text) :
  Forall (fun c => cls c = true) w →
  match r with [] => True | c :: _ => cls c = false end →
  span cls (w ++ r) = (w, r).
Proof.
  intros Hw Hr. induction Hw as [|c w Hc _ IH]; simpl.
  - destruct r as [|c r]; [reflexivity|]. simpl. rewrite Hr. reflexivity.
  - rewrite Hc, IH. reflexivity.
Qed.

Lemma sub_from_drop (m : matcher) (k : nat) (s : text) :
  sub_from m k s = sub m (drop k s).
Proof.
  revert s. induction k as [|k IH]; intros s; [reflexivity|].
  destruct s as [|c r]; [reflexivity|]. simpl. apply IH.
Qed.

(** One step of [re.sub]. *)
Lemma sub_cons (m : matcher) (c : ascii) (r : text) :
  sub m (c :: r)
  = match m (c :: r) with
    | Some (S k, repl) => repl ++ sub m (drop k r)
    | _ => c :: sub m r
    end.
Proof.
  unfold sub at 1. simpl. destruct (m (c :: r)) as [[[|k] repl]|]; auto.
  rewrite sub_from_drop. reflexivity.
Qed.

Lemma sub_nomatch (m : matcher) (s : text) : nomatch m s = true → sub m s = s.
Proof.
  induction s as [|c r IH]; [reflexivity|]. simpl. rewrite sub_cons.
  destruct (m (c :: r)); [discriminate|]. intros H. rewrite IH; auto.
Qed.

(** Induction on texts by length, as [re.sub] resumes after a match. *)
Lemma text_length_ind (P : text → Prop) :
  (∀ s, (∀ s', length s' < length s → P s') → P s) → ∀ s, P s.
Proof.
  intros H s. remember (length s) as n eqn:E. revert s E.
  induction n as [n IH] using lt_wf_ind. intros s ->.
  apply H. intros s' Hlt. eapply IH; eauto.
Qed.

Abbreviation f3 := (sub m_fence_open) (only parsing).
Abbreviation f4 := (sub m_fence_close) (only parsing).
Abbreviation tick := ("`"%char) (only parsing).
Abbreviation three_newlines := [nl; nl; nl] (only parsing).

#[local] Arguments sub : simpl never.
#[local] Arguments m_fence_open : simpl never.
#[local] Arguments m_fence_close : simpl never.

(** *** The two fence patterns *)

Lemma m_fence_close_Some (s : text) (x : nat * text) :
  m_fence_close s = Some x →
  ∃ r, s = nl :: nl :: fence ++ r ∧ x = (5, nl :: fence).
Proof.
  unfold m_fence_close.
  destruct (strip_prefix (nl :: nl :: fence) s) as [r|] eqn:E; [|discriminate].
  intros [= <-]. exists r. split; [|reflexivity].
  apply strip_prefix_Some in E. exact E.
Qed.

Lemma m_fence_close_head (c : ascii) (r : text) :
  c ≠ nl → m_fence_close (c :: r) = None.
Proof.
  intros Hc. destruct (m_fence_close (c :: r)) as [x|] eqn:E; [|reflexivity].
  apply m_fence_close_Some in E as (r' & [= -> _] & _). contradiction.
Qed.

Lemma m_fence_open_Some (s : text) (x : nat * text) :
  m_fence_open s = Some x →
  ∃ w r, s = fence ++ w ++ nl :: nl :: r
         ∧ Forall (fun c => is_word c = true) w
         ∧ x = (S (2 + length w + 2), fence ++ w ++ [nl]).
Proof.
  unfold m_fence_open.
  destruct (strip_prefix fence s) as [r|] eqn:E; [|discriminate].
  destruct (span is_word r) as [w r'] eqn:Es.
  destruct (strip_prefix [nl; nl] r') as [r''|] eqn:En; [|discriminate].
  intros [= <-]. exists w, r''.
  apply strip_prefix_Some in E, En. apply span_app in Es as (-> & Hw & _).
  subst. auto.
Qed.

Lemma m_fence_open_intro (w r : text) :
  Forall (fun c => is_word c = true) w →
  m_fence_open (fence ++ w ++ nl :: nl :: r)
  = Some (S (2 + length w + 2), fence ++ w ++ [nl]).
Proof.
  intros Hw. unfold m_fence_open. rewrite strip_prefix_app.
  rewrite (span_intro is_word w (nl :: nl :: r) Hw eq_refl).
  reflexivity.
Qed.

Lemma m_fence_open_head (c : ascii) (r : text) :
  c ≠ tick → m_fence_open (c :: r) = None.
Proof.
  intros Hc. destruct (m_fence_open (c :: r)) as [x|] eqn:E; [|reflexivity].
  apply m_fence_open_Some in E as (w & r' & [= -> _] & _). contradiction.
Qed.

(** *** One step of each fence substitution *)

Lemma f4_match (r : text) :
  f4 (nl :: nl :: fence ++ r) = nl :: fence ++ f4 r.
Proof. rewrite sub_cons. reflexivity. Qed.

Lemma f4_nomatch (c : ascii) (r : text) :
  m_fence_close (c :: r) = None → f4 (c :: r) = c :: f4 r.
Proof. intros H. rewrite sub_cons, H. reflexivity. Qed.

Lemma f3_match (w r : text) :
  Forall (fun c => is_word c = true) w →
  f3 (fence ++ w ++ nl :: nl :: r) = fence ++ w ++ [nl] ++ f3 r.
Proof.
  intros Hw. change (fence ++ w ++ nl :: nl :: r)
    with (tick :: ([tick; tick] ++ w ++ nl :: nl :: r)).
  rewrite sub_cons.
  change (tick :: ([tick; tick] ++ w ++ nl :: nl :: r))
    with (fence ++ w ++ nl :: nl :: r).
  rewrite (m_fence_open_intro w r Hw).
  replace (drop (2 + length w + 2) ([tick; tick] ++ w ++ nl :: nl :: r))
    with r.
  - rewrite <- !app_assoc. reflexivity.
  - simpl. change (nl :: nl :: r) with ([nl; nl] ++ r).
    rewrite app_assoc, drop_app_length'; [reflexivity|].
    rewrite length_app. simpl. lia.
Qed.

Lemma f3_nomatch (c : ascii) (r : text) :
  m_fence_open (c :: r) = None → f3 (c :: r) = c :: f3 r.
Proof. intros H. rewrite sub_cons, H. reflexivity. Qed.

(** *** Text without the first character of a pattern passes through *)

Lemma f4_pass (q s : text) :
  Forall (fun c => c ≠ nl) q → f4 (q ++ s) = q ++ f4 s.
Proof.
  induction 1 as [|c q Hc _ IH]; [reflexivity|]. simpl.
  rewrite f4_nomatch by (apply m_fence_close_head; exact Hc).
  rewrite IH. reflexivity.
Qed.

Lemma f3_pass (q s : text) :
  Forall (fun c => c ≠ tick) q → f3 (q ++ s) = q ++ f3 s.
Proof.
  induction 1 as [|c q Hc _ IH]; [reflexivity|]. simpl.
  rewrite f3_nomatch by (apply m_fence_open_head; exact Hc).
  rewrite IH. reflexivity.
Qed.

Lemma f4_reflect (q s x : text) :
  Forall (fun c => c ≠ nl) q → f4 s = q ++ x →
  ∃ s', s = q ++ s' ∧ f4 s' = x.
Proof.
  intros Hq. revert s. induction Hq as [|c q Hc _ IH]; intros s H; [eauto|].
  destruct s as [|c' r]; [discriminate|].
  destruct (m_fence_close (c' :: r)) as [y|] eqn:E.
  - apply m_fence_close_Some in E as (r' & Es & _).
    rewrite Es, f4_match in H. injection H as <- _. contradiction.
  - rewrite f4_nomatch in H by exact E. injection H as -> H.
    destruct (IH _ H) as (s' & -> & <-). eauto.
Qed.

Lemma f3_reflect (q s x : text) :
  Forall (fun c => c ≠ tick) q → f3 s = q ++ x →
  ∃ s', s = q ++ s' ∧ f3 s' = x.
Proof.
  intros Hq. revert s. induction Hq as [|c q Hc _ IH]; intros s H; [eauto|].
  destruct s as [|c' r]; [discriminate|].
  destruct (m_fence_open (c' :: r)) as [y|] eqn:E.
  - apply m_fence_open_Some in E as (w & r' & Es & Hw & _).
    rewrite Es, f3_match in H by exact Hw. injection H as <- _.
    contradiction.
  - rewrite f3_nomatch in H by exact E. injection H as -> H.
    destruct (IH _ H) as (s' & -> & <-). eauto.
Qed.

(** *** Texts free of a pattern *)

Lemma free_cons (p : text) (c : ascii) (r : text) :
  free p (c :: r) = true ↔ strip_prefix p (c :: r) = None ∧ free p r = true.
Proof.
  simpl. destruct p as [|a p]; [split; [discriminate | intros [[=] _]]|].
  simpl. destruct (Ascii.eqb a c); [|tauto].
  destruct (strip_prefix p r); [split; [discriminate | intros [[=] _]] | tauto].
Qed.

Lemma free_app_r (p x y : text) : free p (x ++ y) = true → free p y = true.
Proof.
  induction x as [|c x IH]; [auto|].
  rewrite <- app_comm_cons, free_cons. intros [_ H]. auto.
Qed.

Lemma free_not_prefix (p r : text) (c : ascii) :
  free p (c :: p ++ r) = true → strip_prefix p (c :: p ++ r) = None.
Proof. rewrite free_cons. tauto. Qed.

Lemma free_head (p r : text) : p ≠ [] → free p (p ++ r) = false.
Proof.
  intros Hp. destruct p as [|a p]; [contradiction|].
  destruct (free _ _) eqn:E; [|reflexivity].
  rewrite <- app_comm_cons in E. apply free_cons in E as [E _].
  rewrite app_comm_cons, strip_prefix_app in E. discriminate.
Qed.

Lemma free_occurs (p x y : text) : p ≠ [] → free p (x ++ p ++ y) = false.
Proof.
  intros Hp. destruct (free _ _) eqn:E; [|reflexivity].
  apply free_app_r in E. rewrite free_head in E; auto.
Qed.

Lemma free_chars (a : ascii) (p x y : text) :
  Forall (fun c => c ≠ a) x → free (a :: p) y = true →
  free (a :: p) (x ++ y) = true.
Proof.
  intros Hx Hy. induction Hx as [|c x Hc _ IH]; [exact Hy|].
  rewrite <- app_comm_cons. apply free_cons. split; [|exact IH].
  simpl. destruct (Ascii.eqb_spec a c); [congruence | reflexivity].
Qed.

Lemma nomatch_cons (m : matcher) (c : ascii) (r : text) :
  nomatch m (c :: r) = true ↔ m (c :: r) = None ∧ nomatch m r = true.
Proof.
  simpl. destruct (m (c :: r)); [split; [discriminate | intros [[=] _]] | tauto].
Qed.

Lemma nomatch_app_r (m : matcher) (x y : text) :
  nomatch m (x ++ y) = true → nomatch m y = true.
Proof.
  induction x as [|c x IH]; [auto|].
  rewrite <- app_comm_cons, nomatch_cons. intros [_ H]. auto.
Qed.

Lemma nomatch_open_chars (x y : text) :
  Forall (fun c => c ≠ tick) x → nomatch m_fence_open y = true →
  nomatch m_fence_open (x ++ y) = true.
Proof.
  intros Hx Hy. induction Hx as [|c x Hc _ IH]; [exact Hy|].
  rewrite <- app_comm_cons. apply nomatch_cons.
  split; [apply m_fence_open_head; exact Hc | exact IH].
Qed.

Lemma nomatch_close_chars (x y : text) :
  Forall (fun c => c ≠ nl) x → nomatch m_fence_close y = true →
  nomatch m_fence_close (x ++ y) = true.
Proof.
  intros Hx Hy. induction Hx as [|c x Hc _ IH]; [exact Hy|].
  rewrite <- app_comm_cons. apply nomatch_cons.
  split; [apply m_fence_close_head; exact Hc | exact IH].
Qed.

(** *** Word characters *)

Lemma word_not_nl (c : ascii) : is_word c = true → c ≠ nl.
Proof. intros H ->. discriminate. Qed.

Lemma word_not_tick (c : ascii) : is_word c = true → c ≠ tick.
Proof. intros H ->. discriminate. Qed.

Lemma words_not_nl (w : text) :
  Forall (fun c => is_word c = true) w → Forall (fun c => c ≠ nl) w.
Proof. intros H. eapply Forall_impl; [exact H | exact word_not_nl]. Qed.

Lemma words_not_tick (w : text) :
  Forall (fun c => is_word c = true) w → Forall (fun c => c ≠ tick) w.
Proof. intros H. eapply Forall_impl; [exact H | exact word_not_tick]. Qed.

(** A run of word characters ends where the first other character is. *)
Lemma word_run_unique (w w' : text) (c c' : ascii) (a b : text) :
  Forall (fun c => is_word c = true) w →
  Forall (fun c => is_word c = true) w' →
  is_word c = false → is_word c' = false →
  w ++ c :: a = w' ++ c' :: b → w = w' ∧ c = c' ∧ a = b.
Proof.
  intros Hw. revert w'. induction Hw as [|x w Hx _ IH]; intros w' Hw' Hc Hc' E.
  - destruct Hw' as [|x' w' Hx' _]; simpl in E.
    + injection E as -> ->. auto.
    + injection E as -> _. congruence.
  - destruct Hw' as [|x' w' Hx' Hw']; simpl in E.
    + injection E as -> _. congruence.
    + injection E as -> E. destruct (IH w' Hw' Hc Hc' E) as (-> & -> & ->).
      auto.
Qed.

(** *** What the output of a fence substitution begins with *)

Lemma f4_two_newlines (s x : text) :
  free three_newlines s = true → f4 s = nl :: nl :: x →
  ∃ s', s = nl :: nl :: s'.
Proof.
  intros Hfree H. destruct s as [|c r]; [discriminate|].
  destruct (m_fence_close (c :: r)) as [y|] eqn:E.
  - apply m_fence_close_Some in E as (r' & Es & _). eauto.
  - rewrite f4_nomatch in H by exact E. injection H as -> H.
    destruct r as [|c' r']; [discriminate|].
    destruct (m_fence_close (c' :: r')) as [y|] eqn:E'.
    + apply m_fence_close_Some in E' as (r'' & Es & _). rewrite Es in Hfree.
      discriminate.
    + rewrite f4_nomatch in H by exact E'. injection H as -> H. eauto.
Qed.

(** A match of the opening pattern in the output of the opening
    substitution was a match in its input. *)
Lemma f3_match_reflect (s : text) :
  m_fence_open (f3 s) ≠ None → m_fence_open s ≠ None.
Proof.
  intros H. destruct (m_fence_open s) as [?|] eqn:E; [discriminate|].
  exfalso. destruct (m_fence_open (f3 s)) as [?|] eqn:E3; [|contradiction].
  clear H. apply m_fence_open_Some in E3 as (w & x & Ef & Hw & _).
  assert (Hhead : ∀ z, w ++ nl :: nl :: x ≠ tick :: z).
  { intros z Hz. destruct Hw as [|c w Hc _]; [discriminate|].
    injection Hz as -> _. discriminate. }
  (* three backticks, none of them the start of a match *)
  change fence with [tick; tick; tick] in Ef. cbn [app] in Ef.
  destruct s as [|c1 r1]; [discriminate|].
  rewrite f3_nomatch in Ef by exact E. injection Ef as -> Ef.
  destruct r1 as [|c2 r2]; [discriminate|].
  destruct (m_fence_open (c2 :: r2)) as [?|] eqn:E2.
  { apply m_fence_open_Some in E2 as (w2 & x2 & Es & Hw2 & _).
    rewrite Es, f3_match in Ef by exact Hw2.
    change fence with [tick; tick; tick] in Ef. cbn [app] in Ef.
    injection Ef as Ef. eapply Hhead. symmetry. exact Ef. }
  rewrite f3_nomatch in Ef by exact E2. injection Ef as -> Ef.
  destruct r2 as [|c3 r3]; [discriminate|].
  destruct (m_fence_open (c3 :: r3)) as [?|] eqn:E3.
  { apply m_fence_open_Some in E3 as (w3 & x3 & Es & Hw3 & _).
    rewrite Es, f3_match in Ef by exact Hw3.
    change fence with [tick; tick; tick] in Ef. cbn [app] in Ef.
    injection Ef as Ef. eapply Hhead. symmetry. exact Ef. }
  rewrite f3_nomatch in Ef by exact E3. injection Ef as -> Ef.
  change (nl :: nl :: x) with ([nl; nl] ++ x) in Ef. rewrite app_assoc in Ef.
  apply f3_reflect in Ef as (s' & -> & _).
  - rewrite <- app_assoc in E. simpl in E.
    change (tick :: tick :: tick :: w ++ nl :: nl :: s')
      with (fence ++ w ++ nl :: nl :: s') in E.
    rewrite m_fence_open_intro in E by exact Hw. discriminate.
  - apply Forall_app. split; [apply words_not_tick, Hw|].
    repeat constructor; discriminate.
Qed.

(** A match of the opening pattern in the output of the closing
    substitution was a match in its input. *)
Lemma f4_open_reflect (s : text) :
  free three_newlines s = true →
  m_fence_open (f4 s) ≠ None → m_fence_open s ≠ None.
Proof.
  intros Hfree H.
  destruct (m_fence_open (f4 s)) as [?|] eqn:E4; [|contradiction]. clear H.
  apply m_fence_open_Some in E4 as (w & x & Ef & Hw & _).
  rewrite app_assoc in Ef.
  apply f4_reflect in Ef as (s' & -> & Ef).
  - apply free_app_r in Hfree.
    apply (f4_two_newlines _ _ Hfree) in Ef as [s'' ->].
    rewrite <- app_assoc, m_fence_open_intro by exact Hw. discriminate.
  - apply Forall_app. split; [|apply words_not_nl, Hw].
    repeat constructor; discriminate.
Qed.

(** The output of the closing substitution does not begin with a match
    of the closing pattern. *)
Lemma f4_close_head (s : text) :
  free three_newlines s = true → m_fence_close (f4 s) = None.
Proof.
  intros Hfree. destruct (m_fence_close (f4 s)) as [?|] eqn:E4; [|reflexivity].
  exfalso. apply m_fence_close_Some in E4 as (x & Ef & _).
  destruct (f4_two_newlines _ _ Hfree Ef) as [s' ->].
  destruct (m_fence_close (nl :: nl :: s')) as [?|] eqn:E.
  - apply m_fence_close_Some in E as (r & Es & _).
    rewrite Es, f4_match in Ef. discriminate.
  - rewrite f4_nomatch in Ef by exact E. injection Ef as Ef.
    destruct (m_fence_close (nl :: s')) as [?|] eqn:E'.
    + apply m_fence_close_Some in E' as (r & Es & _).
      injection Es as ->. discriminate.
    + rewrite f4_nomatch in Ef by exact E'. injection Ef as Ef.
      apply (f4_reflect fence) in Ef as (r & -> & _);
        [|repeat constructor; discriminate].
      unfold m_fence_close in E.
      change (nl :: nl :: fence ++ r) with ((nl :: nl :: fence) ++ r) in E.
      rewrite strip_prefix_app in E. discriminate.
Qed.

(** After the opening substitution no opening pattern is left, and no
    run of three newlines has been made. *)
Lemma f3_settled (s : text) :
  free three_newlines s = true →
  nomatch m_fence_open (f3 s) = true ∧ free three_newlines (f3 s) = true.
Proof.
  induction s as [s IH] using text_length_ind. intros Hfree.
  destruct s as [|c r]; [auto|].
  destruct (m_fence_open (c :: r)) as [?|] eqn:E.
  - apply m_fence_open_Some in E as (w & x & Es & Hw & _). rewrite Es in *.
    rewrite f3_match by exact Hw.
    assert (Hx : free three_newlines x = true).
    { rewrite app_assoc in Hfree. change (nl :: nl :: x) with ([nl; nl] ++ x)
        in Hfree. rewrite app_assoc in Hfree. eapply free_app_r; eauto. }
    assert (Hhead : ∀ z, f3 x ≠ nl :: z).
    { intros z Hz. apply (f3_reflect [nl]) in Hz as (x' & -> & _);
        [|repeat constructor; discriminate].
      rewrite app_assoc in Hfree. apply free_app_r in Hfree. discriminate. }
    destruct (IH x) as [IH1 IH2]; [|exact Hx|].
    { rewrite !length_app. simpl. lia. }
    assert (Hw' : ∀ z, w ++ [nl] ++ f3 x ≠ tick :: z).
    { intros z Hz. destruct Hw as [|c' w Hc _]; [discriminate|].
      injection Hz as -> _. discriminate. }
    split.
    + change fence with [tick; tick; tick]. cbn [app].
      repeat (apply nomatch_cons; split).
      * destruct (m_fence_open _) as [?|] eqn:E; [|reflexivity]. exfalso.
        apply m_fence_open_Some in E as (w' & x' & Ee & Hw'' & _).
        change fence with [tick; tick; tick] in Ee. cbn [app] in Ee.
        injection Ee as Ee.
        apply word_run_unique in Ee as (_ & _ & Ee); auto.
        eapply Hhead; eauto.
      * destruct (m_fence_open _) as [?|] eqn:E; [|reflexivity]. exfalso.
        apply m_fence_open_Some in E as (w' & x' & Ee & _).
        change fence with [tick; tick; tick] in Ee. cbn [app] in Ee.
        injection Ee as Ee. eapply Hw'; eauto.
      * destruct (m_fence_open _) as [?|] eqn:E; [|reflexivity]. exfalso.
        apply m_fence_open_Some in E as (w' & x' & Ee & _).
        change fence with [tick; tick; tick] in Ee. cbn [app] in Ee.
        injection Ee as Ee. eapply Hw'; eauto.
      * apply nomatch_open_chars; [apply words_not_tick, Hw|].
        apply nomatch_cons.
        split; [apply m_fence_open_head; discriminate | exact IH1].
    + rewrite app_assoc. apply free_chars.
      * apply Forall_app. split; [|apply words_not_nl, Hw].
        repeat constructor; discriminate.
      * cbn [app]. apply free_cons. split; [|exact IH2].
        destruct (strip_prefix _ _) as [z|] eqn:Ez; [|reflexivity].
        apply strip_prefix_Some in Ez. injection Ez as Ez.
        exfalso. eapply Hhead; eauto.
  - assert (Hr : free three_newlines r = true)
      by (apply free_cons in Hfree; tauto).
    destruct (IH r) as [IH1 IH2]; [simpl; lia | exact Hr |].
    rewrite (f3_nomatch c r E). split.
    + apply nomatch_cons. split; [|exact IH1].
      rewrite <- (f3_nomatch c r E).
      destruct (m_fence_open (f3 (c :: r))) as [?|] eqn:E3; [|reflexivity].
      exfalso. apply (f3_match_reflect (c :: r)); [|exact E].
      rewrite E3. discriminate.
    + apply free_cons. split; [|exact IH2].
      destruct (strip_prefix _ _) as [z|] eqn:Ez; [|reflexivity]. exfalso.
      apply strip_prefix_Some in Ez. rewrite <- (f3_nomatch c r E) in Ez.
      apply f3_reflect in Ez as (s' & Es & _);
        [|repeat constructor; discriminate].
      rewrite Es in Hfree. discriminate.
Qed.

Lemma f4_open_none (q x : text) (c : ascii) :
  Forall (fun c => c ≠ nl) (c :: q) →
  free three_newlines (c :: q ++ x) = true →
  nomatch m_fence_open (c :: q ++ x) = true →
  m_fence_open (c :: q ++ f4 x) = None.
Proof.
  intros Hq Hfree Hno.
  change (c :: q ++ f4 x) with ((c :: q) ++ f4 x). rewrite <- f4_pass by exact Hq.
  destruct (m_fence_open (f4 _)) as [?|] eqn:E; [|reflexivity]. exfalso.
  apply (f4_open_reflect ((c :: q) ++ x)); [exact Hfree | | ].
  - rewrite E. discriminate.
  - apply nomatch_cons in Hno. tauto.
Qed.

(** After the closing substitution, on a text without opening pattern,
    neither pattern is left. *)
Lemma f4_settled (s : text) :
  free three_newlines s = true → nomatch m_fence_open s = true →
  nomatch m_fence_open (f4 s) = true ∧ nomatch m_fence_close (f4 s) = true.
Proof.
  induction s as [s IH] using text_length_ind. intros Hfree Hno.
  destruct s as [|c r]; [auto|].
  destruct (m_fence_close (c :: r)) as [?|] eqn:E.
  - apply m_fence_close_Some in E as (x & Es & _). rewrite Es in *.
    rewrite f4_match.
    assert (Hx : free three_newlines x = true).
    { change (nl :: nl :: fence ++ x) with ((nl :: nl :: fence) ++ x) in Hfree.
      eapply free_app_r; eauto. }
    assert (Hnx : nomatch m_fence_open x = true).
    { change (nl :: nl :: fence ++ x) with ((nl :: nl :: fence) ++ x) in Hno.
      eapply nomatch_app_r; eauto. }
    destruct (IH x) as [IH1 IH2]; [| exact Hx | exact Hnx |].
    { simpl. rewrite ?length_app. simpl. lia. }
    change fence with [tick; tick; tick] in *. cbn [app] in *.
    apply free_cons in Hfree as [_ Hfree]. apply free_cons in Hfree as [_ Hf1].
    assert (Hf2 := Hf1). apply free_cons in Hf2 as [_ Hf2].
    assert (Hf3 := Hf2). apply free_cons in Hf3 as [_ Hf3].
    apply nomatch_cons in Hno as [_ Hno]. apply nomatch_cons in Hno as [_ Hn1].
    assert (Hn2 := Hn1). apply nomatch_cons in Hn2 as [_ Hn2].
    assert (Hn3 := Hn2). apply nomatch_cons in Hn3 as [_ Hn3].
    split.
    + apply nomatch_cons. split; [apply m_fence_open_head; discriminate|].
      apply nomatch_cons. split.
      { apply (f4_open_none [tick; tick] x tick); auto;
          repeat constructor; discriminate. }
      apply nomatch_cons. split.
      { apply (f4_open_none [tick] x tick); auto;
          repeat constructor; discriminate. }
      apply nomatch_cons. split; [|exact IH1].
      apply (f4_open_none [] x tick); auto;
        repeat constructor; discriminate.
    + apply nomatch_cons. split.
      { destruct (m_fence_close _) as [?|] eqn:E; [|reflexivity].
        apply m_fence_close_Some in E as (y & Ey & _). discriminate. }
      apply (nomatch_close_chars [tick; tick; tick]); [|exact IH2].
      repeat constructor; discriminate.
  - assert (Hr : free three_newlines r = true)
      by (apply free_cons in Hfree; tauto).
    assert (Hnr : nomatch m_fence_open r = true)
      by (apply nomatch_cons in Hno; tauto).
    destruct (IH r) as [IH1 IH2]; [simpl; lia | exact Hr | exact Hnr |].
    split.
    + destruct (m_fence_open (f4 (c :: r))) as [?|] eqn:E4.
      * exfalso. apply (f4_open_reflect (c :: r)); [exact Hfree | |].
        -- rewrite E4. discriminate.
        -- apply nomatch_cons in Hno. tauto.
      * rewrite (f4_nomatch c r E) in *. apply nomatch_cons. auto.
    + assert (E4 := f4_close_head (c :: r) Hfree).
      rewrite (f4_nomatch c r E) in *. apply nomatch_cons. auto.
Qed.

(** *** The markers *)

Section Marker.

Variable a : ascii.
Variable p : text.
Hypothesis a_not_nl : a ≠ nl.
Hypothesis a_not_tick : a ≠ tick.
Hypothesis a_not_word : is_word a = false.
Hypothesis p_no_nl : Forall (fun c => c ≠ nl) p.
Hypothesis p_no_tick : Forall (fun c => c ≠ tick) p.

Lemma free_f4 (s : text) :
  free (a :: p) s = true → free (a :: p) (f4 s) = true.
Proof.
  induction s as [s IH] using text_length_ind. intros Hfree.
  destruct s as [|c r]; [auto|].
  destruct (m_fence_close (c :: r)) as [?|] eqn:E.
  - apply m_fence_close_Some in E as (x & Es & _). rewrite Es in *.
    rewrite f4_match.
    change (nl :: nl :: fence ++ x) with ((nl :: nl :: fence) ++ x) in Hfree.
    apply free_app_r in Hfree.
    apply (free_chars a p (nl :: fence)).
    + repeat constructor; auto.
    + apply IH; [|exact Hfree]. simpl. rewrite ?length_app. simpl. lia.
  - apply free_cons in Hfree as [Hp Hfree].
    destruct (strip_prefix (a :: p) (f4 (c :: r))) as [z|] eqn:Ez.
    + exfalso. apply strip_prefix_Some in Ez.
      apply f4_reflect in Ez as (s' & Es & _); [|constructor; auto].
      rewrite Es, strip_prefix_app in Hp. discriminate.
    + rewrite (f4_nomatch c r E) in *. apply free_cons. split; [exact Ez|].
      apply IH; [simpl; lia | exact Hfree].
Qed.

Lemma free_f3 (s : text) :
  free (a :: p) s = true → free (a :: p) (f3 s) = true.
Proof.
  induction s as [s IH] using text_length_ind. intros Hfree.
  destruct s as [|c r]; [auto|].
  destruct (m_fence_open (c :: r)) as [?|] eqn:E.
  - apply m_fence_open_Some in E as (w & x & Es & Hw & _). rewrite Es in *.
    rewrite f3_match by exact Hw.
    rewrite app_assoc in Hfree.
    change (nl :: nl :: x) with ([nl; nl] ++ x) in Hfree.
    rewrite app_assoc in Hfree. apply free_app_r in Hfree.
    rewrite !app_assoc. apply free_chars.
    + repeat (apply Forall_app; split).
      * repeat constructor; auto.
      * eapply Forall_impl; [exact Hw|]. simpl. intros c' Hc' ->. congruence.
      * repeat constructor; auto.
    + apply IH; [|exact Hfree]. simpl. rewrite ?length_app. simpl. lia.
  - apply free_cons in Hfree as [Hp Hfree].
    destruct (strip_prefix (a :: p) (f3 (c :: r))) as [z|] eqn:Ez.
    + exfalso. apply strip_prefix_Some in Ez.
      apply f3_reflect in Ez as (s' & Es & _); [|constructor; auto].
      rewrite Es, strip_prefix_app in Hp. discriminate.
    + rewrite (f3_nomatch c r E) in *. apply free_cons. split; [exact Ez|].
      apply IH; [simpl; lia | exact Hfree].
Qed.

End Marker.

Lemma nomatch_open_marker (s : text) :
  free (lit "[code]") s = true → nomatch m_open_marker s = true.
Proof.
  induction s as [|c r IH]; [auto|]. intros H.
  apply free_cons in H as [Hp H]. apply nomatch_cons. split; [|auto].
  unfold m_open_marker. rewrite Hp. reflexivity.
Qed.

Lemma nomatch_close_marker (s : text) :
  free (lit "[/code]") s = true → nomatch m_close_marker s = true.
Proof.
  induction s as [|c r IH]; [auto|]. intros H.
  apply nomatch_cons. split; [|apply free_cons in H; tauto].
  unfold m_close_marker.
  destruct (span is_space (c :: r)) as [ws r'] eqn:Es.
  destruct (strip_prefix (lit "[/code]") r') as [z|] eqn:Ez; [|reflexivity].
  exfalso. apply span_app in Es as (Es & _). apply strip_prefix_Some in Ez.
  rewrite Es, Ez, free_occurs in H; discriminate.
Qed.

(** *** Newline runs next to a fence

    The fence substitutions take one newline from a run that follows an
    opening fence, and one from a run that precedes a fence; a run at
    such a place that is too long for that leaves work for a second
    pass. *)

Lemma m_fence_open_text_Some (s : text) (x : nat * text) :
  m_fence_open_text s = Some x →
  ∃ w r, s = fence ++ w ++ nl :: nl :: r
         ∧ Forall (fun c => is_word c = true) w
         ∧ strip_prefix fence r = None.
Proof.
  unfold m_fence_open_text.
  destruct (strip_prefix fence s) as [r|] eqn:E; [|discriminate].
  destruct (span is_word r) as [w r'] eqn:Es.
  destruct (strip_prefix [nl; nl] r') as [r''|] eqn:En; [|discriminate].
  destruct (strip_prefix fence r'') eqn:Ef; [discriminate|].
  intros _. exists w, r''.
  apply strip_prefix_Some in E, En. apply span_app in Es as (-> & Hw & _).
  subst. auto.
Qed.

Lemma m_fence_open_text_fence (w r : text) :
  Forall (fun c => is_word c = true) w →
  m_fence_open_text (fence ++ w ++ nl :: nl :: r) = None →
  ∃ y, r = fence ++ y.
Proof.
  intros Hw H. unfold m_fence_open_text in H.
  rewrite strip_prefix_app in H.
  rewrite (span_intro is_word w (nl :: nl :: r) Hw eq_refl) in H.
  change (strip_prefix [nl; nl] (nl :: nl :: r)) with (Some r) in H.
  cbv beta iota in H.
  destruct (strip_prefix fence r) as [y|] eqn:Ey; [|discriminate].
  apply strip_prefix_Some in Ey. eauto.
Qed.

Lemma m_fence_open_text_open (s : text) :
  m_fence_open_text s ≠ None → m_fence_open s ≠ None.
Proof.
  destruct (m_fence_open_text s) as [x|] eqn:E; [|contradiction]. intros _.
  apply m_fence_open_text_Some in E as (w & r & -> & Hw & _).
  rewrite m_fence_open_intro by exact Hw. discriminate.
Qed.

Lemma m_fence_open_text_head (c : ascii) (r : text) :
  c ≠ tick → m_fence_open_text (c :: r) = None.
Proof.
  intros Hc. destruct (m_fence_open_text (c :: r)) as [x|] eqn:E; [|reflexivity].
  apply m_fence_open_text_Some in E as (w & r' & [= -> _] & _). contradiction.
Qed.

Lemma nomatch_open_text_chars (x y : text) :
  Forall (fun c => c ≠ tick) x → nomatch m_fence_open_text y = true →
  nomatch m_fence_open_text (x ++ y) = true.
Proof.
  intros Hx Hy. induction Hx as [|c x Hc _ IH]; [exact Hy|].
  rewrite <- app_comm_cons. apply nomatch_cons.
  split; [apply m_fence_open_text_head; exact Hc | exact IH].
Qed.

Lemma open_blank_head (w x : text) :
  Forall (fun c => is_word c = true) w →
  m_fence_open_blank (fence ++ w ++ nl :: nl :: x) = None →
  (∀ z, x ≠ nl :: z) ∨ ∃ y, x = nl :: fence ++ y.
Proof.
  intros Hw H. destruct x as [|c x']; [left; discriminate|].
  destruct (Ascii.eqb_spec c nl) as [->|Hc];
    [|left; intros z [= -> _]; contradiction].
  right. unfold m_fence_open_blank in H.
  rewrite strip_prefix_app in H.
  rewrite (span_intro is_word w (nl :: nl :: nl :: x') Hw eq_refl) in H.
  change (strip_prefix [nl; nl; nl] (nl :: nl :: nl :: x')) with (Some x') in H.
  cbv beta iota in H.
  destruct (strip_prefix fence x') as [y|] eqn:Ey; [|discriminate].
  apply strip_prefix_Some in Ey. exists y. rewrite Ey. reflexivity.
Qed.

(** A text without the character [c] at the end of a text with [c] in
    it lies after that [c]. *)
Lemma suffix_after_char (c : ascii) (a x1 x0 q : text) :
  a ++ c :: x1 = x0 ++ q → Forall (fun d => d ≠ c) q →
  ∃ x0', x1 = x0' ++ q.
Proof.
  revert a. induction x0 as [|h x0 IH]; intros a E Hq.
  - exfalso. simpl in E. subst q. apply Forall_app in Hq as [_ Hq].
    inversion Hq. congruence.
  - destruct a as [|h' a]; simpl in E.
    + injection E as _ E. eauto.
    + injection E as _ E. eapply IH; eauto.
Qed.

(** The condition on the reversed text says that three newlines before
    a fence come directly after an opening fence. *)
Lemma close_blank_rev (s : text) :
  nomatch m_fence_close_blank (rev s) = true → blank_after_open_only s.
Proof.
  intros H x y ->.
  rewrite !rev_app_distr, <- !app_assoc in H.
  apply nomatch_app_r in H.
  change (rev fence) with [tick; tick; tick] in H.
  change (rev [nl; nl; nl]) with [nl; nl; nl] in H. cbn [app] in H.
  apply nomatch_cons in H as [H _].
  unfold m_fence_close_blank in H.
  change (strip_prefix (fence ++ [nl; nl; nl])
            (tick :: tick :: tick :: nl :: nl :: nl :: rev x))
    with (Some (rev x)) in H.
  cbv beta iota in H.
  destruct (span is_word (rev x)) as [w r'] eqn:Es.
  destruct (strip_prefix fence r') as [r''|] eqn:Ef; [|discriminate].
  apply strip_prefix_Some in Ef. apply span_app in Es as (Ex & Hw & _).
  subst r'. exists (rev r''), (rev w). split; [|apply Forall_rev, Hw].
  rewrite <- (rev_involutive x), Ex, !rev_app_distr, <- app_assoc.
  reflexivity.
Qed.

Lemma f4_starts_with_two_newlines (s x : text) :
  f4 s = nl :: nl :: x → ∃ s', s = nl :: nl :: s'.
Proof.
  intros H. destruct s as [|c r]; [discriminate|].
  destruct (m_fence_close (c :: r)) as [y|] eqn:E.
  - apply m_fence_close_Some in E as (r' & Es & _). eauto.
  - rewrite f4_nomatch in H by exact E. injection H as -> H.
    destruct r as [|c' r']; [discriminate|].
    destruct (m_fence_close (c' :: r')) as [y|] eqn:E'.
    + apply m_fence_close_Some in E' as (r'' & Es & _).
      injection Es as -> _. eauto.
    + rewrite f4_nomatch in H by exact E'. injection H as -> H. eauto.
Qed.

(** A match of the opening pattern in the output of the closing
    substitution was a match in its input. *)
Lemma f4_open_reflect_any (s : text) :
  m_fence_open (f4 s) ≠ None → m_fence_open s ≠ None.
Proof.
  intros H.
  destruct (m_fence_open (f4 s)) as [?|] eqn:E4; [|contradiction]. clear H.
  apply m_fence_open_Some in E4 as (w & x & Ef & Hw & _).
  rewrite app_assoc in Ef.
  apply f4_reflect in Ef as (s' & -> & Ef).
  - apply f4_starts_with_two_newlines in Ef as [s'' ->].
    rewrite <- app_assoc, m_fence_open_intro by exact Hw. discriminate.
  - apply Forall_app. split; [|apply words_not_nl, Hw].
    repeat constructor; discriminate.
Qed.

(** The output of the closing substitution does not begin with a match
    of the closing pattern, unless its input begins with three newlines
    and a fence. *)
Lemma f4_close_head_adj (s : text) :
  strip_prefix (nl :: nl :: nl :: fence) s = None →
  m_fence_close (f4 s) = None.
Proof.
  intros Hb. destruct (m_fence_close (f4 s)) as [?|] eqn:E4; [|reflexivity].
  exfalso. apply m_fence_close_Some in E4 as (x & Ef & _).
  destruct (f4_starts_with_two_newlines _ _ Ef) as [s' ->].
  destruct (m_fence_close (nl :: nl :: s')) as [?|] eqn:E.
  - apply m_fence_close_Some in E as (r & Es & _).
    rewrite Es, f4_match in Ef. discriminate.
  - rewrite f4_nomatch in Ef by exact E. injection Ef as Ef.
    destruct (m_fence_close (nl :: s')) as [?|] eqn:E'.
    + apply m_fence_close_Some in E' as (r & Es & _).
      injection Es as ->. cbv in Hb. discriminate Hb.
    + rewrite f4_nomatch in Ef by exact E'. injection Ef as Ef.
      apply (f4_reflect fence) in Ef as (r & -> & _);
        [|repeat constructor; discriminate].
      unfold m_fence_close in E.
      change (nl :: nl :: fence ++ r) with ((nl :: nl :: fence) ++ r) in E.
      rewrite strip_prefix_app in E. discriminate.
Qed.

(** The opening substitution leaves the backticks at the head of a text
    in place. *)
Lemma f3_fence_head (s z : text) :
  f3 s = fence ++ z → ∃ y, s = fence ++ y.
Proof.
  intros Ef. change fence with [tick; tick; tick] in *. cbn [app] in *.
  destruct s as [|c1 r1]; [discriminate|].
  destruct (m_fence_open (c1 :: r1)) as [?|] eqn:E1.
  { apply m_fence_open_Some in E1 as (w & x & Es & _). rewrite Es.
    change fence with [tick; tick; tick]. cbn [app]. eauto. }
  rewrite f3_nomatch in Ef by exact E1. injection Ef as -> Ef.
  destruct r1 as [|c2 r2]; [discriminate|].
  destruct (m_fence_open (c2 :: r2)) as [?|] eqn:E2.
  { apply m_fence_open_Some in E2 as (w & x & Es & _). rewrite Es.
    change fence with [tick; tick; tick]. cbn [app]. eauto. }
  rewrite f3_nomatch in Ef by exact E2. injection Ef as -> Ef.
  destruct r2 as [|c3 r3]; [discriminate|].
  destruct (m_fence_open (c3 :: r3)) as [?|] eqn:E3.
  { apply m_fence_open_Some in E3 as (w & x & Es & _). rewrite Es.
    change fence with [tick; tick; tick]. cbn [app]. eauto. }
  rewrite f3_nomatch in Ef by exact E3. injection Ef as -> Ef. eauto.
Qed.

Lemma f3_keeps_fence (y : text) : ∃ z, f3 (fence ++ y) = fence ++ z.
Proof.
  change fence with [tick; tick; tick]. cbn [app].
  destruct (m_fence_open (tick :: tick :: tick :: y)) as [?|] eqn:E1.
  { apply m_fence_open_Some in E1 as (w & x & Es & Hw & _).
    change fence with [tick; tick; tick] in Es. cbn [app] in Es.
    rewrite Es.
    change (tick :: tick :: tick :: w ++ nl :: nl :: x)
      with (fence ++ w ++ nl :: nl :: x).
    rewrite f3_match by exact Hw. eauto. }
  rewrite f3_nomatch by exact E1.
  destruct (m_fence_open (tick :: tick :: y)) as [?|] eqn:E2.
  { apply m_fence_open_Some in E2 as (w & x & Es & Hw & _). rewrite Es.
    rewrite f3_match by exact Hw.
    change fence with [tick; tick; tick]. cbn [app]. eauto. }
  rewrite f3_nomatch by exact E2.
  destruct (m_fence_open (tick :: y)) as [?|] eqn:E3.
  { apply m_fence_open_Some in E3 as (w & x & Es & Hw & _). rewrite Es.
    rewrite f3_match by exact Hw.
    change fence with [tick; tick; tick]. cbn [app]. eauto. }
  rewrite f3_nomatch by exact E3. eauto.
Qed.

(** After the opening substitution an opening pattern is left only
    where a fence follows it, and there are no three newlines before a
    fence. *)
Lemma f3_settled_adj (s : text) :
  nomatch m_fence_open_blank s = true → blank_after_open_only s →
  nomatch m_fence_open_text (f3 s) = true
  ∧ free (nl :: nl :: nl :: fence) (f3 s) = true.
Proof.
  induction s as [s IH] using text_length_ind. intros Hblank HQ.
  destruct s as [|c r]; [auto|].
  destruct (m_fence_open (c :: r)) as [?|] eqn:E.
  - apply m_fence_open_Some in E as (w & x & Es & Hw & _). rewrite Es in *.
    rewrite f3_match by exact Hw.
    assert (Hx0 : (∀ z, x ≠ nl :: z) ∨ ∃ y, x = nl :: fence ++ y).
    { apply (open_blank_head w x Hw).
      change fence with [tick; tick; tick] in Hblank. cbn [app] in Hblank.
      apply nomatch_cons in Hblank as [Hblank _]. exact Hblank. }
    assert (Hbx : nomatch m_fence_open_blank x = true).
    { rewrite app_assoc in Hblank.
      change (nl :: nl :: x) with ([nl; nl] ++ x) in Hblank.
      rewrite app_assoc in Hblank. eapply nomatch_app_r; eauto. }
    assert (HQx : blank_after_open_only x).
    { intros x1 y1 Ex. subst x.
      destruct (HQ (fence ++ w ++ nl :: nl :: x1) y1) as (x0 & w0 & E0 & Hw0).
      { rewrite <- !app_assoc. reflexivity. }
      assert (E0' : (fence ++ w ++ [nl]) ++ nl :: x1 = x0 ++ (fence ++ w0))
        by (rewrite <- E0, <- !app_assoc; reflexivity).
      apply suffix_after_char in E0' as [x0' ->]; [eauto|].
      apply Forall_app. split; [|apply words_not_nl, Hw0].
      repeat constructor; discriminate. }
    destruct (IH x) as [IH1 IH2]; [|exact Hbx | exact HQx|].
    { rewrite !length_app. simpl. lia. }
    assert (Hw' : ∀ z, w ++ [nl] ++ f3 x ≠ tick :: z).
    { intros z Hz. destruct Hw as [|c' w Hc _]; [discriminate|].
      injection Hz as -> _. discriminate. }
    split.
    + change fence with [tick; tick; tick]. cbn [app].
      repeat (apply nomatch_cons; split).
      * destruct (m_fence_open_text _) as [?|] eqn:E; [|reflexivity]. exfalso.
        apply m_fence_open_text_Some in E as (w' & x' & Ee & Hw'' & Hnf).
        change fence with [tick; tick; tick] in Ee. cbn [app] in Ee.
        injection Ee as Ee.
        apply word_run_unique in Ee as (_ & _ & Ee); auto.
        apply (f3_reflect [nl]) in Ee as (x'' & Ex & Ef);
          [|repeat constructor; discriminate].
        destruct Hx0 as [Hx0 | [y Hy]]; [eapply Hx0; exact Ex|].
        rewrite Hy in Ex.
        assert (x'' = fence ++ y) as ->
          by (injection Ex as Ex; symmetry; exact Ex).
        destruct (f3_keeps_fence y) as [z Ez]. rewrite Ez in Ef. subst x'.
        rewrite strip_prefix_app in Hnf. discriminate.
      * destruct (m_fence_open_text _) as [?|] eqn:E; [|reflexivity]. exfalso.
        apply m_fence_open_text_Some in E as (w' & x' & Ee & _).
        change fence with [tick; tick; tick] in Ee. cbn [app] in Ee.
        injection Ee as Ee. eapply Hw'; eauto.
      * destruct (m_fence_open_text _) as [?|] eqn:E; [|reflexivity]. exfalso.
        apply m_fence_open_text_Some in E as (w' & x' & Ee & _).
        change fence with [tick; tick; tick] in Ee. cbn [app] in Ee.
        injection Ee as Ee. eapply Hw'; eauto.
      * apply nomatch_open_text_chars; [apply words_not_tick, Hw|].
        apply nomatch_cons.
        split; [apply m_fence_open_text_head; discriminate | exact IH1].
    + rewrite app_assoc. apply free_chars.
      * apply Forall_app. split; [|apply words_not_nl, Hw].
        repeat constructor; discriminate.
      * cbn [app]. apply free_cons. split; [|exact IH2].
        destruct (strip_prefix _ _) as [z|] eqn:Ez; [|reflexivity].
        apply strip_prefix_Some in Ez. injection Ez as Ez. exfalso.
        apply (f3_reflect [nl; nl]) in Ez as (x' & Ex & _);
          [|repeat constructor; discriminate].
        destruct Hx0 as [Hx0 | [y Hy]]; [eapply Hx0; exact Ex|].
        rewrite Hy in Ex. change fence with [tick; tick; tick] in Ex.
        discriminate Ex.
  - assert (Hbr : nomatch m_fence_open_blank r = true)
      by (apply nomatch_cons in Hblank; tauto).
    assert (HQr : blank_after_open_only r).
    { intros x1 y1 Er. subst r.
      destruct (HQ (c :: x1) y1) as (x0 & w0 & E0 & Hw0); [reflexivity|].
      destruct x0 as [|h x0].
      - exfalso. change ([] ++ fence ++ w0) with (fence ++ w0) in E0.
        rewrite app_comm_cons, E0 in E.
        rewrite <- !app_assoc in E.
        change ([nl; nl; nl] ++ fence ++ y1)
          with (nl :: nl :: nl :: fence ++ y1) in E.
        rewrite m_fence_open_intro in E by exact Hw0. discriminate.
      - change ((h :: x0) ++ fence ++ w0) with (h :: (x0 ++ fence ++ w0)) in E0.
        injection E0 as _ ->. eauto. }
    destruct (IH r) as [IH1 IH2]; [simpl; lia | exact Hbr | exact HQr |].
    rewrite (f3_nomatch c r E). split.
    + apply nomatch_cons. split; [|exact IH1].
      rewrite <- (f3_nomatch c r E).
      destruct (m_fence_open_text (f3 (c :: r))) as [?|] eqn:E3; [|reflexivity].
      exfalso. apply (f3_match_reflect (c :: r)); [|exact E].
      apply m_fence_open_text_open. rewrite E3. discriminate.
    + apply free_cons. split; [|exact IH2].
      destruct (strip_prefix _ _) as [z|] eqn:Ez; [|reflexivity]. exfalso.
      apply strip_prefix_Some in Ez. rewrite <- (f3_nomatch c r E) in Ez.
      apply (f3_reflect [nl; nl; nl] _ (fence ++ z)) in Ez as (s' & Es & Ef);
        [|repeat constructor; discriminate].
      apply f3_fence_head in Ef as [y ->].
      destruct (HQ [] y) as (x0 & w0 & E0 & _); [exact Es|].
      change fence with [tick; tick; tick] in E0.
      destruct x0; discriminate E0.
Qed.

(** Where the opening pattern is followed by a fence, the closing
    substitution undoes it. *)
Lemma f4_open_head_adj (s : text) :
  m_fence_open_text s = None → m_fence_open (f4 s) = None.
Proof.
  intros Hs. destruct (m_fence_open (f4 s)) as [?|] eqn:E4; [|reflexivity].
  exfalso.
  assert (Ho : m_fence_open s ≠ None)
    by (apply f4_open_reflect_any; rewrite E4; discriminate).
  destruct (m_fence_open s) as [?|] eqn:E; [|contradiction]. clear Ho.
  apply m_fence_open_Some in E as (w & r & -> & Hw & _).
  destruct (m_fence_open_text_fence w r Hw Hs) as [y ->].
  rewrite app_assoc, f4_pass in E4.
  2:{ apply Forall_app. split; [|apply words_not_nl, Hw].
      repeat constructor; discriminate. }
  rewrite f4_match in E4. rewrite <- app_assoc in E4.
  apply m_fence_open_Some in E4 as (w' & x' & Ee & Hw' & _).
  apply app_inv_head in Ee.
  change (nl :: fence ++ f4 y) with (nl :: tick :: tick :: tick :: f4 y) in Ee.
  apply word_run_unique in Ee as (_ & _ & Ee); auto. discriminate Ee.
Qed.

Lemma f4_open_none_adj (q x : text) :
  Forall (fun c => c ≠ nl) q →
  m_fence_open_text (q ++ x) = None → m_fence_open (q ++ f4 x) = None.
Proof.
  intros Hq Hno. rewrite <- f4_pass by exact Hq.
  apply f4_open_head_adj, Hno.
Qed.

(** After the closing substitution neither pattern is left. *)
Lemma f4_settled_adj (s : text) :
  free (nl :: nl :: nl :: fence) s = true →
  nomatch m_fence_open_text s = true →
  nomatch m_fence_open (f4 s) = true ∧ nomatch m_fence_close (f4 s) = true.
Proof.
  induction s as [s IH] using text_length_ind. intros Hfree Hno.
  destruct s as [|c r]; [auto|].
  destruct (m_fence_close (c :: r)) as [?|] eqn:E.
  - apply m_fence_close_Some in E as (x & Es & _). rewrite Es in *.
    rewrite f4_match.
    assert (Hx : free (nl :: nl :: nl :: fence) x = true).
    { change (nl :: nl :: fence ++ x) with ((nl :: nl :: fence) ++ x) in Hfree.
      eapply free_app_r; eauto. }
    assert (Hnx : nomatch m_fence_open_text x = true).
    { change (nl :: nl :: fence ++ x) with ((nl :: nl :: fence) ++ x) in Hno.
      eapply nomatch_app_r; eauto. }
    destruct (IH x) as [IH1 IH2]; [| exact Hx | exact Hnx |].
    { simpl. rewrite ?length_app. simpl. lia. }
    change fence with [tick; tick; tick] in *. cbn [app] in *.
    apply nomatch_cons in Hno as [_ Hno]. apply nomatch_cons in Hno as [_ Hno].
    apply nomatch_cons in Hno as [Ha Hno]. apply nomatch_cons in Hno as [Hb Hno].
    apply nomatch_cons in Hno as [Hc _].
    split.
    + apply nomatch_cons. split; [apply m_fence_open_head; discriminate|].
      apply nomatch_cons. split.
      { apply (f4_open_none_adj [tick; tick; tick] x);
          [repeat constructor; discriminate | exact Ha]. }
      apply nomatch_cons. split.
      { apply (f4_open_none_adj [tick; tick] x);
          [repeat constructor; discriminate | exact Hb]. }
      apply nomatch_cons. split; [|exact IH1].
      apply (f4_open_none_adj [tick] x);
        [repeat constructor; discriminate | exact Hc].
    + apply nomatch_cons. split.
      { destruct (m_fence_close _) as [?|] eqn:E; [|reflexivity].
        apply m_fence_close_Some in E as (y & Ey & _). discriminate. }
      apply (nomatch_close_chars [tick; tick; tick]); [|exact IH2].
      repeat constructor; discriminate.
  - assert (Hr : free (nl :: nl :: nl :: fence) r = true)
      by (apply free_cons in Hfree; tauto).
    assert (Hnr : nomatch m_fence_open_text r = true)
      by (apply nomatch_cons in Hno; tauto).
    destruct (IH r) as [IH1 IH2]; [simpl; lia | exact Hr | exact Hnr |].
    split.
    + assert (E4 : m_fence_open (f4 (c :: r)) = None).
      { apply f4_open_head_adj. apply nomatch_cons in Hno. tauto. }
      rewrite (f4_nomatch c r E) in *. apply nomatch_cons. auto.
    + assert (E4 : m_fence_close (f4 (c :: r)) = None).
      { apply f4_close_head_adj. apply free_cons in Hfree. tauto. }
      rewrite (f4_nomatch c r E) in *. apply nomatch_cons. auto.
Qed.

Lemma post_process_eq (t : text) :
  post_process t = f4 (f3 (markers_stripped t)).
Proof. reflexivity. Qed.

(** *** What the substitutions delete *)

Lemma sub_sublist (m : matcher) :
  (∀ s k repl, m s = Some (k, repl) → repl `sublist_of` take k s) →
  ∀ s, sub m s `sublist_of` s.
Proof.
  intros Hm. induction s as [s IH] using text_length_ind.
  destruct s as [|c r]; [reflexivity|].
  rewrite sub_cons. destruct (m (c :: r)) as [[[|k] repl]|] eqn:E.
  - apply sublist_skip, IH. simpl. lia.
  - rewrite <- (take_drop (S k) (c :: r)).
    apply sublist_app; [eapply Hm; eauto|].
    simpl. apply IH. simpl. rewrite length_drop. lia.
  - apply sublist_skip, IH. simpl. lia.
Qed.

Lemma m_open_marker_deletes (s : text) (k : nat) (repl : text) :
  m_open_marker s = Some (k, repl) → repl `sublist_of` take k s.
Proof.
  unfold m_open_marker. destruct (strip_prefix _ s); [|discriminate].
  destruct (span is_space t). intros [= <- <-]. apply sublist_nil_l.
Qed.

Lemma m_close_marker_deletes (s : text) (k : nat) (repl : text) :
  m_close_marker s = Some (k, repl) → repl `sublist_of` take k s.
Proof.
  unfold m_close_marker. destruct (span is_space s).
  destruct (strip_prefix _ _); [|discriminate].
  intros [= <- <-]. apply sublist_nil_l.
Qed.

Lemma word_run_deletes (w r : text) :
  w ++ [nl] `sublist_of` take (length w + 2) (w ++ nl :: nl :: r).
Proof.
  induction w as [|c w IH]; simpl.
  - apply sublist_skip, sublist_nil_l.
  - apply sublist_skip, IH.
Qed.

Lemma m_fence_open_deletes (s : text) (k : nat) (repl : text) :
  m_fence_open s = Some (k, repl) → repl `sublist_of` take k s.
Proof.
  intros H. apply m_fence_open_Some in H as (w & r & -> & _ & [= -> ->]).
  change fence with [tick; tick; tick]. simpl.
  do 3 apply sublist_skip. apply word_run_deletes.
Qed.

Lemma m_fence_close_deletes (s : text) (k : nat) (repl : text) :
  m_fence_close s = Some (k, repl) → repl `sublist_of` take k s.
Proof.
  intros H. apply m_fence_close_Some in H as (r & -> & [= -> ->]).
  simpl. apply sublist_cons, sublist_skip. reflexivity.
Qed.

(** *** A pass that changes nothing found no match *)

Section Shortening.

Variable m : matcher.
Hypothesis m_deletes :
  ∀ s k repl, m s = Some (k, repl) → repl `sublist_of` take k s.
Hypothesis m_shortens :
  ∀ s k repl, m s = Some (k, repl) → length repl < k ≤ length s.

Lemma sub_length (s : text) : length (sub m s) ≤ length s.
Proof. apply sublist_length, sub_sublist, m_deletes. Qed.

Lemma sub_same_length (s : text) :
  length (sub m s) = length s → nomatch m s = true.
Proof.
  induction s as [s IH] using text_length_ind.
  destruct s as [|c r]; [reflexivity|].
  rewrite sub_cons. intros Hlen. apply nomatch_cons.
  destruct (m (c :: r)) as [[k repl]|] eqn:E.
  - exfalso. destruct (m_shortens _ _ _ E) as [H1 H2].
    destruct k as [|k]; [lia|].
    rewrite length_app in Hlen.
    assert (H := sub_length (drop k r)). rewrite length_drop in H.
    simpl in *. lia.
  - simpl in Hlen. split; [reflexivity|]. apply IH; simpl; lia.
Qed.

End Shortening.

Lemma m_open_marker_shortens (s : text) (k : nat) (repl : text) :
  m_open_marker s = Some (k, repl) → length repl < k ≤ length s.
Proof.
  unfold m_open_marker.
  destruct (strip_prefix _ s) as [r|] eqn:E; [|discriminate].
  destruct (span is_space r) as [ws r'] eqn:Es. intros [= <- <-].
  apply strip_prefix_Some in E. apply span_app in Es as (-> & _).
  subst s. rewrite !length_app. simpl. lia.
Qed.

Lemma m_close_marker_shortens (s : text) (k : nat) (repl : text) :
  m_close_marker s = Some (k, repl) → length repl < k ≤ length s.
Proof.
  unfold m_close_marker. destruct (span is_space s) as [ws r] eqn:Es.
  destruct (strip_prefix _ r) as [z|] eqn:E; [|discriminate].
  intros [= <- <-].
  apply strip_prefix_Some in E. apply span_app in Es as (-> & _).
  subst r. rewrite !length_app. simpl. lia.
Qed.

Lemma m_fence_open_shortens (s : text) (k : nat) (repl : text) :
  m_fence_open s = Some (k, repl) → length repl < k ≤ length s.
Proof.
  intros H. apply m_fence_open_Some in H as (w & r & -> & _ & [= -> ->]).
  rewrite !length_app. simpl. rewrite !length_app. simpl. lia.
Qed.

Lemma m_fence_close_shortens (s : text) (k : nat) (repl : text) :
  m_fence_close s = Some (k, repl) → length repl < k ≤ length s.
Proof.
  intros H. apply m_fence_close_Some in H as (r & -> & [= -> ->]).
  simpl. lia.
Qed.

(** A text that the cleanup leaves as it is holds no match of any of
    the four patterns. *)
Lemma post_process_fixed_nomatch (v : text) :
  post_process v = v →
  nomatch m_open_marker v = true ∧ nomatch m_close_marker v = true
  ∧ nomatch m_fence_open v = true ∧ nomatch m_fence_close v = true.
Proof.
  unfold post_process. intros H.
  assert (L1 := sub_length _ m_open_marker_deletes v).
  assert (L2 := sub_length _ m_close_marker_deletes (sub m_open_marker v)).
  assert (L3 := sub_length _ m_fence_open_deletes
                  (sub m_close_marker (sub m_open_marker v))).
  assert (L4 := sub_length _ m_fence_close_deletes
                  (f3 (sub m_close_marker (sub m_open_marker v)))).
  rewrite H in L4.
  assert (N1 : nomatch m_open_marker v = true).
  { apply (sub_same_length _ m_open_marker_deletes m_open_marker_shortens).
    lia. }
  rewrite (sub_nomatch _ _ N1) in *.
  assert (N2 : nomatch m_close_marker v = true).
  { apply (sub_same_length _ m_close_marker_deletes m_close_marker_shortens).
    lia. }
  rewrite (sub_nomatch _ _ N2) in *.
  assert (N3 : nomatch m_fence_open v = true).
  { apply (sub_same_length _ m_fence_open_deletes m_fence_open_shortens).
    lia. }
  rewrite (sub_nomatch _ _ N3) in *.
  assert (N4 : nomatch m_fence_close v = true).
  { apply (sub_same_length _ m_fence_close_deletes m_fence_close_shortens).
    rewrite H. reflexivity. }
  auto.
Qed.

(** *** The markers, from the output back to the input *)

Section MarkerKept.

Variable a : ascii.
Variable p : text.
Hypothesis a_not_nl : a ≠ nl.
Hypothesis a_not_tick : a ≠ tick.
Hypothesis a_not_word : is_word a = false.
Hypothesis p_no_nl : Forall (fun c => c ≠ nl) p.
Hypothesis p_no_tick : Forall (fun c => c ≠ tick) p.

Lemma free_f4_conv (s : text) :
  free (a :: p) (f4 s) = true → free (a :: p) s = true.
Proof.
  induction s as [s IH] using text_length_ind.
  destruct s as [|c r]; [auto|].
  destruct (m_fence_close (c :: r)) as [?|] eqn:E.
  - apply m_fence_close_Some in E as (x & Es & _). rewrite Es.
    rewrite f4_match. intros Hfree.
    change (nl :: fence ++ f4 x) with ((nl :: fence) ++ f4 x) in Hfree.
    apply free_app_r in Hfree.
    apply (free_chars a p (nl :: nl :: fence)).
    + repeat constructor; auto.
    + apply IH; [|exact Hfree]. rewrite Es. simpl. lia.
  - rewrite (f4_nomatch c r E). intros Hfree.
    apply free_cons in Hfree as [Hp Hfree]. apply free_cons.
    split; [|apply IH; [simpl; lia | exact Hfree]].
    destruct (strip_prefix (a :: p) (c :: r)) as [z|] eqn:Ez; [|reflexivity].
    exfalso. apply strip_prefix_Some in Ez.
    rewrite <- (f4_nomatch c r E), Ez, f4_pass, strip_prefix_app in Hp
      by (constructor; auto).
    discriminate.
Qed.

Lemma free_f3_conv (s : text) :
  free (a :: p) (f3 s) = true → free (a :: p) s = true.
Proof.
  induction s as [s IH] using text_length_ind.
  destruct s as [|c r]; [auto|].
  destruct (m_fence_open (c :: r)) as [?|] eqn:E.
  - apply m_fence_open_Some in E as (w & x & Es & Hw & _). rewrite Es.
    rewrite f3_match by exact Hw. intros Hfree.
    rewrite !app_assoc in Hfree. apply free_app_r in Hfree.
    change (nl :: nl :: x) with ([nl; nl] ++ x).
    rewrite !app_assoc. apply free_chars.
    + repeat (apply Forall_app; split).
      * repeat constructor; auto.
      * eapply Forall_impl; [exact Hw|]. simpl. intros c' Hc' ->. congruence.
      * repeat constructor; auto.
    + apply IH; [|exact Hfree]. rewrite Es. simpl.
      rewrite ?length_app. simpl. lia.
  - rewrite (f3_nomatch c r E). intros Hfree.
    apply free_cons in Hfree as [Hp Hfree]. apply free_cons.
    split; [|apply IH; [simpl; lia | exact Hfree]].
    destruct (strip_prefix (a :: p) (c :: r)) as [z|] eqn:Ez; [|reflexivity].
    exfalso. apply strip_prefix_Some in Ez.
    rewrite <- (f3_nomatch c r E), Ez, f3_pass, strip_prefix_app in Hp
      by (constructor; auto).
    discriminate.
Qed.

End MarkerKept.

Lemma free_open_marker (s : text) :
  nomatch m_open_marker s = true → free (lit "[code]") s = true.
Proof.
  induction s as [|c r IH]; [auto|]. intros H.
  apply nomatch_cons in H as [Hm H]. apply free_cons. split; [|auto].
  unfold m_open_marker in Hm.
  destruct (strip_prefix (lit "[code]") (c :: r)) as [z|]; [|reflexivity].
  destruct (span is_space z). discriminate.
Qed.

Lemma free_close_marker (s : text) :
  nomatch m_close_marker s = true → free (lit "[/code]") s = true.
Proof.
  induction s as [|c r IH]; [auto|]. intros H.
  apply nomatch_cons in H as [Hm H]. apply free_cons. split; [|auto].
  destruct (strip_prefix (lit "[/code]") (c :: r)) as [z|] eqn:Ez;
    [|reflexivity].
  exfalso. apply strip_prefix_Some in Ez. rewrite Ez in Hm.
  assert (Hs : span is_space (lit "[/code]" ++ z) = ([], lit "[/code]" ++ z))
    by reflexivity.
  unfold m_close_marker in Hm. rewrite Hs, strip_prefix_app in Hm.
  discriminate.
Qed.

(** *** The fence patterns, from the output back to the input *)

Lemma f4_keeps_nl (r : text) : ∃ z, f4 (nl :: r) = nl :: z.
Proof.
  destruct (m_fence_close (nl :: r)) as [?|] eqn:E.
  - apply m_fence_close_Some in E as (x & Es & _). rewrite Es, f4_match. eauto.
  - rewrite f4_nomatch by exact E. eauto.
Qed.

Lemma m_fence_close_not_fence (r : text) :
  strip_prefix fence r = None → m_fence_close (nl :: nl :: r) = None.
Proof.
  intros H. destruct (m_fence_close _) as [?|] eqn:E; [|reflexivity].
  apply m_fence_close_Some in E as (x & Es & _).
  assert (r = fence ++ x) as -> by (injection Es as Es; exact Es).
  rewrite strip_prefix_app in H. discriminate.
Qed.

(** An opening pattern that no fence follows is an opening pattern in
    the output of the closing substitution. *)
Lemma f4_keeps_open_text (s : text) :
  m_fence_open_text s ≠ None → m_fence_open (f4 s) ≠ None.
Proof.
  destruct (m_fence_open_text s) as [?|] eqn:E; [|contradiction]. intros _.
  apply m_fence_open_text_Some in E as (w & r & -> & Hw & Hr).
  rewrite app_assoc, f4_pass.
  2:{ apply Forall_app. split; [|apply words_not_nl, Hw].
      repeat constructor; discriminate. }
  rewrite f4_nomatch by (apply m_fence_close_not_fence, Hr).
  destruct (f4_keeps_nl r) as [z ->].
  rewrite <- app_assoc, m_fence_open_intro by exact Hw. discriminate.
Qed.

Lemma f4_keeps_open_text_after (q x : text) :
  Forall (fun c => c ≠ nl) q →
  m_fence_open (q ++ f4 x) = None → m_fence_open_text (q ++ x) = None.
Proof.
  intros Hq H.
  destruct (m_fence_open_text (q ++ x)) as [?|] eqn:E; [|reflexivity].
  exfalso. apply (f4_keeps_open_text (q ++ x)); [rewrite E; discriminate|].
  rewrite f4_pass by exact Hq. exact H.
Qed.

(** Three newlines before a fence leave a closing pattern. *)
Lemma f4_keeps_blank (z : text) :
  m_fence_close (f4 (nl :: nl :: nl :: fence ++ z)) ≠ None.
Proof.
  rewrite f4_nomatch by reflexivity. rewrite f4_match.
  change (m_fence_close (nl :: nl :: fence ++ f4 z))
    with (Some (5, nl :: fence)).
  discriminate.
Qed.

(** Where the closing substitution leaves neither fence pattern, every
    opening pattern had a fence after it and no three newlines stood
    before a fence. *)
Lemma f4_settled_conv (s : text) :
  nomatch m_fence_open (f4 s) = true → nomatch m_fence_close (f4 s) = true →
  nomatch m_fence_open_text s = true
  ∧ free (nl :: nl :: nl :: fence) s = true.
Proof.
  induction s as [s IH] using text_length_ind.
  destruct s as [|c r]; [auto|].
  destruct (m_fence_close (c :: r)) as [?|] eqn:E.
  - apply m_fence_close_Some in E as (x & Es & _). rewrite Es.
    rewrite f4_match. intros H1 H2.
    destruct (IH x) as [IH1 IH2].
    { rewrite Es. simpl. lia. }
    { change (nl :: fence ++ f4 x) with ((nl :: fence) ++ f4 x) in H1.
      eapply nomatch_app_r; eauto. }
    { change (nl :: fence ++ f4 x) with ((nl :: fence) ++ f4 x) in H2.
      eapply nomatch_app_r; eauto. }
    change fence with [tick; tick; tick] in *. cbn [app] in *.
    apply nomatch_cons in H1 as [_ H1].
    apply nomatch_cons in H1 as [Ha H1]. apply nomatch_cons in H1 as [Hb H1].
    apply nomatch_cons in H1 as [Hc _].
    split.
    + apply nomatch_cons.
      split; [apply m_fence_open_text_head; discriminate|].
      apply nomatch_cons.
      split; [apply m_fence_open_text_head; discriminate|].
      apply nomatch_cons. split.
      { apply (f4_keeps_open_text_after [tick; tick; tick] x);
          [repeat constructor; discriminate | exact Ha]. }
      apply nomatch_cons. split.
      { apply (f4_keeps_open_text_after [tick; tick] x);
          [repeat constructor; discriminate | exact Hb]. }
      apply nomatch_cons. split; [|exact IH1].
      apply (f4_keeps_open_text_after [tick] x);
        [repeat constructor; discriminate | exact Hc].
    + do 5 (apply free_cons; split; [reflexivity|]). exact IH2.
  - rewrite (f4_nomatch c r E). intros H1 H2.
    apply nomatch_cons in H1 as [H1h H1]. apply nomatch_cons in H2 as [H2h H2].
    destruct (IH r) as [IH1 IH2]; [simpl; lia | exact H1 | exact H2 |].
    split.
    + apply nomatch_cons. split; [|exact IH1].
      destruct (m_fence_open_text (c :: r)) as [?|] eqn:E3; [|reflexivity].
      exfalso. apply (f4_keeps_open_text (c :: r)); [rewrite E3; discriminate|].
      rewrite (f4_nomatch c r E). exact H1h.
    + apply free_cons. split; [|exact IH2].
      destruct (strip_prefix _ (c :: r)) as [z|] eqn:Ez; [|reflexivity].
      exfalso. apply strip_prefix_Some in Ez. apply (f4_keeps_blank z).
      change (nl :: nl :: nl :: fence ++ z)
        with ((nl :: nl :: nl :: fence) ++ z).
      rewrite <- Ez, (f4_nomatch c r E). exact H2h.
Qed.

Lemma m_fence_open_blank_Some (s : text) (x : nat * text) :
  m_fence_open_blank s = Some x →
  ∃ w r, s = fence ++ w ++ nl :: nl :: nl :: r
         ∧ Forall (fun c => is_word c = true) w
         ∧ strip_prefix fence r = None.
Proof.
  unfold m_fence_open_blank.
  destruct (strip_prefix fence s) as [r|] eqn:E; [|discriminate].
  destruct (span is_word r) as [w r'] eqn:Es.
  destruct (strip_prefix [nl; nl; nl] r') as [r''|] eqn:En; [|discriminate].
  destruct (strip_prefix fence r'') eqn:Ef; [discriminate|].
  intros _. exists w, r''.
  apply strip_prefix_Some in E, En. apply span_app in Es as (-> & Hw & _).
  subst. auto.
Qed.

Lemma m_fence_open_blank_head (c : ascii) (r : text) :
  c ≠ tick → m_fence_open_blank (c :: r) = None.
Proof.
  intros Hc. destruct (m_fence_open_blank (c :: r)) as [x|] eqn:E; [|reflexivity].
  apply m_fence_open_blank_Some in E as (w & r' & [= -> _] & _). contradiction.
Qed.

Lemma nomatch_open_blank_chars (x y : text) :
  Forall (fun c => c ≠ tick) x → nomatch m_fence_open_blank y = true →
  nomatch m_fence_open_blank (x ++ y) = true.
Proof.
  intros Hx Hy. induction Hx as [|c x Hc _ IH]; [exact Hy|].
  rewrite <- app_comm_cons. apply nomatch_cons.
  split; [apply m_fence_open_blank_head; exact Hc | exact IH].
Qed.

Lemma m_fence_open_blank_open (s : text) :
  m_fence_open_blank s ≠ None → m_fence_open s ≠ None.
Proof.
  destruct (m_fence_open_blank s) as [x|] eqn:E; [|contradiction]. intros _.
  apply m_fence_open_blank_Some in E as (w & r & -> & Hw & _).
  rewrite m_fence_open_intro by exact Hw. discriminate.
Qed.

Lemma m_fence_open_text_intro (w r : text) :
  Forall (fun c => is_word c = true) w → strip_prefix fence r = None →
  m_fence_open_text (fence ++ w ++ nl :: nl :: r) ≠ None.
Proof.
  intros Hw Hr. unfold m_fence_open_text. rewrite strip_prefix_app.
  rewrite (span_intro is_word w (nl :: nl :: r) Hw eq_refl).
  change (strip_prefix [nl; nl] (nl :: nl :: r)) with (Some r).
  cbv beta iota. rewrite Hr. discriminate.
Qed.

(** An opening fence with a newline too many leaves an opening pattern
    that no fence follows. *)
Lemma f3_keeps_blank (s : text) :
  m_fence_open_blank s ≠ None → m_fence_open_text (f3 s) ≠ None.
Proof.
  destruct (m_fence_open_blank s) as [?|] eqn:E; [|contradiction]. intros _.
  apply m_fence_open_blank_Some in E as (w & z & -> & Hw & Hz).
  rewrite f3_match by exact Hw.
  rewrite (f3_nomatch nl z) by (apply m_fence_open_head; discriminate).
  apply (m_fence_open_text_intro w (f3 z) Hw).
  destruct (strip_prefix fence (f3 z)) as [y|] eqn:Ef; [|reflexivity].
  exfalso. apply strip_prefix_Some in Ef. apply f3_fence_head in Ef as [y' ->].
  rewrite strip_prefix_app in Hz. discriminate.
Qed.

(** Two ways of cutting a text at a character [c], the first of them at
    its first [c]. *)
Lemma first_char_split (c : ascii) (q x rest rest' : text) :
  Forall (fun d => d ≠ c) q → q ++ c :: rest = x ++ c :: rest' →
  (x = q ∧ rest = rest') ∨ ∃ x2, x = q ++ c :: x2 ∧ rest = x2 ++ c :: rest'.
Proof.
  intros Hq. revert x. induction Hq as [|d q Hd _ IH]; intros x E.
  - destruct x as [|h x]; simpl in E.
    + injection E as ->. left; auto.
    + injection E as <- ->. right. exists x. auto.
  - destruct x as [|h x]; simpl in E.
    + injection E as -> _. contradiction.
    + injection E as <- E.
      destruct (IH x E) as [[-> ->] | (x2 & -> & ->)];
        [left; auto | right; eauto].
Qed.

(** Where the opening substitution leaves no opening pattern without a
    fence after it and no three newlines before a fence, no opening
    fence had a newline too many, and three newlines before a fence came
    directly after an opening fence. *)
Lemma f3_settled_conv (s : text) :
  nomatch m_fence_open_text (f3 s) = true →
  free (nl :: nl :: nl :: fence) (f3 s) = true →
  nomatch m_fence_open_blank s = true ∧ blank_after_open_only s.
Proof.
  induction s as [s IH] using text_length_ind.
  destruct s as [|c r].
  { intros _ _. split; [reflexivity|]. intros x y E. destruct x; discriminate E. }
  destruct (m_fence_open (c :: r)) as [?|] eqn:E.
  - apply m_fence_open_Some in E as (w & x & Es & Hw & _). rewrite Es.
    intros H1 H2.
    assert (Hk := f3_keeps_blank (fence ++ w ++ nl :: nl :: x)).
    rewrite f3_match in H1, H2, Hk by exact Hw.
    assert (Hhead : m_fence_open_blank (fence ++ w ++ nl :: nl :: x) = None).
    { destruct (m_fence_open_blank _) as [?|] eqn:Eb; [|reflexivity].
      exfalso. apply Hk; [discriminate|].
      change fence with [tick; tick; tick] in H1. cbn [app] in H1.
      apply nomatch_cons in H1 as [H1 _]. exact H1. }
    clear Hk.
    destruct (IH x) as [IH1 IH2].
    { rewrite Es. simpl. rewrite ?length_app. simpl. lia. }
    { rewrite !app_assoc in H1. eapply nomatch_app_r; eauto. }
    { rewrite !app_assoc in H2. eapply free_app_r; eauto. }
    assert (Hw' : ∀ z, w ++ nl :: nl :: x ≠ tick :: z).
    { intros z Hz. destruct Hw as [|c' w Hc _]; [discriminate|].
      injection Hz as -> _. discriminate. }
    split.
    + change fence with [tick; tick; tick] in *. cbn [app] in *.
      apply nomatch_cons. split; [exact Hhead|].
      apply nomatch_cons. split.
      { match goal with
        | |- ?m = None => destruct m as [?|] eqn:Eb; [|reflexivity]
        end.
        exfalso. apply m_fence_open_blank_Some in Eb as (w' & z' & Ee & _).
        change fence with [tick; tick; tick] in Ee. cbn [app] in Ee.
        injection Ee as Ee. eapply Hw'; eauto. }
      apply nomatch_cons. split.
      { match goal with
        | |- ?m = None => destruct m as [?|] eqn:Eb; [|reflexivity]
        end.
        exfalso. apply m_fence_open_blank_Some in Eb as (w' & z' & Ee & _).
        change fence with [tick; tick; tick] in Ee. cbn [app] in Ee.
        injection Ee as Ee. eapply Hw'; eauto. }
      change (nl :: nl :: x) with ([nl; nl] ++ x). rewrite app_assoc.
      apply nomatch_open_blank_chars; [|exact IH1].
      apply Forall_app. split; [apply words_not_tick, Hw|].
      repeat constructor; discriminate.
    + intros x1 y1 Ex.
      assert (Ex' : (fence ++ w) ++ nl :: (nl :: x)
                    = x1 ++ nl :: (nl :: nl :: fence ++ y1))
        by (rewrite <- app_assoc; exact Ex).
      apply first_char_split in Ex' as [[-> _] | (x2 & -> & Ex2)].
      * exists [], w. auto.
      * destruct x2 as [|d x3].
        -- exfalso.
           assert (x = [nl; nl] ++ fence ++ y1) as ->
             by (injection Ex2 as Ex2; exact Ex2).
           rewrite (f3_pass [nl; nl]) in H2
             by (repeat constructor; discriminate).
           destruct (f3_keeps_fence y1) as [z Ez]. rewrite Ez in H2.
           assert (Ho : free (nl :: nl :: nl :: fence)
                          ((fence ++ w) ++ (nl :: nl :: nl :: fence) ++ z)
                        = false) by (apply free_occurs; discriminate).
           assert (Hf : true = false) by (rewrite <- H2; exact Ho).
           discriminate Hf.
        -- assert (d = nl) as -> by (injection Ex2 as Ed _; congruence).
           assert (Ex3 : x = x3 ++ [nl; nl; nl] ++ fence ++ y1)
             by (injection Ex2 as Ex2; exact Ex2).
           destruct (IH2 x3 y1 Ex3) as (x0 & w0 & -> & Hw0).
           exists (fence ++ w ++ nl :: nl :: x0), w0.
           split; [rewrite <- !app_assoc; reflexivity | exact Hw0].
      * apply Forall_app. split; [|apply words_not_nl, Hw].
        repeat constructor; discriminate.
  - rewrite (f3_nomatch c r E). intros H1 H2.
    apply nomatch_cons in H1 as [H1h H1]. apply free_cons in H2 as [H2h H2].
    destruct (IH r) as [IH1 IH2]; [simpl; lia | exact H1 | exact H2 |].
    split.
    + apply nomatch_cons. split; [|exact IH1].
      destruct (m_fence_open_blank (c :: r)) as [?|] eqn:Eb; [|reflexivity].
      exfalso.
      apply (m_fence_open_blank_open (c :: r)); [rewrite Eb; discriminate|].
      exact E.
    + intros x1 y1 Ex. destruct x1 as [|d x1].
      * exfalso.
        assert (Ex' : c :: r = [nl; nl; nl] ++ fence ++ y1) by exact Ex.
        rewrite <- (f3_nomatch c r E), Ex' in H2h.
        rewrite f3_pass in H2h by (repeat constructor; discriminate).
        destruct (f3_keeps_fence y1) as [z Ez]. rewrite Ez in H2h.
        change ([nl; nl; nl] ++ fence ++ z)
          with ((nl :: nl :: nl :: fence) ++ z) in H2h.
        rewrite strip_prefix_app in H2h. discriminate.
      * assert (d = c) as -> by (injection Ex as Ed _; congruence).
        assert (Er : r = x1 ++ [nl; nl; nl] ++ fence ++ y1)
          by (injection Ex as Ex; exact Ex).
        destruct (IH2 x1 y1 Er) as (x0 & w0 & -> & Hw0).
        exists (c :: x0), w0. auto.
Qed.

(** *** The condition on the reversed text, once more *)

Lemma nomatch_false (m : matcher) (l : text) :
  nomatch m l = false → ∃ a b, l = a ++ b ∧ m b ≠ None.
Proof.
  induction l as [|c r IH]; [discriminate|]. simpl.
  destruct (m (c :: r)) as [?|] eqn:E.
  - intros _. exists [], (c :: r). rewrite E. split; [reflexivity | discriminate].
  - intros H. destruct (IH H) as (a & b & -> & Hb). exists (c :: a), b. auto.
Qed.

Lemma m_fence_close_blank_Some (s : text) (x : nat * text) :
  m_fence_close_blank s = Some x →
  ∃ w r, s = fence ++ [nl; nl; nl] ++ w ++ r
         ∧ Forall (fun c => is_word c = true) w
         ∧ match r with [] => True | c :: _ => is_word c = false end
         ∧ strip_prefix fence r = None.
Proof.
  unfold m_fence_close_blank.
  destruct (strip_prefix (fence ++ [nl; nl; nl]) s) as [r|] eqn:E;
    [|discriminate].
  destruct (span is_word r) as [w r'] eqn:Es.
  destruct (strip_prefix fence r') eqn:Ef; [discriminate|].
  intros _. exists w, r'.
  apply strip_prefix_Some in E. apply span_app in Es as (-> & Hw & Hr).
  subst. rewrite <- app_assoc. auto.
Qed.

Lemma close_blank_rev_conv (s : text) :
  blank_after_open_only s → nomatch m_fence_close_blank (rev s) = true.
Proof.
  intros HQ. destruct (nomatch _ _) eqn:E; [reflexivity|]. exfalso.
  apply nomatch_false in E as (a & b & Es & Hb).
  destruct (m_fence_close_blank b) as [?|] eqn:Eb; [|contradiction]. clear Hb.
  apply m_fence_close_blank_Some in Eb as (w & r & -> & Hw & Hc & Hr).
  assert (Es' : s = (rev r ++ rev w) ++ [nl; nl; nl] ++ fence ++ rev a).
  { rewrite <- (rev_involutive s), Es.
    rewrite !rev_app_distr, <- !app_assoc. reflexivity. }
  destruct (HQ _ _ Es') as (x0 & w0 & E0 & Hw0).
  apply (f_equal (@rev ascii)) in E0.
  rewrite !rev_app_distr, !rev_involutive, <- app_assoc in E0.
  change (rev fence) with [tick; tick; tick] in E0. cbn [app] in E0.
  destruct r as [|c r].
  - rewrite app_nil_r in E0. subst w. apply Forall_app in Hw as [_ Hw].
    inversion Hw. discriminate.
  - apply word_run_unique in E0 as (_ & -> & ->);
      [| exact Hw | apply Forall_rev, Hw0 | exact Hc | reflexivity].
    change (tick :: tick :: tick :: rev x0) with (fence ++ rev x0) in Hr.
    rewrite strip_prefix_app in Hr. discriminate.
Qed.

(** C1, as the code has it: a second cleanup pass changes nothing
    exactly when the text left by the two marker substitutions of the
    first pass holds no [[code]] or [[/code]] marker, no opening fence
    (three backticks and word characters) followed by three newlines
    other than three newlines with a fence right after them, and no
    three newlines before a fence other than three newlines right after
    an opening fence.  Runs of newlines elsewhere, in prose or inside a
    code block, do not matter. *)
Theorem post_process_idempotent_when_settled (t : text) :
  post_process (post_process t) = post_process t
  ↔ free (lit "[code]") (markers_stripped t) = true
    ∧ free (lit "[/code]") (markers_stripped t) = true
    ∧ nomatch m_fence_open_blank (markers_stripped t) = true
    ∧ nomatch m_fence_close_blank (rev (markers_stripped t)) = true.
Proof.
  rewrite (post_process_eq t). set (u := markers_stripped t). split.
  - intros H.
    destruct (post_process_fixed_nomatch _ H) as (N1 & N2 & N3 & N4).
    destruct (f4_settled_conv (f3 u) N3 N4) as [H3 Hnl3].
    destruct (f3_settled_conv u H3 Hnl3) as [Hblank HQ].
    split; [|split; [|split; [exact Hblank | apply close_blank_rev_conv, HQ]]].
    + apply (free_f3_conv "["%char (lit "code]"));
        try discriminate; try reflexivity;
        try (repeat constructor; discriminate).
      apply (free_f4_conv "["%char (lit "code]"));
        try discriminate; try (repeat constructor; discriminate).
      apply free_open_marker, N1.
    + apply (free_f3_conv "["%char (lit "/code]"));
        try discriminate; try reflexivity;
        try (repeat constructor; discriminate).
      apply (free_f4_conv "["%char (lit "/code]"));
        try discriminate; try (repeat constructor; discriminate).
      apply free_close_marker, N2.
  - intros (Hopen & Hclose & Hblank & Hrev).
    destruct (f3_settled_adj u Hblank (close_blank_rev u Hrev)) as [H3 Hnl3].
    destruct (f4_settled_adj (f3 u) Hnl3 H3) as [H43 H44].
    assert (Ho4 : free (lit "[code]") (f4 (f3 u)) = true).
    { apply free_f4, free_f3; try exact Hopen; try discriminate;
        try reflexivity; repeat constructor; discriminate. }
    assert (Hc4 : free (lit "[/code]") (f4 (f3 u)) = true).
    { apply free_f4, free_f3; try exact Hclose; try discriminate;
        try reflexivity; repeat constructor; discriminate. }
    rewrite post_process_eq. unfold markers_stripped.
    rewrite (sub_nomatch m_open_marker) by (apply nomatch_open_marker, Ho4).
    rewrite (sub_nomatch m_close_marker) by (apply nomatch_close_marker, Hc4).
    rewrite (sub_nomatch m_fence_open) by exact H43.
    rewrite (sub_nomatch m_fence_close) by exact H44.
    reflexivity.
Qed.

(** Renderer output with both markers, three newlines in the prose,
    blank lines inside the fences and an empty block of three
    newlines. *)
Lemma post_process_idempotent_witness :
  let t := lit "Run:" ++ [nl; nl; nl] ++ lit "this [code] " ++ fence ++ lit "py"
           ++ [nl; nl] ++ lit "x=1" ++ [nl; nl; nl] ++ lit "y=2"
           ++ [nl; nl] ++ fence ++ [nl] ++ lit " [/code] done" ++ [nl]
           ++ fence ++ [nl; nl; nl] ++ fence in
  post_process (post_process t) = post_process t.
Proof.
  intros t. apply (proj2 (post_process_idempotent_when_settled t)).
  repeat split; reflexivity.
Defined.

(** C1 as stated fails: a fence followed by three newlines loses one
    newline in each of two passes. *)
Lemma post_process_not_idempotent :
  let t := fence ++ [nl; nl; nl] in
  post_process t = fence ++ [nl; nl]
  ∧ post_process (post_process t) = fence ++ [nl]
  ∧ post_process (post_process t) ≠ post_process t.
Proof. repeat split; try reflexivity. discriminate. Qed.

(** ** The whole of [clean_html]'s tree work *)

Lemma oids_prune_sublist (dead : nat → bool) (n : node) :
  oids (prune dead n) `sublist_of` oids n.
Proof.
  induction n as [j s | j nm cl a ch IH] using node_ind'; [reflexivity|].
  rewrite !oids_eq. simpl. apply sublist_skip.
  induction IH as [|c ch Hc _ IHch]; simpl; [constructor|].
  rewrite flat_map_app. apply sublist_app; [|exact IHch].
  destruct (dead (oid c)); simpl; [apply sublist_nil_l|].
  rewrite app_nil_r. exact Hc.
Qed.

Lemma wf_remove_unwanted (cfg : ConversionConfig) (s : soup) :
  wf_soup s → wf_soup (remove_unwanted cfg s).
Proof.
  intros [HN Hlt]. unfold wf_soup, remove_unwanted. simpl.
  rewrite fold_remove_prune. split.
  - eapply sublist_NoDup; [exact HN | apply oids_prune_sublist].
  - rewrite Forall_forall in *. intros x Hx. apply Hlt.
    eapply oids_prune_incl; eauto.
Qed.

Lemma oids_replace_where (r : nat → option node) (t : node) (x : nat) :
  x ∈ oids (replace_where r t) →
  x ∈ oids t ∨ ∃ j new, r j = Some new ∧ x ∈ oids new.
Proof.
  revert x. induction t as [j s | j nm cl a ch IH] using node_ind';
    intros x; [auto|].
  rewrite !oids_eq. simpl. rewrite !elem_of_cons.
  intros [E | H]; [auto|].
  apply elem_of_flat_map in H as (k & Hk & Hx).
  apply list_elem_of_fmap in Hk as (c & -> & Hc).
  rewrite Forall_forall in IH.
  destruct (r (oid c)) as [new|] eqn:E; [eauto|].
  destruct (IH c Hc x Hx) as [H | H]; [|auto].
  left. right. apply elem_of_flat_map. eauto.
Qed.

Lemma tag_name_replace_where (r : nat → option node) (n : node) :
  tag_name (replace_where r n) = tag_name n.
Proof. destruct n; reflexivity. Qed.

Lemma descendants_replace_where (r : nat → option node) (t n : node) :
  n ∈ descendants (replace_where r t) →
  (∃ n0, n0 ∈ descendants t ∧ tag_name n = tag_name n0)
  ∨ ∃ j new, r j = Some new ∧ n ∈ subtree new.
Proof.
  revert n. induction t as [j s | j nm cl a ch IH] using node_ind';
    intros n Hn; [inversion Hn|].
  apply in_descendants in Hn as (k & Hk & Hn). simpl in Hk.
  apply list_elem_of_fmap in Hk as (c & -> & Hc).
  rewrite Forall_forall in IH.
  destruct (r (oid c)) as [new|] eqn:E; [eauto|].
  rewrite subtree_eq in Hn. apply elem_of_cons in Hn as [-> | Hn].
  - left. exists c. split; [|apply tag_name_replace_where].
    apply in_descendants. exists c. split; [exact Hc | apply in_subtree_self].
  - destruct (IH c Hc n Hn) as [(n0 & Hn0 & Et) | H]; [|auto].
    left. exists n0. split; [|exact Et].
    apply in_descendants. exists c. split; [exact Hc|].
    rewrite subtree_eq. right. exact Hn0.
Qed.

Lemma oids_local (f : node → node) (n : node) :
  local_mutation f → oids (f n) = oids n.
Proof.
  intros Hf. rewrite !oids_eq, local_oid, local_children by exact Hf.
  reflexivity.
Qed.

Lemma oids_map_where (sel : nat → bool) (f : node → node) (t : node) :
  local_mutation f → oids (map_where sel f t) = oids t.
Proof.
  intros Hf.
  induction t as [j s | j nm cl a ch IH] using node_ind'; [reflexivity|].
  rewrite !oids_eq. simpl. f_equal.
  induction IH as [|c ch Hc _ IHch]; simpl; [reflexivity|].
  rewrite IHch. f_equal.
  destruct (sel (oid c)); [rewrite oids_local by exact Hf|]; exact Hc.
Qed.

Lemma tag_name_local (f : node → node) (n : node) :
  local_mutation f → tag_name (f n) = tag_name n.
Proof. intros [g Hg]. rewrite Hg. destruct n; reflexivity. Qed.

Lemma tag_name_map_where (sel : nat → bool) (f : node → node) (n : node) :
  tag_name (map_where sel f n) = tag_name n.
Proof. destruct n; reflexivity. Qed.

Lemma descendants_map_where (sel : nat → bool) (f : node → node)
    (t n : node) :
  local_mutation f → n ∈ descendants (map_where sel f t) →
  ∃ n0, n0 ∈ descendants t ∧ tag_name n = tag_name n0.
Proof.
  intros Hf. revert n.
  induction t as [j s | j nm cl a ch IH] using node_ind';
    intros n Hn; [inversion Hn|].
  apply in_descendants in Hn as (k & Hk & Hn). simpl in Hk.
  apply list_elem_of_fmap in Hk as (c & -> & Hc).
  rewrite Forall_forall in IH.
  assert (Hsub : n ∈ subtree (map_where sel f c) ∨
                 n = f (map_where sel f c)).
  { destruct (sel (oid c)); [|auto].
    rewrite subtree_eq in Hn. apply elem_of_cons in Hn as [-> | Hn]; [auto|].
    left. rewrite subtree_eq. right.
    unfold descendants in *. rewrite local_children in Hn by exact Hf.
    exact Hn. }
  assert (Hcc : c ∈ descendants (Elem j nm cl a ch)).
  { apply in_descendants. exists c. split; [exact Hc | apply in_subtree_self]. }
  destruct Hsub as [Hsub | ->].
  - rewrite subtree_eq in Hsub. apply elem_of_cons in Hsub as [-> | Hsub].
    + exists c. split; [exact Hcc | apply tag_name_map_where].
    + destruct (IH c Hc n Hsub) as (n0 & Hn0 & Et).
      exists n0. split; [|exact Et].
      apply in_descendants. exists c. split; [exact Hc|].
      rewrite subtree_eq. right. exact Hn0.
  - exists c. split; [exact Hcc|].
    rewrite tag_name_local, tag_name_map_where by exact Hf. reflexivity.
Qed.

Lemma convert_relative_urls_frame (s : soup) (base_url : string) :
  oids (root (_convert_relative_urls s base_url)) = oids (root s)
  ∧ ∀ n, n ∈ descendants (root (_convert_relative_urls s base_url)) →
         ∃ n0, n0 ∈ descendants (root s) ∧ tag_name n = tag_name n0.
Proof.
  unfold _convert_relative_urls. simpl.
  generalize (find_all ["a"; "img"] (root s)). intros l.
  generalize (root s). induction l as [|e l IH]; intros t; simpl.
  - split; [reflexivity | eauto].
  - destruct (IH (modify_oid (oid e) (rewrite_tag base_url) t)) as [IH1 IH2].
    rewrite modify_oid_map_where in *. split.
    + rewrite IH1. apply oids_map_where, rewrite_tag_local.
    + intros n Hn. destruct (IH2 n Hn) as (n1 & Hn1 & E1).
      apply descendants_map_where in Hn1 as (n0 & Hn0 & E0);
        [|apply rewrite_tag_local].
      exists n0. split; [exact Hn0 | congruence].
Qed.

Lemma has_name_tag (names : list string) (n n0 : node) :
  tag_name n = tag_name n0 → has_name names n = has_name names n0.
Proof. unfold has_name. intros ->. reflexivity. Qed.

Lemma has_name_pre (n : node) :
  has_name ["pre"] n = true → tag_name n = Some "pre".
Proof.
  unfold has_name. destruct (tag_name n) as [nm|]; [|discriminate].
  intros H. apply bool_decide_eq_true_1, list_elem_of_singleton in H.
  congruence.
Qed.

(** C6: an element whose tag is in [remove_elements] leaves the tree
    with everything below it, wherever it stands: neither the element
    nor any node of its subtree is in the tree after the removal loop,
    nor in the tree that [clean_html] ends with, and no element with
    such a tag is in that tree. *)
Theorem removed_subtrees_leave_no_trace
    (cfg : ConversionConfig) (url : option string) (s s' : soup)
    (e d : node) :
  wf_soup s →
  e ∈ descendants (root s) →
  has_name (remove_elements cfg) e = true →
  d ∈ subtree e →
  clean_tree cfg url s = Ok s' →
  (oid d ∉ oids (root (remove_unwanted cfg s)))
  ∧ (oid d ∉ oids (root s'))
  ∧ ∀ n, n ∈ descendants (root s') →
         has_name (remove_elements cfg) n = false.
Proof.
  intros Hwf He Hname Hd Hclean.
  destruct (removal_loop_leaves_no_trace cfg s e d (proj1 Hwf) He Hname Hd)
    as [HA HB].
  split; [exact HA|].
  assert (Hwf1 := wf_remove_unwanted cfg s Hwf).
  unfold clean_tree in Hclean.
  destruct (_process_code_blocks cfg (remove_unwanted cfg s)) as [s2|] eqn:E2;
    [|discriminate].
  destruct (process_code_blocks_pass _ _ _ Hwf1 E2) as (es & Hes & Hroot).
  assert (Hnew : ∀ j new, edit_for es j = Some new →
            ∃ pre k txt, pre ∈ descendants (root (remove_unwanted cfg s))
              ∧ tag_name pre = Some "pre"
              ∧ next_oid s ≤ k ∧ new = new_pre k txt).
  { intros j new Hj. apply edit_for_Some in Hj.
    apply edits_sound in Hes. rewrite Forall_forall in Hes.
    destruct (Hes _ Hj) as (pre & code & lang & k & Hpre & _ & _ & _ & Hk & En).
    apply in_find_all in Hpre as [Hpre Hp]. simpl in En, Hk.
    exists pre, k, (fenced lang (get_text code)).
    auto using has_name_pre. }
  assert (HC : oid d ∉ oids (root s2)).
  { rewrite Hroot. intros Hin.
    apply oids_replace_where in Hin as [Hin | (j & new & Hj & Hin)];
      [contradiction|].
    destruct (Hnew _ _ Hj) as (pre & k & txt & _ & _ & Hk & ->).
    assert (Hlt : oid d < next_oid s).
    { destruct Hwf as [_ Hlt]. rewrite Forall_forall in Hlt. apply Hlt.
      apply in_oids. rewrite subtree_eq. right.
      apply in_descendants in He as (c & Hc & He).
      apply in_descendants. exists c. split; [exact Hc|].
      eapply subtree_trans; eauto. }
    rewrite oids_new_pre in Hin. apply elem_of_cons in Hin as [E | Hin];
      [lia|]. apply list_elem_of_singleton in Hin. lia. }
  assert (HD : ∀ n, n ∈ descendants (root s2) →
                    has_name (remove_elements cfg) n = false).
  { intros n Hn. rewrite Hroot in Hn.
    apply descendants_replace_where in Hn
      as [(n0 & Hn0 & Et) | (j & new & Hj & Hn)].
    - rewrite (has_name_tag _ _ _ Et). auto.
    - destruct (Hnew _ _ Hj) as (pre & k & txt & Hpre & Hp & _ & ->).
      simpl in Hn. apply elem_of_cons in Hn as [-> | Hn].
      + transitivity (has_name (remove_elements cfg) pre); [|auto].
        apply has_name_tag. rewrite Hp. reflexivity.
      + apply list_elem_of_singleton in Hn. subst n. reflexivity. }
  simpl in Hclean.
  destruct (py_or url (base_url cfg)) as [[|c r]|];
    injection Hclean as <-; auto.
  destruct (convert_relative_urls_frame s2 (String c r)) as [Ho Hdesc].
  split; [rewrite Ho; exact HC|].
  intros n Hn. destruct (Hdesc n Hn) as (n0 & Hn0 & Et).
  rewrite (has_name_tag _ _ _ Et). auto.
Qed.

(** A page with a [nav] holding a link: the link and its text go with
    the [nav]. *)
Lemma removed_subtrees_witness :
  let link := Elem 2 "a" None {[ "href" := "/home" ]} [Text 3 "Home"] in
  let nav := Elem 1 "nav" None ∅ [link] in
  let s := Soup (Elem 0 "[document]" None ∅
                   [nav; Elem 4 "p" None ∅ [Text 5 "Home"]]) 6 in
  let s' := Soup (Elem 0 "[document]" None ∅
                    [Elem 4 "p" None ∅ [Text 5 "Home"]]) 6 in
  (3 ∉ oids (root (remove_unwanted default_config s)))
  ∧ (3 ∉ oids (root s'))
  ∧ ∀ n, n ∈ descendants (root s') →
         has_name (remove_elements default_config) n = false.
Proof.
  intros link nav s s'.
  apply (removed_subtrees_leave_no_trace default_config
           (Some "https://example.com/") s s' nav (Text 3 "Home")).
  - split.
    + vm_compute. apply (bool_decide_unpack (NoDup _)). vm_compute. exact I.
    + vm_compute. repeat constructor.
  - apply (list_elem_of_lookup_2 _ 0). reflexivity.
  - reflexivity.
  - apply (list_elem_of_lookup_2 _ 2). reflexivity.
  - vm_compute. reflexivity.
Defined.

(** * Further properties of the converter *)

(** ** The removal loop *)

Lemma find_all_nil (names : list string) (t : node) :
  (∀ n, n ∈ descendants t → has_name names n = false) → find_all names t = [].
Proof.
  intros H. destruct (find_all names t) as [|e l] eqn:E; [reflexivity|].
  assert (He : e ∈ find_all names t) by (rewrite E; left).
  apply in_find_all in He as [He Hn]. rewrite (H e He) in Hn. discriminate.
Qed.

Lemma no_unwanted_left (cfg : ConversionConfig) (s : soup) (n : node) :
  n ∈ descendants (root (remove_unwanted cfg s)) →
  has_name (remove_elements cfg) n = false.
Proof.
  unfold remove_unwanted. simpl. rewrite fold_remove_prune. intros Hn.
  apply descendants_prune in Hn as (n0 & Hn0 & Hdead & ->).
  rewrite has_name_prune.
  destruct (has_name (remove_elements cfg) n0) eqn:E; [|reflexivity].
  apply bool_decide_eq_false_1 in Hdead. exfalso. apply Hdead.
  apply list_elem_of_fmap. exists n0. split; [reflexivity|].
  apply in_find_all. auto.
Qed.

(** X1: the removal loop is idempotent: after it no element with a
    removed tag is left, so a second run finds nothing and changes
    nothing.  A tree without such elements is returned as it is. *)
Theorem remove_unwanted_idempotent (cfg : ConversionConfig) (s : soup) :
  remove_unwanted cfg (remove_unwanted cfg s) = remove_unwanted cfg s
  ∧ ((∀ n, n ∈ descendants (root s) →
           has_name (remove_elements cfg) n = false) →
     remove_unwanted cfg s = s).
Proof.
  assert (Hid : ∀ s0, (∀ n, n ∈ descendants (root s0) →
                          has_name (remove_elements cfg) n = false) →
                      remove_unwanted cfg s0 = s0).
  { intros [t c] H. unfold remove_unwanted. simpl in *.
    rewrite (find_all_nil _ _ H). reflexivity. }
  split; [|apply Hid].
  apply Hid. intros n Hn. eapply no_unwanted_left; eauto.
Qed.

Lemma label_prune (dead : nat → bool) (n : node) :
  label (prune dead n) = label n.
Proof. destruct n; reflexivity. Qed.

(** A node on a path without dead elements stays, in pruned form. *)
Lemma prune_keeps (dead : nat → bool) (t d : node) (p : list nat) :
  at_path t p = Some d →
  Forall (fun a => dead (oid a) = false) (inner_nodes t p) →
  p = [] ∨ dead (oid d) = false →
  prune dead d ∈ subtree (prune dead t).
Proof.
  revert t. induction p as [|i p IH]; intros t Hd Hin Hend.
  - simpl in Hd. injection Hd as ->. apply in_subtree_self.
  - simpl in Hd, Hin.
    destruct (children t !! i) as [c|] eqn:Ec; [|discriminate].
    destruct t as [j s | j nm cl a ch]; simpl in Ec; [discriminate|].
    assert (Hc : c ∈ ch) by (eapply list_elem_of_lookup_2; eauto).
    assert (Hkeep : dead (oid c) = false →
                    prune dead c ∈ children (prune dead (Elem j nm cl a ch))).
    { intros Hdc. simpl. apply elem_of_flat_map. exists c.
      split; [exact Hc|]. rewrite Hdc. left. }
    destruct Hend as [? | Hend]; [discriminate|].
    rewrite subtree_eq. right. apply in_descendants.
    destruct p as [|i' p].
    + simpl in Hd. injection Hd as ->.
      exists (prune dead d). split; [auto | apply in_subtree_self].
    + apply Forall_cons in Hin as [Hdc Hin].
      exists (prune dead c). split; [auto|]. apply IH; auto.
Qed.

(** X2: the removal loop takes nothing else away: a node that has no
    removed tag itself and no element with a removed tag above it is
    still in the tree, with its identity, tag, classes, attributes or
    string. *)
Theorem kept_outside_removed
    (cfg : ConversionConfig) (s : soup) (p : list nat) (d : node) :
  NoDup (oids (root s)) →
  at_path (root s) p = Some d →
  Forall (fun a => has_name (remove_elements cfg) a = false)
         (inner_nodes (root s) p) →
  p = [] ∨ has_name (remove_elements cfg) d = false →
  ∃ d', d' ∈ subtree (root (remove_unwanted cfg s)) ∧ label d' = label d.
Proof.
  intros HN Hd Hin Hend. unfold remove_unwanted. simpl.
  rewrite fold_remove_prune.
  set (dead := fun j => bool_decide
                 (j ∈ map oid (find_all (remove_elements cfg) (root s)))).
  exists (prune dead d). split; [|apply label_prune].
  apply (prune_keeps dead (root s) d p Hd).
  - rewrite Forall_forall in *. intros a Ha. unfold dead.
    rewrite found_by_oid; eauto using inner_nodes_descendants.
  - destruct Hend as [-> | Hend]; [auto|]. right. unfold dead.
    destruct p as [|i p']; [simpl in Hd|].
    + injection Hd as <-.
      apply bool_decide_eq_false_2. intros Hr.
      apply list_elem_of_fmap in Hr as (e & Eo & He).
      apply in_find_all in He as [He _].
      apply NoDup_oids_children in HN as [Hroot _]. apply Hroot.
      rewrite Eo. apply in_descendants in He as (c & Hc & He).
      apply elem_of_flat_map. exists c. split; [exact Hc | apply in_oids, He].
    + rewrite found_by_oid; auto.
      eapply at_path_descendants; eauto.
Qed.

(** A paragraph beside a [nav]: the paragraph's text stays. *)
Lemma kept_outside_removed_witness :
  let s := Soup (Elem 0 "[document]" None ∅
                   [Elem 1 "nav" None ∅ [Text 2 "menu"];
                    Elem 3 "p" None ∅ [Text 4 "body"]]) 5 in
  ∃ d', d' ∈ subtree (root (remove_unwanted default_config s))
        ∧ label d' = label (Text 4 "body").
Proof.
  intros s.
  apply (kept_outside_removed default_config s [1; 0] (Text 4 "body")).
  - vm_compute. apply (bool_decide_unpack (NoDup _)). vm_compute. exact I.
  - reflexivity.
  - repeat constructor.
  - right. reflexivity.
Defined.

(** ** The rewriting of references *)

Lemma sans_attrs_map_where (sel : nat → bool) (f : node → node) (n : node) :
  sans_attrs (map_where sel f n) = sans_attrs n
  ∧ attrs_of (map_where sel f n) = attrs_of n
  ∧ length (children (map_where sel f n)) = length (children n).
Proof. destruct n; simpl; rewrite ?length_map; auto. Qed.

Lemma rewrite_tag_frame (base_url : string) (n : node) :
  sans_attrs (rewrite_tag base_url n) = sans_attrs n
  ∧ children (rewrite_tag base_url n) = children n
  ∧ ∀ k, ¬ (tag_name n = Some "a" ∧ k = "href") →
         ¬ (tag_name n = Some "img" ∧ k = "src") →
         attrs_of (rewrite_tag base_url n) !! k = attrs_of n !! k.
Proof.
  destruct n as [i s | i nm cl a ch]; simpl; [auto|].
  destruct (bool_decide (nm = "a") && _) eqn:E1; simpl.
  - repeat split. intros k Ha _. unfold rewrite_attr.
    destruct (a !! "href") as [v|]; [|reflexivity].
    apply andb_true_iff in E1 as [E1 _]. apply bool_decide_eq_true_1 in E1.
    apply lookup_insert_ne. intros <-. apply Ha. subst nm. auto.
  - destruct (bool_decide (nm = "img") && _) eqn:E2; simpl; [|auto].
    repeat split. intros k _ Hi. unfold rewrite_attr.
    destruct (a !! "src") as [v|]; [|reflexivity].
    apply andb_true_iff in E2 as [E2 _]. apply bool_decide_eq_true_1 in E2.
    apply lookup_insert_ne. intros <-. apply Hi. subst nm. auto.
Qed.

(** X3: the rewriting of references touches nothing but the [href] of
    anchors and the [src] of images: every node keeps its place, its
    identity, tag, classes or string and the number of its children, and
    every other attribute keeps its value. *)
Theorem other_attributes_untouched
    (s : soup) (base_url : string) (p : list nat) (n : node) :
  NoDup (oids (root s)) →
  at_path (root s) p = Some n →
  ∃ n', at_path (root (_convert_relative_urls s base_url)) p = Some n'
        ∧ sans_attrs n' = sans_attrs n
        ∧ length (children n') = length (children n)
        ∧ ∀ k, ¬ (tag_name n = Some "a" ∧ k = "href") →
               ¬ (tag_name n = Some "img" ∧ k = "src") →
               attrs_of n' !! k = attrs_of n !! k.
Proof.
  intros HN Hp. unfold _convert_relative_urls. simpl.
  rewrite fold_modify_map_where
    by (auto using rewrite_tag_local, NoDup_find_all).
  set (sel := fun j => bool_decide (j ∈ map oid (find_all ["a"; "img"] (root s)))).
  destruct (sans_attrs_map_where sel (rewrite_tag base_url) n)
    as (Hs & Ha & Hl).
  destruct p as [|i p].
  - simpl in Hp. injection Hp as <-. eexists. split; [reflexivity|].
    repeat split; try apply sans_attrs_map_where.
    intros k _ _. rewrite Ha. reflexivity.
  - rewrite (at_path_map_where _ _ _ _ _ (rewrite_tag_local base_url) Hp)
      by discriminate.
    eexists. split; [reflexivity|].
    destruct (sel (oid n)); [|rewrite Hs, Hl, Ha; auto].
    destruct (rewrite_tag_frame base_url
                (map_where sel (rewrite_tag base_url) n)) as (Hs' & Hc' & Ha').
    rewrite Hs', Hc', Hs, Hl. repeat split.
    intros k Hk1 Hk2. rewrite Ha', Ha; auto;
      rewrite tag_name_map_where; auto.
Qed.

(** An anchor with a [title]: the title stays. *)
Lemma other_attributes_witness :
  let link := Elem 1 "a" None {[ "href" := "post2"; "title" := "Next" ]}
                [Text 2 "next"] in
  let s := Soup (Elem 0 "[document]" None ∅ [link]) 3 in
  ∃ n', at_path (root (_convert_relative_urls s "https://example.com")) [0]
        = Some n'
        ∧ sans_attrs n' = sans_attrs link
        ∧ length (children n') = length (children link)
        ∧ ∀ k, ¬ (tag_name link = Some "a" ∧ k = "href") →
               ¬ (tag_name link = Some "img" ∧ k = "src") →
               attrs_of n' !! k = attrs_of link !! k.
Proof.
  intros link s.
  apply (other_attributes_untouched s "https://example.com" [0] link).
  - vm_compute. apply (bool_decide_unpack (NoDup _)). vm_compute. exact I.
  - reflexivity.
Defined.

(** *** Running the rewriting again *)

Lemma prefix_append (p s x : string) :
  String.prefix p s = true → String.prefix p (String.append s x) = true.
Proof.
  revert s. induction p as [|a p IH]; intros s H.
  - destruct (String.append s x); reflexivity.
  - destruct s as [|b s]; [discriminate H|]. simpl in *.
    destruct (ascii_dec a b); [auto | discriminate].
Qed.

Lemma absolutize_again (base_url v : string) :
  keeps_scheme base_url = true →
  absolutize base_url (absolutize base_url v) = absolutize base_url v.
Proof.
  intros Hb. unfold absolutize.
  destruct (startswith v "http://" || startswith v "https://") eqn:E.
  - rewrite E. reflexivity.
  - replace (startswith _ "http://" || startswith _ "https://") with true;
      [reflexivity|].
    symmetry. unfold keeps_scheme, startswith in *.
    apply orb_true_iff in Hb as [Hb | Hb];
      rewrite (prefix_append _ _ _ Hb); [reflexivity | apply orb_true_r].
Qed.

Lemma rewrite_tag_again (base_url : string) (n : node) :
  keeps_scheme base_url = true →
  rewrite_tag base_url (rewrite_tag base_url n) = rewrite_tag base_url n.
Proof.
  intros Hb. destruct n as [i s | i nm cl a ch]; simpl; [reflexivity|].
  assert (Hattr : ∀ key, is_Some (a !! key) →
            is_Some (rewrite_attr key base_url a !! key)
            ∧ rewrite_attr key base_url (rewrite_attr key base_url a)
              = rewrite_attr key base_url a).
  { intros key [v Hv]. unfold rewrite_attr. rewrite Hv.
    rewrite lookup_insert_eq. split; [eauto|].
    rewrite insert_insert_eq, absolutize_again by exact Hb. reflexivity. }
  destruct (bool_decide (nm = "a")) eqn:Ea; simpl.
  - destruct (bool_decide (is_Some (a !! "href"))) eqn:Eh; simpl.
    + rewrite Ea. simpl. apply bool_decide_eq_true_1 in Eh.
      destruct (Hattr _ Eh) as [H1 H2].
      rewrite (bool_decide_eq_true_2 _ H1), H2. reflexivity.
    + apply bool_decide_eq_true_1 in Ea. subst nm. simpl.
      rewrite Eh. reflexivity.
  - destruct (bool_decide (nm = "img")) eqn:Ei; simpl.
    + destruct (bool_decide (is_Some (a !! "src"))) eqn:Es; simpl.
      * rewrite Ea, Ei. simpl. apply bool_decide_eq_true_1 in Es.
        destruct (Hattr _ Es) as [H1 H2].
        rewrite (bool_decide_eq_true_2 _ H1), H2. reflexivity.
      * rewrite Ea, Ei, Es. reflexivity.
    + rewrite Ea, Ei. reflexivity.
Qed.

Lemma map_where_again (sel : nat → bool) (f : node → node) (t : node) :
  local_mutation f → (∀ n, f (f n) = f n) →
  map_where sel f (map_where sel f t) = map_where sel f t.
Proof.
  intros Hf Hff.
  induction t as [j s | j nm cl a ch IH] using node_ind'; simpl; [reflexivity|].
  f_equal. rewrite map_map.
  induction IH as [|c ch Hc _ IHch]; simpl; [reflexivity|].
  f_equal; [|exact IHch].
  destruct (sel (oid c)) eqn:E.
  - rewrite local_oid, oid_map_where, E by exact Hf.
    rewrite map_where_local, Hc, Hff by exact Hf. reflexivity.
  - rewrite oid_map_where, E, Hc. reflexivity.
Qed.

(** The nodes of a tree with their identities and tags, in document
    order, as a local mutation leaves them. *)
Lemma subtree_map_where (sel : nat → bool) (f : node → node) (t : node) :
  local_mutation f →
  map (fun n => (oid n, tag_name n)) (subtree (map_where sel f t))
  = map (fun n => (oid n, tag_name n)) (subtree t).
Proof.
  intros Hf.
  induction t as [j s | j nm cl a ch IH] using node_ind'; [reflexivity|].
  simpl. f_equal.
  induction IH as [|c ch Hc _ IHch]; simpl; [reflexivity|].
  rewrite !map_app, IHch. f_equal.
  destruct (sel (oid c)); [|exact Hc].
  rewrite <- Hc, !subtree_eq. simpl.
  rewrite local_oid, tag_name_local by exact Hf. f_equal.
  unfold descendants. rewrite local_children by exact Hf. reflexivity.
Qed.

Lemma filter_by_tag (names : list string) (l l' : list node) :
  map (fun n => (oid n, tag_name n)) l = map (fun n => (oid n, tag_name n)) l' →
  map oid (filter (fun d => has_name names d = true) l)
  = map oid (filter (fun d => has_name names d = true) l').
Proof.
  revert l'. induction l as [|x l IH]; intros [|y l'] E; try discriminate;
    [reflexivity|].
  simpl in E. injection E as Eo Et E. rewrite !filter_cons.
  rewrite (has_name_tag names x y Et).
  destruct (decide (has_name names y = true)); simpl.
  - rewrite Eo. f_equal. apply IH. exact E.
  - apply IH. exact E.
Qed.

Lemma find_all_map_where (names : list string) (sel : nat → bool)
    (f : node → node) (t : node) :
  local_mutation f →
  map oid (find_all names (map_where sel f t)) = map oid (find_all names t).
Proof.
  intros Hf. unfold find_all. apply filter_by_tag.
  assert (H := subtree_map_where sel f t Hf).
  rewrite !subtree_eq in H. simpl in H. injection H as _ _ H. exact H.
Qed.

(** X4: with a base URL that still begins with [http://] or [https://]
    when its trailing slashes are gone, the rewriting of references is
    idempotent: a rewritten reference is absolute and a second run leaves
    the whole tree as it is. *)
Theorem convert_relative_urls_idempotent (s : soup) (base_url : string) :
  NoDup (oids (root s)) → keeps_scheme base_url = true →
  _convert_relative_urls (_convert_relative_urls s base_url) base_url
  = _convert_relative_urls s base_url.
Proof.
  intros HN Hb. unfold _convert_relative_urls. simpl. f_equal.
  assert (Hf := rewrite_tag_local base_url).
  rewrite (fold_modify_map_where _ _ (root s) Hf (NoDup_find_all _ _ HN)).
  set (sel := fun j => bool_decide (j ∈ map oid (find_all ["a"; "img"] (root s)))).
  rewrite fold_modify_map_where; [|exact Hf|].
  - rewrite (map_where_ext _ sel).
    + apply map_where_again; [exact Hf|].
      intros n. apply rewrite_tag_again. exact Hb.
    + intros j. unfold sel. rewrite find_all_map_where by exact Hf.
      reflexivity.
  - apply NoDup_find_all. rewrite oids_map_where by exact Hf. exact HN.
Qed.

Lemma convert_relative_urls_idempotent_witness :
  let s := Soup (Elem 0 "[document]" None ∅
             [Elem 1 "a" None {[ "href" := "/post2" ]} [Text 2 "next"];
              Elem 3 "img" None {[ "src" := "pic.png" ]} []]) 4 in
  _convert_relative_urls
    (_convert_relative_urls s "https://example.com/blog/")
    "https://example.com/blog/"
  = _convert_relative_urls s "https://example.com/blog/".
Proof.
  intros s. apply (convert_relative_urls_idempotent s).
  - vm_compute. apply (bool_decide_unpack (NoDup _)). vm_compute. exact I.
  - reflexivity.
Defined.

(** ** Code blocks, once more *)

Lemma descendants_replace_where_origin (r : nat → option node) (t n : node) :
  n ∈ descendants (replace_where r t) →
  (∃ n0, n0 ∈ descendants t ∧ r (oid n0) = None ∧ n = replace_where r n0)
  ∨ ∃ j new, r j = Some new ∧ n ∈ subtree new.
Proof.
  revert n. induction t as [j s | j nm cl a ch IH] using node_ind';
    intros n Hn; [inversion Hn|].
  apply in_descendants in Hn as (k & Hk & Hn). simpl in Hk.
  apply list_elem_of_fmap in Hk as (c & -> & Hc).
  rewrite Forall_forall in IH.
  destruct (r (oid c)) as [new|] eqn:E; [eauto|].
  rewrite subtree_eq in Hn. apply elem_of_cons in Hn as [-> | Hn].
  - left. exists c. repeat split; auto.
    apply in_descendants. exists c. split; [exact Hc | apply in_subtree_self].
  - destruct (IH c Hc n Hn) as [(n0 & Hn0 & Er & ->) | H]; [|auto].
    left. exists n0. repeat split; auto.
    apply in_descendants. exists c. split; [exact Hc|].
    rewrite subtree_eq. right. exact Hn0.
Qed.

Lemma has_name_replace_where (names : list string) (r : nat → option node)
    (n : node) :
  has_name names (replace_where r n) = has_name names n.
Proof. destruct n; reflexivity. Qed.

Lemma find_Some_intro (nm : string) (n c : node) :
  c ∈ descendants n → has_name [nm] c = true → is_Some (find nm n).
Proof.
  intros Hc Hn. unfold find.
  assert (H : c ∈ find_all [nm] n) by (apply in_find_all; auto).
  destruct (find_all [nm] n); [inversion H | eauto].
Qed.

Lemma find_Some_elim (nm : string) (n c : node) :
  find nm n = Some c → c ∈ descendants n ∧ has_name [nm] c = true.
Proof.
  unfold find. intros H. apply in_find_all.
  destruct (find_all [nm] n); [discriminate|]. injection H as ->. left.
Qed.

Lemma for_each_unchanged {A S : Type} (body : S → A → result S)
    (l : list A) (s : S) :
  (∀ a, a ∈ l → body s a = Ok s) → for_each body l s = Ok s.
Proof.
  induction l as [|a l IH]; intros H; simpl; [reflexivity|].
  rewrite (H a) by left. simpl. apply IH. intros b Hb. apply H. right. exact Hb.
Qed.

(** After the normalization no [pre] has a [code] element below it. *)
Lemma no_code_block_left (cfg : ConversionConfig) (s s' : soup) (pre : node) :
  wf_soup s → _process_code_blocks cfg s = Ok s' →
  pre ∈ find_all ["pre"] (root s') → find "code" pre = None.
Proof.
  intros Hwf Hs' Hpre.
  destruct (process_code_blocks_pass cfg s s' Hwf Hs') as (es & Hes & Hroot).
  rewrite Hroot in Hpre. apply in_find_all in Hpre as [Hpre Hname].
  assert (Hnew : ∀ j new c, edit_for es j = Some new → c ∈ subtree new →
                            has_name ["code"] c = false).
  { intros j new c Hj Hc. apply edit_for_Some in Hj.
    apply edits_sound in Hes. rewrite Forall_forall in Hes.
    destruct (Hes _ Hj) as (? & ? & ? & k & _ & _ & _ & _ & _ & En).
    simpl in En. subst new. simpl in Hc.
    apply elem_of_cons in Hc as [-> | Hc]; [reflexivity|].
    apply list_elem_of_singleton in Hc. subst c. reflexivity. }
  destruct (find "code" pre) as [c|] eqn:Ec; [|reflexivity]. exfalso.
  apply find_Some_elim in Ec as [Hc Hcn].
  apply descendants_replace_where_origin in Hpre
    as [(p0 & Hp0 & Er & ->) | (j & new & Hj & Hin)].
  - assert (Hcode : is_Some (find "code" p0)).
    { apply descendants_replace_where_origin in Hc
        as [(c0 & Hc0 & _ & ->) | (j & new & Hj & Hin)].
      - apply (find_Some_intro "code" p0 c0 Hc0).
        rewrite has_name_replace_where in Hcn. exact Hcn.
      - rewrite (Hnew _ _ _ Hj Hin) in Hcn. discriminate. }
    assert (Hkey : oid p0 ∈ map fst es).
    { eapply edits_complete; eauto. apply in_find_all. split; [exact Hp0|].
      rewrite has_name_replace_where in Hname. exact Hname. }
    destruct (edit_for_is_Some _ _ Hkey) as [x Hx]. congruence.
  - assert (Hsub : c ∈ subtree new).
    { eapply subtree_trans; [|exact Hin]. rewrite subtree_eq. right. exact Hc. }
    rewrite (Hnew _ _ _ Hj Hsub) in Hcn. discriminate.
Qed.

(** X5: the normalization of code blocks is idempotent: the fenced
    [pre] nodes it makes hold a string only, so a second run finds no
    [pre] with a [code] element and returns the tree as it is. *)
Theorem process_code_blocks_idempotent
    (cfg : ConversionConfig) (s s' : soup) :
  wf_soup s → _process_code_blocks cfg s = Ok s' →
  _process_code_blocks cfg s' = Ok s'.
Proof.
  intros Hwf Hs'. unfold _process_code_blocks at 1.
  apply for_each_unchanged. intros pre Hpre. unfold process_pre.
  rewrite (no_code_block_left cfg s s' pre Hwf Hs' Hpre). reflexivity.
Qed.

Lemma process_code_blocks_idempotent_witness :
  let s := Soup (Elem 0 "[document]" None ∅
             [Elem 1 "pre" None ∅ [code_with 2 ["language-python"] "x=1"]]) 4 in
  let s' := Soup (Elem 0 "[document]" None ∅
              [new_pre 4 (fenced "python" "x=1")]) 6 in
  _process_code_blocks default_config s' = Ok s'.
Proof.
  intros s s'. apply (process_code_blocks_idempotent default_config s s').
  - split.
    + vm_compute. apply (bool_decide_unpack (NoDup _)). vm_compute. exact I.
    + vm_compute. repeat constructor.
  - vm_compute. reflexivity.
Defined.

(** *** When the normalization raises *)

Lemma split_no_hyphen (c : string) :
  split hyphen c !! 1 = None → has_hyphen c = false.
Proof.
  intros H. destruct (has_hyphen c) eqn:E; [|reflexivity].
  destruct (split_has_hyphen c E) as [x Hx]. congruence.
Qed.

Lemma language_of_raise (cfg : ConversionConfig) (code : node) (e : exn) :
  language_of cfg code = Raise e →
  e = IndexError
  ∧ ∃ c, c ∈ class_list code
         ∧ recognized (code_language_classes cfg) c = true
         ∧ has_hyphen c = false.
Proof.
  destruct code as [|i nm [cls|] a ch]; try discriminate.
  rewrite language_of_scan. simpl.
  destruct (scan_classes_split (code_language_classes cfg) cls)
    as [[_ ->] | (before & c & after & -> & _ & Hc & ->)]; [discriminate|].
  unfold tag_of_class. destruct (split hyphen c !! 1) eqn:E; [discriminate|].
  intros [= <-]. split; [reflexivity|]. exists c.
  repeat split; [|exact Hc | apply split_no_hyphen, E].
  apply elem_of_app. right. left.
Qed.

Lemma edits_raise (cfg : ConversionConfig) (l : list node) (c : nat) (e : exn) :
  edits cfg l c = Raise e →
  ∃ pre code, pre ∈ l ∧ find "code" pre = Some code
              ∧ language_of cfg code = Raise e.
Proof.
  revert c. induction l as [|pre l IH]; intros c; simpl; [discriminate|].
  destruct (find "code" pre) as [code|] eqn:Ec.
  - destruct (language_of cfg code) as [lang|e'] eqn:El; simpl.
    + destruct (edits cfg l (S (S c))) as [rest|e'] eqn:Er; simpl;
        [discriminate|].
      intros [= <-]. destruct (IH _ Er) as (pre' & code' & H1 & H2 & H3).
      exists pre', code'. repeat split; auto. right. exact H1.
    + intros [= <-]. exists pre, code. repeat split; auto. left.
  - intros H. destruct (IH _ H) as (pre' & code' & H1 & H2 & H3).
    exists pre', code'. repeat split; auto. right. exact H1.
Qed.

(** X6: the only exception of the normalization is [IndexError], and it
    has one cause: under some [pre], the first [code] element has a class
    that starts with a configured prefix and holds no hyphen, so that
    [cls.split('-')[1]] has no second piece. *)
Theorem process_code_blocks_raises_only_IndexError
    (cfg : ConversionConfig) (s : soup) (e : exn) :
  _process_code_blocks cfg s = Raise e →
  e = IndexError
  ∧ ∃ pre code c,
      pre ∈ find_all ["pre"] (root s)
      ∧ find "code" pre = Some code
      ∧ c ∈ class_list code
      ∧ recognized (code_language_classes cfg) c = true
      ∧ has_hyphen c = false.
Proof.
  destruct s as [t n]. unfold _process_code_blocks. simpl.
  rewrite for_each_edits.
  destruct (edits cfg (find_all ["pre"] t) n) as [es|e'] eqn:E; simpl;
    [discriminate|].
  intros [= <-]. apply edits_raise in E as (pre & code & Hpre & Hc & Hl).
  apply language_of_raise in Hl as (-> & c & H1 & H2 & H3).
  split; [reflexivity|]. exists pre, code, c. auto.
Qed.

(** The prefix [hl] and the class [hl]. *)
Lemma process_code_blocks_raises_witness :
  let cfg := Config ["nav"] 0 ["hl"] None in
  let s := Soup (Elem 0 "[document]" None ∅
             [Elem 1 "pre" None ∅ [code_with 2 ["hl"] "x"]]) 4 in
  IndexError = IndexError
  ∧ ∃ pre code c,
      pre ∈ find_all ["pre"] (root s)
      ∧ find "code" pre = Some code
      ∧ c ∈ class_list code
      ∧ recognized (code_language_classes cfg) c = true
      ∧ has_hyphen c = false.
Proof.
  intros cfg s.
  apply (process_code_blocks_raises_only_IndexError cfg s IndexError).
  reflexivity.
Defined.

(** *** When the language tag is the language *)

Lemma split_hyphen_free (s : string) :
  has_hyphen s = false → split hyphen s = [s].
Proof.
  induction s as [|a r IH]; simpl; [reflexivity|].
  destruct (Ascii.eqb a hyphen); simpl; [discriminate|].
  intros H. rewrite (IH H). reflexivity.
Qed.

Lemma split_at_hyphen (q r : string) :
  has_hyphen q = false →
  split hyphen (String.append q (String hyphen r)) = q :: split hyphen r.
Proof.
  induction q as [|a q IH]; simpl; [reflexivity|].
  destruct (Ascii.eqb a hyphen); simpl; [discriminate|].
  intros H. rewrite (IH H). reflexivity.
Qed.

Lemma prefix_of_append (p x : string) :
  String.prefix p (String.append p x) = true.
Proof.
  induction p as [|a p IH]; simpl; [destruct x; reflexivity|].
  destruct (ascii_dec a a); [exact IH | contradiction].
Qed.

Lemma append_assoc (a b c : string) :
  String.append (String.append a b) c = String.append a (String.append b c).
Proof.
  induction a as [|x a IH]; [reflexivity|].
  change (String x (String.append (String.append a b) c)
          = String x (String.append a (String.append b c))).
  rewrite IH. reflexivity.
Qed.

(** X7: when the first class that starts with a recognized prefix is a
    configured prefix of the form [word-] followed by a language name
    without hyphen, the language tag is that name: [language-python] and
    [lang-js] give [python] and [js]. *)
Theorem language_of_simple_class
    (cfg : ConversionConfig) (i : nat) (nm : string)
    (before after : list string) (q lang : string)
    (a : gmap string string) (ch : list node) :
  Forall (fun c => recognized (code_language_classes cfg) c = false) before →
  String.append q "-" ∈ code_language_classes cfg →
  has_hyphen q = false → has_hyphen lang = false →
  language_of cfg
    (Elem i nm
       (Some (before ++ String.append (String.append q "-") lang :: after))
       a ch)
  = Ok lang.
Proof.
  intros Hb Hp Hq Hl. rewrite language_of_scan.
  induction Hb as [|c before Hc _ IH]; simpl.
  - replace (existsb _ (code_language_classes cfg)) with true.
    + rewrite append_assoc.
      change (String.append "-" lang) with (String hyphen lang).
      rewrite (split_at_hyphen q lang Hq), (split_hyphen_free lang Hl).
      reflexivity.
    + symmetry. apply existsb_exists. exists (String.append q "-").
      split; [apply list_elem_of_In, Hp | apply prefix_of_append].
  - unfold recognized in Hc. rewrite Hc. exact IH.
Qed.

Lemma language_of_simple_class_witness :
  language_of default_config
    (Elem 1 "code"
       (Some (["hljs"] ++ String.append (String.append "language" "-") "python"
                :: ["nohighlight"]))
       ∅ [])
  = Ok "python".
Proof.
  apply (language_of_simple_class default_config 1 "code" ["hljs"]
           ["nohighlight"] "language" "python" ∅ []).
  - repeat constructor.
  - left.
  - reflexivity.
  - reflexivity.
Defined.

(** ** The PostProcessor, once more *)

(** X8: the cleanup only deletes: its output is the input with some
    characters left out, in the same order, and so never longer than the
    input. *)
Theorem post_process_only_deletes (t : text) :
  post_process t `sublist_of` t ∧ length (post_process t) ≤ length t.
Proof.
  assert (H : post_process t `sublist_of` t).
  { unfold post_process.
    etransitivity; [apply (sub_sublist _ m_fence_close_deletes)|].
    etransitivity; [apply (sub_sublist _ m_fence_open_deletes)|].
    etransitivity; [apply (sub_sublist _ m_close_marker_deletes)|].
    apply (sub_sublist _ m_open_marker_deletes). }
  split; [exact H | apply sublist_length, H].
Qed.

Lemma nomatch_close_no_tick (s : text) :
  Forall (fun c => c ≠ tick) s → nomatch m_fence_close s = true.
Proof.
  induction 1 as [|c r Hc Hr IH]; [reflexivity|].
  apply nomatch_cons. split; [|exact IH].
  destruct (m_fence_close (c :: r)) as [x|] eqn:E; [|reflexivity]. exfalso.
  apply m_fence_close_Some in E as (r' & Es & _).
  change fence with [tick; tick; tick] in Es. injection Es as _ ->.
  apply Forall_cons in Hr as [_ Hr]. apply Forall_cons in Hr as [Hr _].
  contradiction.
Qed.

(** X9: text without an opening bracket and without a backtick passes
    through the cleanup unchanged. *)
Theorem post_process_plain_text (t : text) :
  Forall (fun c => c ≠ "["%char ∧ c ≠ tick) t → post_process t = t.
Proof.
  intros H.
  assert (Hb : Forall (fun c => c ≠ "["%char) t)
    by (eapply Forall_impl; [exact H | simpl; intros ? [? ?]; assumption]).
  assert (Ht : Forall (fun c => c ≠ tick) t)
    by (eapply Forall_impl; [exact H | simpl; intros ? [? ?]; assumption]).
  assert (Hfree : ∀ p, free ("["%char :: p) t = true).
  { intros p. rewrite <- (app_nil_r t). apply free_chars; auto. }
  unfold post_process.
  rewrite (sub_nomatch m_open_marker)
    by (apply nomatch_open_marker, (Hfree (lit "code]"))).
  rewrite (sub_nomatch m_close_marker)
    by (apply nomatch_close_marker, (Hfree (lit "/code]"))).
  rewrite (sub_nomatch m_fence_open).
  - apply sub_nomatch, nomatch_close_no_tick, Ht.
  - rewrite <- (app_nil_r t). apply nomatch_open_chars; auto.
Qed.

Lemma post_process_plain_text_witness :
  post_process (lit "# Title" ++ [nl; nl; nl] ++ lit "Some *text* here.")
  = lit "# Title" ++ [nl; nl; nl] ++ lit "Some *text* here.".
Proof.
  apply post_process_plain_text. vm_compute.
  repeat (constructor; [split; discriminate|]). constructor.
Defined.

Lemma nomatch_close_free (s : text) :
  nomatch m_fence_close s = true → free (nl :: nl :: fence) s = true.
Proof.
  induction s as [|c r IH]; [reflexivity|]. intros H.
  apply nomatch_cons in H as [Hm H]. apply free_cons. split; [|auto].
  unfold m_fence_close in Hm.
  destruct (strip_prefix (nl :: nl :: fence) (c :: r)); [discriminate|].
  reflexivity.
Qed.

(** X10: what the fence substitutions achieve: when the text left by
    the marker substitutions has no run of three newlines, the cleaned
    text has no blank line after an opening fence with its language tag
    and no blank line before a fence. *)
Theorem post_process_fences_tight (t : text) :
  free [nl; nl; nl] (markers_stripped t) = true →
  nomatch m_fence_open (post_process t) = true
  ∧ free (nl :: nl :: fence) (post_process t) = true.
Proof.
  intros Hnl. rewrite post_process_eq.
  destruct (f3_settled _ Hnl) as [H3 Hnl3].
  destruct (f4_settled _ Hnl3 H3) as [H43 H44].
  split; [exact H43 | apply nomatch_close_free, H44].
Qed.

Lemma post_process_fences_witness :
  let t := fence ++ lit "python" ++ [nl; nl] ++ lit "x = 1" ++ [nl; nl]
           ++ fence ++ [nl] in
  nomatch m_fence_open (post_process t) = true
  ∧ free (nl :: nl :: fence) (post_process t) = true.
Proof. intros t. apply (post_process_fences_tight t). reflexivity. Defined.

(** ** File names and directories *)

Lemma length_append (a b : string) :
  String.length (String.append a b) = String.length a + String.length b.
Proof.
  induction a as [|x a IH]; [reflexivity|].
  change (S (String.length (String.append a b))
          = S (String.length a + String.length b)).
  rewrite IH. reflexivity.
Qed.

Lemma substring_all (s : string) : String.substring 0 (String.length s) s = s.
Proof. induction s as [|x s IH]; simpl; [reflexivity | rewrite IH; reflexivity]. Qed.

Lemma substring_tail (a b : string) :
  String.substring (String.length a) (String.length b) (String.append a b) = b.
Proof.
  induction a as [|x a IH]; [apply substring_all|].
  change (String.substring (String.length a) (String.length b)
            (String.append a b) = b).
  exact IH.
Qed.

Lemma endswith_append (a p : string) : endswith (String.append a p) p = true.
Proof.
  unfold endswith. rewrite length_append.
  replace (String.length a + String.length p - String.length p)
    with (String.length a) by lia.
  rewrite substring_tail, String.eqb_refl.
  rewrite (proj2 (Nat.leb_le _ _)) by lia. reflexivity.
Qed.

Lemma substring_split (s : string) (i : nat) :
  i ≤ String.length s →
  s = String.append (String.substring 0 i s)
        (String.substring i (String.length s - i) s).
Proof.
  revert i. induction s as [|x s IH]; intros i Hi.
  - simpl in Hi. replace i with 0 by lia. reflexivity.
  - destruct i as [|i].
    + simpl. rewrite substring_all. reflexivity.
    + simpl in Hi.
      change (String x s
              = String x (String.append (String.substring 0 i s)
                            (String.substring i (String.length s - i) s))).
      rewrite <- IH by lia. reflexivity.
Qed.

Lemma endswith_split (s p : string) :
  endswith s p = true → ∃ s0, s = String.append s0 p.
Proof.
  unfold endswith. intros H. apply andb_true_iff in H as [Hk He].
  apply Nat.leb_le in Hk. apply String.eqb_eq in He.
  exists (String.substring 0 (String.length s - String.length p) s).
  rewrite <- He at 2.
  rewrite (substring_split s (String.length s - String.length p)) at 1 by lia.
  do 2 f_equal. lia.
Qed.

Lemma endswith_append_l (x s p : string) :
  endswith s p = true → endswith (String.append x s) p = true.
Proof.
  intros H. destruct (endswith_split s p H) as [s0 ->].
  rewrite <- append_assoc. apply endswith_append.
Qed.

Lemma forallb_string_append (f : ascii → bool) (a b : string) :
  forallb_string f (String.append a b)
  = forallb_string f a && forallb_string f b.
Proof.
  induction a as [|x a IH]; [reflexivity|].
  change (f x && forallb_string f (String.append a b)
          = f x && forallb_string f a && forallb_string f b).
  rewrite IH, andb_assoc. reflexivity.
Qed.

Lemma forallb_string_rstrip (f : ascii → bool) (c : ascii) (s : string) :
  forallb_string f s = true → forallb_string f (rstrip c s) = true.
Proof.
  induction s as [|x s IH]; [auto|]. simpl. intros H.
  apply andb_true_iff in H as [Hx Hs]. specialize (IH Hs).
  destruct (rstrip c s) eqn:E.
  - destruct (Ascii.eqb x c); simpl; [reflexivity|].
    rewrite Hx. reflexivity.
  - simpl in *. rewrite Hx. exact IH.
Qed.

Lemma sanitize_safe (s : string) : forallb_string is_safe (sanitize s) = true.
Proof.
  induction s as [|x s IH]; [reflexivity|].
  change (is_safe (if is_safe x then x else "_"%char)
          && forallb_string is_safe (sanitize s) = true).
  rewrite IH, andb_true_r.
  destruct (is_safe x) eqn:E; [exact E | vm_compute; reflexivity].
Qed.

(** *** A URL without brackets is parsed *)

Lemma contains_break_at (c : ascii) (stop : ascii → bool) (s : string) :
  contains c s = false →
  contains c (fst (break_at stop s)) = false
  ∧ contains c (snd (break_at stop s)) = false.
Proof.
  induction s as [|a s IH]; [auto|]. intros H.
  change (Ascii.eqb a c || contains c s = false) in H.
  apply orb_false_iff in H as [Ha Hs]. cbn [break_at].
  destruct (stop a).
  - split; [reflexivity|]. change (Ascii.eqb a c || contains c s = false).
    rewrite Ha. exact Hs.
  - destruct (IH Hs) as [H1 H2]. destruct (break_at stop s) as [h t].
    split; [|exact H2]. change (Ascii.eqb a c || contains c h = false).
    rewrite Ha. exact H1.
Qed.

Lemma contains_lstrip_where (c : ascii) (p : ascii → bool) (s : string) :
  contains c s = false → contains c (lstrip_where p s) = false.
Proof.
  induction s as [|a s IH]; [auto|]. intros H. cbn [lstrip_where].
  destruct (p a); [|exact H]. apply IH.
  change (Ascii.eqb a c || contains c s = false) in H.
  apply orb_false_iff in H. tauto.
Qed.

Lemma contains_remove_where (c : ascii) (p : ascii → bool) (s : string) :
  contains c s = false → contains c (remove_where p s) = false.
Proof.
  induction s as [|a s IH]; [auto|]. intros H.
  change (Ascii.eqb a c || contains c s = false) in H.
  apply orb_false_iff in H as [Ha Hs]. cbn [remove_where].
  destruct (p a); [auto|].
  change (Ascii.eqb a c || contains c (remove_where p s) = false).
  rewrite Ha. auto.
Qed.

Lemma contains_split_scheme (c : ascii) (url : string) :
  contains c url = false → contains c (snd (split_scheme url)) = false.
Proof.
  intros H. unfold split_scheme.
  destruct (contains_break_at c (is_char ":") url H) as [_ H2].
  destruct (break_at (is_char ":") url) as [[|a h] [|b t]]; try exact H.
  destruct (is_alpha a && _); [|exact H].
  simpl in H2. change (Ascii.eqb b c || contains c t = false) in H2.
  apply orb_false_iff in H2. tauto.
Qed.

Lemma split_netloc_plain (check : string → result unit) (url : string) :
  contains "[" url = false → contains "]" url = false →
  ∃ x, split_netloc check url = Ok x.
Proof.
  intros Ho Hc. unfold split_netloc.
  destruct url as [|a [|b t]]; [eexists; reflexivity | |].
  { destruct a as [[] [] [] [] [] [] [] []]; eexists; reflexivity. }
  destruct (Ascii.eqb_spec a "/") as [->|Ha].
  2:{ destruct a as [[] [] [] [] [] [] [] []]; try (eexists; reflexivity).
      exfalso. apply Ha. reflexivity. }
  destruct (Ascii.eqb_spec b "/") as [->|Hb].
  2:{ destruct b as [[] [] [] [] [] [] [] []]; try (eexists; reflexivity).
      exfalso. apply Hb. reflexivity. }
  assert (Ho' : contains "[" t = false) by exact Ho.
  assert (Hc' : contains "]" t = false) by exact Hc.
  set (stop := fun a : ascii => _ || _).
  destruct (contains_break_at "[" stop t Ho') as [H1 _].
  destruct (contains_break_at "]" stop t Hc') as [H2 _].
  destruct (break_at stop t) as [n u]. simpl in H1, H2.
  rewrite H1, H2. eexists. reflexivity.
Qed.

Lemma urlparse_plain (check : string → result unit) (url : string) :
  contains "[" url = false → contains "]" url = false →
  ∃ parsed, urlparse check url = Ok parsed.
Proof.
  intros Ho Hc. unfold urlparse.
  set (u := remove_where is_unsafe (lstrip_where is_c0_or_space url)).
  assert (Hou : contains "[" u = false)
    by (apply contains_remove_where, contains_lstrip_where, Ho).
  assert (Hcu : contains "]" u = false)
    by (apply contains_remove_where, contains_lstrip_where, Hc).
  apply (contains_split_scheme "[") in Hou.
  apply (contains_split_scheme "]") in Hcu.
  destruct (split_scheme u) as [sch rest]. simpl in Hou, Hcu.
  destruct (split_netloc_plain check rest Hou Hcu) as [[n r] ->].
  cbn. destruct (break_at (is_char "#") r) as [r1 ?].
  destruct (break_at (is_char "?") r1) as [r2 ?].
  eexists. reflexivity.
Qed.

(** *** The generated names *)

Lemma safe_no_slash (s : string) :
  forallb_string is_safe s = true → contains "/" s = false.
Proof.
  induction s as [|x s IH]; [reflexivity|]. intros H.
  change (is_safe x && forallb_string is_safe s = true) in H.
  apply andb_true_iff in H as [Hx Hs].
  change (Ascii.eqb x "/" || contains "/" s = false).
  rewrite (IH Hs), orb_false_r.
  destruct (Ascii.eqb_spec x "/"); [subst x; discriminate | reflexivity].
Qed.

(** The last step of [generate_filename]. *)
Lemma with_md_safe (name : string) :
  forallb_string is_safe name = true →
  let out := if endswith name ".md" then name
             else String.append (rstrip "." name) ".md" in
  endswith out ".md" = true ∧ forallb_string is_safe out = true.
Proof.
  intros Hname. destruct (endswith name ".md") eqn:E; [auto|].
  split; [apply endswith_append|].
  rewrite forallb_string_append, forallb_string_rstrip by exact Hname.
  reflexivity.
Qed.

Lemma generate_filename_name
    (check : string → result unit) (url name : string) :
  generate_filename check url = Ok name →
  endswith name ".md" = true ∧ forallb_string is_safe name = true.
Proof.
  unfold generate_filename.
  destruct (urlparse check url) as [parsed|e]; [|discriminate].
  cbn. intros [= <-]. apply with_md_safe, sanitize_safe.
Qed.



Lemma unquote_plain (s : string) :
  contains "%" s = false → unquote s = Some s.
Proof.
  induction s as [|a s IH]; [reflexivity|]. intros H.
  change (Ascii.eqb a "%" || contains "%" s = false) in H.
  apply orb_false_iff in H as [Ha Hs]. cbn [unquote].
  rewrite Ha. cbn [negb]. rewrite (IH Hs). reflexivity.
Qed.

(** X12: [_get_safe_filename] of the sibling module returns whenever
    [urlparse] does; without percent escape in the path the name lies in
    the modelled characters, and every such name ends in [.md] and
    holds safe characters only. *)
Theorem get_safe_filename_safe (check : string → result unit) (url : string) :
  (∀ parsed, urlparse check url = Ok parsed →
     contains "%" (path parsed) = false →
     ∃ name, _get_safe_filename check url = Ok (Some name))
  ∧ ∀ name, _get_safe_filename check url = Ok (Some name) →
      endswith name ".md" = true ∧ forallb_string is_safe name = true.
Proof.
  split.
  - intros parsed Hp Hq. unfold _get_safe_filename. rewrite Hp. cbn.
    rewrite (unquote_plain _ Hq).
    destruct (negb _ && negb _); cbn; eexists; reflexivity.
  - intros name. unfold _get_safe_filename.
    destruct (urlparse check url) as [parsed|e]; [|discriminate].
    cbn. intros [= H].
    destruct (if negb _ && negb _ then _ else _) as [b|]; [|discriminate].
    cbn in H. injection H as <-. split; [apply endswith_append|].
    rewrite forallb_string_append, sanitize_safe. reflexivity.
Qed.

Lemma get_safe_filename_witness :
  (∃ name, _get_safe_filename (fun _ => Ok tt)
             "https://example.com/docs/my guide.v2.html" = Ok (Some name))
  ∧ endswith "my_guide.v2.md" ".md" = true
  ∧ forallb_string is_safe "my_guide.v2.md" = true.
Proof.
  destruct (get_safe_filename_safe (fun _ => Ok tt)
              "https://example.com/docs/my guide.v2.html") as [H1 H2].
  split.
  - apply (H1 (Parsed "https" "example.com" "/docs/my guide.v2.html"));
      vm_compute; reflexivity.
  - apply (H2 "my_guide.v2.md"). vm_compute. reflexivity.
Defined.

(** *** Paths made of clean names *)

Lemma split_no_separator (c : ascii) (s : string) :
  Forall (fun x => contains c x = false) (split c s).
Proof.
  induction s as [|a r IH]; simpl; [repeat constructor|].
  destruct (Ascii.eqb a c) eqn:E; [constructor; [reflexivity | exact IH]|].
  destruct (split c r) as [|h t]; [repeat constructor; simpl; rewrite E; reflexivity|].
  apply Forall_cons in IH as [Hh Ht]. constructor; [|exact Ht].
  simpl. rewrite E, Hh. reflexivity.
Qed.

Lemma split_whole (c : ascii) (s : string) :
  contains c s = false → split c s = [s].
Proof.
  induction s as [|a r IH]; [reflexivity|]. intros H.
  change (Ascii.eqb a c || contains c r = false) in H.
  apply orb_false_iff in H as [Ha Hr]. cbn [split].
  rewrite Ha, (IH Hr). reflexivity.
Qed.

Lemma Forall_removelast {A : Type} (P : A → Prop) (l : list A) :
  Forall P l → Forall P (removelast l).
Proof.
  induction 1 as [|x l Hx Hl IH]; simpl; [constructor|].
  destruct l; [constructor | constructor; auto].
Qed.

Lemma nonempty_parts_are_names (s : string) :
  Forall (fun p => p ≠ EmptyString ∧ contains "/" p = false)
         (nonempty_parts s).
Proof.
  unfold nonempty_parts. apply Forall_forall. intros p Hp.
  apply list_elem_of_filter in Hp as [Hne Hp]. split; [exact Hne|].
  assert (H := split_no_separator slash s). rewrite Forall_forall in H.
  apply H, Hp.
Qed.

Lemma rel_names_clean (rel : string) : Forall clean_name (rel_names rel).
Proof.
  unfold rel_names. apply Forall_forall. intros x Hx.
  apply list_elem_of_filter in Hx as [[H1 H2] Hx]. repeat split; auto.
  assert (H := split_no_separator slash rel). rewrite Forall_forall in H.
  apply H, Hx.
Qed.

Lemma parse_parts_names (l : list string) :
  Forall clean_name l → parse_parts l = MkPath EmptyString l.
Proof.
  induction 1 as [|x l (Hne & Hdot & Hs) _ IH]; [reflexivity|].
  cbn [parse_parts]. rewrite IH. cbn [anchor names].
  rewrite bool_decide_eq_true_2 by reflexivity. cbn [negb].
  rewrite bool_decide_eq_false_2 by exact Hne.
  assert (Hroot : splitroot x = (EmptyString, x)).
  { destruct x as [|a r]; [reflexivity|].
    change (Ascii.eqb a "/" || contains "/" r = false) in Hs.
    apply orb_false_iff in Hs as [Ha _].
    destruct a as [[] [] [] [] [] [] [] []]; try reflexivity. discriminate Ha. }
  rewrite Hroot. unfold rel_names, slash. rewrite (split_whole _ _ Hs).
  rewrite filter_cons_True, filter_nil by auto. reflexivity.
Qed.

Lemma parse_parts_rooted (root : string) (l : list string) :
  root = "/" ∨ root = "//" → Forall clean_name l →
  parse_parts (root :: l) = MkPath root l.
Proof.
  intros Hr Hl. cbn [parse_parts]. rewrite (parse_parts_names l Hl).
  cbn [anchor names]. rewrite bool_decide_eq_true_2 by reflexivity.
  destruct Hr as [-> | ->]; reflexivity.
Qed.

Lemma Path_rooted (p : string) :
  startswith p "/" = true →
  (anchor (Path p) = "/" ∨ anchor (Path p) = "//")
  ∧ Forall clean_name (names (Path p)).
Proof.
  intros Hp. destruct p as [|a r]; [discriminate|].
  assert (a = "/"%char) as ->.
  { unfold startswith in Hp. cbn [String.prefix] in Hp.
    destruct (ascii_dec "/" a); [auto | discriminate]. }
  unfold Path. cbn [parse_parts anchor names].
  rewrite bool_decide_eq_true_2 by reflexivity. cbn [negb].
  rewrite bool_decide_eq_false_2 by discriminate.
  unfold splitroot.
  destruct (_ =? 2); cbn [anchor names]; rewrite app_nil_r;
    (split; [auto | apply rel_names_clean]).
Qed.



(** X14: [_get_url_path_parts] of the sibling module returns whenever
    [urlparse] does, and a list it returns is the domain followed by
    directory names: none of them is empty and none holds a slash
    (escaped slashes are decoded before the path is split). *)
Theorem url_path_parts_are_names
    (check : string → result unit) (url : string) (l : list string) :
  Dirs._get_url_path_parts check url = Ok (Some l) →
  ∃ parsed rest,
    urlparse check url = Ok parsed ∧ l = netloc parsed :: rest
    ∧ Forall (fun p => p ≠ EmptyString ∧ contains "/" p = false) rest.
Proof.
  unfold Dirs._get_url_path_parts.
  destruct (urlparse check url) as [parsed|e]; [|discriminate].
  cbn. intros H. exists parsed.
  destruct (negb _ && negb _).
  2:{ injection H as <-. exists []. auto. }
  injection H as H.
  destruct (unquote (path parsed)) as [unquoted|]; [|discriminate].
  cbn in H. injection H as <-.
  set (parts := nonempty_parts _).
  assert (Hp : Forall (fun p => p ≠ EmptyString ∧ contains "/" p = false)
                      parts) by apply nonempty_parts_are_names.
  destruct (last parts) as [x|]; [|exists []; auto].
  destruct (contains "." x).
  - exists (removelast parts). split; [reflexivity|]. split; [reflexivity|].
    apply Forall_removelast, Hp.
  - exists parts. auto.
Qed.

Lemma url_path_parts_witness :
  ∃ parsed rest,
    urlparse (fun _ => Ok tt) "https://example.com/a%2Fb/c/guide.html"
    = Ok parsed
    ∧ ["example.com"; "a"; "b"; "c"] = netloc parsed :: rest
    ∧ Forall (fun p => p ≠ EmptyString ∧ contains "/" p = false) rest.
Proof.
  apply (url_path_parts_are_names (fun _ => Ok tt)
           "https://example.com/a%2Fb/c/guide.html").
  vm_compute. reflexivity.
Defined.

(** *** The join of base and reference *)

(** X15: a reference that does not begin with [http://] or [https://]
    is joined to the base with exactly one slash: the slashes at the end
    of the base and at the start of the reference are all dropped, and
    nothing else is. *)
Theorem absolutize_single_slash (base_url ref : string) :
  startswith ref "http://" || startswith ref "https://" = false →
  ∃ b r sb sr,
    absolutize base_url ref = String.append b (String slash r)
    ∧ base_url = String.append b sb ∧ ref = String.append sr r
    ∧ forallb_string (is_char slash) sb = true
    ∧ forallb_string (is_char slash) sr = true
    ∧ (∀ x, b ≠ String.append x "/")
    ∧ startswith r "/" = false.
Proof.
  intros Hrel. unfold absolutize. rewrite Hrel.
  destruct (rstrip_suffix slash base_url) as (sb & Hb & Hsb).
  destruct (lstrip_prefix slash ref) as (sr & Hr & Hsr).
  exists (rstrip slash base_url), (lstrip slash ref), sb, sr.
  repeat split; auto.
  - apply rstrip_no_trailing.
  - apply lstrip_no_leading.
Qed.

Lemma absolutize_single_slash_witness :
  ∃ b r sb sr,
    absolutize "https://example.com/blog///" "//img/a.png"
      = String.append b (String slash r)
    ∧ "https://example.com/blog///" = String.append b sb
    ∧ "//img/a.png" = String.append sr r
    ∧ forallb_string (is_char slash) sb = true
    ∧ forallb_string (is_char slash) sr = true
    ∧ (∀ x, b ≠ String.append x "/")
    ∧ startswith r "/" = false.
Proof.
  apply (absolutize_single_slash "https://example.com/blog///" "//img/a.png").
  reflexivity.
Defined.

(** ** A successful conversion *)

Lemma parse_parts_wf (args : list string) : wf_path (parse_parts args).
Proof.
  induction args as [|part rest IH]; [split; [auto | constructor]|].
  cbn [parse_parts].
  destruct (negb _); [exact IH|].
  destruct (bool_decide (part = EmptyString)); [exact IH|].
  unfold splitroot.
  destruct part as [|a r]; [|destruct a as [[] [] [] [] [] [] [] []]];
    try (split; [auto | cbn [names]; apply Forall_app;
                        split; [apply rel_names_clean | apply IH]]).
  destruct (_ =? 2);
    (split; [auto | cbn [names]; apply Forall_app;
                    split; [apply rel_names_clean | apply IH]]).
Qed.

Lemma joinpath_wf (p : PurePosixPath) (args : list string) :
  wf_path p → wf_path (joinpath p args).
Proof.
  intros [Ha Hn]. unfold joinpath, join_parsed_parts.
  destruct (parse_parts_wf args) as [Ha' Hn'].
  destruct (bool_decide _); [|split; assumption].
  split; [exact Ha | apply Forall_app; auto].
Qed.

Lemma default_output_dir_wf
    (check : string → result unit) (expanduser url : string)
    (d : PurePosixPath) :
  get_default_output_dir check expanduser url = Ok d → wf_path d.
Proof.
  unfold get_default_output_dir, home.
  destruct (startswith expanduser "~"); [discriminate|].
  cbn [mbind result_bind].
  destruct (urlparse check url) as [parsed|]; [|discriminate].
  cbn [mbind result_bind]. intros [= <-].
  apply joinpath_wf, joinpath_wf, joinpath_wf.
  exact (parse_parts_wf [expanduser]).
Qed.

Lemma join_snoc (l : list string) (f : string) :
  join slash (l ++ [f])
  = match l with
    | [] => f
    | _ => String.append (join slash l) (String.append "/" f)
    end.
Proof.
  induction l as [|x l IH]; [reflexivity|].
  destruct l as [|y l]; [reflexivity|].
  change (String.append x (String slash (join slash ((y :: l) ++ [f])))
          = String.append (String.append x (String slash (join slash (y :: l))))
                          (String.append "/" f)).
  rewrite IH. symmetry.
  apply (append_assoc x (String slash (join slash (y :: l)))).
Qed.

Lemma append_nonempty_r (x f : string) :
  f ≠ EmptyString → String.append x f ≠ EmptyString.
Proof. destruct x; [auto | discriminate]. Qed.

(** A clean name joined to a directory is the last component of the
    result. *)
Lemma str_child (out : PurePosixPath) (f : string) :
  wf_path out → clean_name f →
  truediv out f = MkPath (anchor out) (names out ++ [f])
  ∧ (str (truediv out f) = f
     ∨ endswith (str (truediv out f)) (String.append "/" f) = true).
Proof.
  intros [Ha Hn] Hf.
  assert (E : truediv out f = MkPath (anchor out) (names out ++ [f])).
  { unfold truediv, joinpath.
    rewrite (parse_parts_names [f]) by (constructor; [exact Hf | constructor]).
    reflexivity. }
  split; [exact E|]. rewrite E. unfold str. cbn [anchor names].
  rewrite join_snoc. destruct Hf as (Hne & _ & _).
  destruct (names out) as [|x l].
  - destruct Ha as [-> | [-> | ->]].
    + left. rewrite bool_decide_eq_false_2 by exact Hne. reflexivity.
    + right. rewrite bool_decide_eq_false_2 by discriminate.
      apply (endswith_append EmptyString).
    + right. rewrite bool_decide_eq_false_2 by discriminate.
      apply (endswith_append "/").
  - right. set (dir := join slash (x :: l)).
    rewrite bool_decide_eq_false_2.
    + apply endswith_append_l, endswith_append.
    + apply append_nonempty_r, append_nonempty_r. discriminate.
Qed.

Lemma filename_clean (name : string) :
  endswith name ".md" = true → forallb_string is_safe name = true →
  clean_name name.
Proof.
  intros Hmd Hsafe. repeat split.
  - intros ->. discriminate Hmd.
  - intros ->. discriminate Hmd.
  - apply safe_no_slash, Hsafe.
Qed.

Section ConvertSuccess.

Variable check : string → result unit.
Variable http_get : string → result string.
Variable summary : string → result string.
Variable parse : string → soup.
Variable render : soup → string.
Variable html2text_handle : nat → string → result string.
Variable expanduser : string.
Variable mkdir : string → world → result unit * world.
Variable write_text : string → string → world → result unit * world.
Variable cfg : ConversionConfig.

Let run := convert check http_get summary parse render html2text_handle
                   expanduser mkdir write_text cfg.


End ConvertSuccess.


(** ** The markers, in plain surroundings *)

Lemma strip_bracket_none (p r : text) (c : ascii) :
  c ≠ "["%char → strip_prefix ("["%char :: p) (c :: r) = None.
Proof.
  intros Hc. cbn [strip_prefix].
  destruct (Ascii.eqb_spec "["%char c); [congruence | reflexivity].
Qed.

Lemma m_open_marker_head (c : ascii) (r : text) :
  c ≠ "["%char → m_open_marker (c :: r) = None.
Proof.
  intros Hc. unfold m_open_marker.
  change (lit "[code]") with ("["%char :: lit "code]").
  rewrite (strip_bracket_none _ _ _ Hc). reflexivity.
Qed.

Lemma open_marker_pass (x s : text) :
  Forall (fun c => c ≠ "["%char) x →
  sub m_open_marker (x ++ s) = x ++ sub m_open_marker s.
Proof.
  induction 1 as [|c x Hc _ IH]; [reflexivity|]. simpl.
  rewrite sub_cons, (m_open_marker_head c _ Hc), IH. reflexivity.
Qed.

Lemma sub_plain (m : matcher) (s : text) :
  (∀ c r, c ∈ s → m (c :: r) = None) → sub m s = s.
Proof.
  induction s as [|c r IH]; intros H; [reflexivity|].
  rewrite sub_cons, (H c r) by left. rewrite IH; [reflexivity|].
  intros c' r' Hc'. apply H. right. exact Hc'.
Qed.

Lemma open_marker_at (ws y : text) :
  Forall (fun c => is_space c = true) ws →
  match y with [] => True | c :: _ => is_space c = false end →
  m_open_marker (lit "[code]" ++ ws ++ y) = Some (6 + length ws, []).
Proof.
  intros Hws Hy. unfold m_open_marker. rewrite strip_prefix_app.
  rewrite (span_intro is_space ws y Hws Hy). reflexivity.
Qed.

Lemma m_close_marker_None (s : text) :
  strip_prefix (lit "[/code]") (snd (span is_space s)) = None →
  m_close_marker s = None.
Proof.
  unfold m_close_marker. destruct (span is_space s) as [ws r]. simpl.
  intros ->. reflexivity.
Qed.

Lemma snd_span_cons (c : ascii) (s : text) :
  snd (span is_space (c :: s))
  = if is_space c then snd (span is_space s) else c :: s.
Proof.
  cbn [span]. destruct (is_space c); [|reflexivity].
  destruct (span is_space s). reflexivity.
Qed.

(** A text that ends in a character other than whitespace and holds no
    bracket is no start of a closing marker, whatever follows. *)
Lemma close_marker_none (u v : text) (c : ascii) :
  Forall (fun a => a ≠ "["%char) (c :: u) →
  (∃ u' l, c :: u = u' ++ [l] ∧ is_space l = false) →
  m_close_marker ((c :: u) ++ v) = None.
Proof.
  intros Hb Hl. apply m_close_marker_None.
  revert c Hb Hl. induction u as [|d u IH]; intros c Hb (u' & l & Hl & Hs).
  - destruct u' as [|? [|? ?]]; try discriminate. injection Hl as ->.
    cbn [app]. rewrite snd_span_cons, Hs.
    apply Forall_cons in Hb as [Hb _].
    change (lit "[/code]") with ("["%char :: lit "/code]").
    apply strip_bracket_none, Hb.
  - apply Forall_cons in Hb as [Hc Hb].
    change ((c :: d :: u) ++ v) with (c :: ((d :: u) ++ v)).
    rewrite snd_span_cons. destruct (is_space c).
    + apply IH; [exact Hb|]. destruct u' as [|x u']; [discriminate|].
      injection Hl as -> Hl. exists u', l. auto.
    + change (lit "[/code]") with ("["%char :: lit "/code]").
      apply strip_bracket_none, Hc.
Qed.

Lemma close_marker_pass (u v : text) :
  Forall (fun a => a ≠ "["%char) u →
  (u = [] ∨ ∃ u' l, u = u' ++ [l] ∧ is_space l = false) →
  sub m_close_marker (u ++ v) = u ++ sub m_close_marker v.
Proof.
  induction u as [|c u IH]; intros Hb Hl; [reflexivity|].
  destruct Hl as [? | Hl]; [discriminate|].
  change ((c :: u) ++ v) with (c :: (u ++ v)).
  rewrite sub_cons.
  change (c :: (u ++ v)) with ((c :: u) ++ v).
  rewrite (close_marker_none u v c Hb Hl).
  simpl. f_equal. apply IH; [apply Forall_cons in Hb; tauto|].
  destruct u as [|d u]; [auto|]. right.
  destruct Hl as (u' & l & Hl & Hs). destruct u' as [|x u']; [discriminate|].
  injection Hl as -> Hl. eauto.
Qed.

Lemma close_marker_at (ws z : text) :
  Forall (fun c => is_space c = true) ws →
  m_close_marker (ws ++ lit "[/code]" ++ z) = Some (length ws + 7, []).
Proof.
  intros Hws. unfold m_close_marker.
  rewrite (span_intro is_space ws (lit "[/code]" ++ z) Hws eq_refl).
  rewrite strip_prefix_app. reflexivity.
Qed.

(** X17: in plain surroundings the markers go with the whitespace next
    to them: for texts [x], [y], [z] without bracket and backtick, [y]
    beginning and ending with characters other than whitespace, the
    cleanup of [x[code] y [/code]z] is [x y z] without the markers and
    without the whitespace after [[code]] and before [[/code]]. *)
Theorem post_process_strips_markers (x y z ws1 ws2 : text) (l : ascii) (y' : text) :
  Forall (fun c => c ≠ "["%char ∧ c ≠ tick) (x ++ y ++ z) →
  Forall (fun c => is_space c = true) ws1 →
  Forall (fun c => is_space c = true) ws2 →
  y = y' ++ [l] → is_space l = false →
  match y with [] => True | c :: _ => is_space c = false end →
  post_process (x ++ lit "[code]" ++ ws1 ++ y ++ ws2 ++ lit "[/code]" ++ z)
  = x ++ y ++ z.
Proof.
  intros Hplain Hw1 Hw2 Hy Hl Hhead.
  assert (Hb : Forall (fun c => c ≠ "["%char) (x ++ y ++ z))
    by (eapply Forall_impl; [exact Hplain | simpl; intros ? [? ?]; assumption]).
  assert (Hbx : Forall (fun c => c ≠ "["%char) x)
    by (apply Forall_app in Hb; tauto).
  assert (Hby : Forall (fun c => c ≠ "["%char) y)
    by (apply Forall_app in Hb as [_ Hb]; apply Forall_app in Hb; tauto).
  assert (Hbz : Forall (fun c => c ≠ "["%char) z)
    by (apply Forall_app in Hb as [_ Hb]; apply Forall_app in Hb; tauto).
  assert (Hspace_b : ∀ ws, Forall (fun c => is_space c = true) ws →
                           Forall (fun c => c ≠ "["%char) ws).
  { intros ws H. eapply Forall_impl; [exact H|]. simpl. intros c Hc ->.
    discriminate. }
  assert (Ht : Forall (fun c => c ≠ tick) (x ++ y ++ z))
    by (eapply Forall_impl; [exact Hplain | simpl; intros ? [? ?]; assumption]).
  assert (Hz : sub m_close_marker z = z).
  { apply sub_nomatch, nomatch_close_marker.
    rewrite <- (app_nil_r z). apply free_chars; auto. }
  (* the opening marker *)
  assert (Hy1 : match y ++ ws2 ++ lit "[/code]" ++ z with
                | [] => True | c :: _ => is_space c = false end).
  { destruct y as [|c y0]; [destruct y'; discriminate | exact Hhead]. }
  assert (E0 : sub m_open_marker (y ++ ws2 ++ lit "[/code]" ++ z)
               = y ++ ws2 ++ lit "[/code]" ++ z).
  { rewrite (app_assoc y ws2).
    rewrite (open_marker_pass (y ++ ws2)) by (apply Forall_app; auto).
    f_equal.
    change (lit "[/code]" ++ z) with ("["%char :: (lit "/code]" ++ z)).
    rewrite sub_cons.
    replace (m_open_marker ("["%char :: lit "/code]" ++ z)) with
      (@None (nat * text)) by reflexivity.
    f_equal.
    rewrite (open_marker_pass (lit "/code]")) by
      (repeat constructor; discriminate).
    f_equal. apply sub_plain. intros c r Hc. apply m_open_marker_head.
    rewrite Forall_forall in Hbz. auto. }
  assert (E1 : sub m_open_marker
                 (x ++ lit "[code]" ++ ws1 ++ y ++ ws2 ++ lit "[/code]" ++ z)
               = x ++ y ++ ws2 ++ lit "[/code]" ++ z).
  { rewrite (open_marker_pass x _ Hbx). f_equal.
    change (lit "[code]" ++ ws1 ++ y ++ ws2 ++ lit "[/code]" ++ z)
      with ("["%char :: (lit "code]" ++ ws1 ++ y ++ ws2 ++ lit "[/code]" ++ z)).
    rewrite sub_cons.
    change ("["%char :: (lit "code]" ++ ws1 ++ y ++ ws2 ++ lit "[/code]" ++ z))
      with (lit "[code]" ++ ws1 ++ (y ++ ws2 ++ lit "[/code]" ++ z)).
    rewrite (open_marker_at ws1 _ Hw1 Hy1).
    change (6 + length ws1) with (S (5 + length ws1)). cbv iota beta.
    replace (drop (5 + length ws1)
               (lit "code]" ++ ws1 ++ y ++ ws2 ++ lit "[/code]" ++ z))
      with (y ++ ws2 ++ lit "[/code]" ++ z).
    - exact E0.
    - rewrite (app_assoc (lit "code]") ws1).
      rewrite drop_app_length'; [reflexivity|].
      rewrite length_app. reflexivity. }
  (* the closing marker *)
  assert (E2 : sub m_close_marker (ws2 ++ lit "[/code]" ++ z) = z).
  { destruct ws2 as [|c ws2'].
    - change ([] ++ lit "[/code]" ++ z)
        with ("["%char :: (lit "/code]" ++ z)).
      rewrite sub_cons.
      change ("["%char :: (lit "/code]" ++ z))
        with ([] ++ lit "[/code]" ++ z).
      rewrite (close_marker_at [] z) by constructor. exact Hz.
    - change ((c :: ws2') ++ lit "[/code]" ++ z)
        with (c :: (ws2' ++ lit "[/code]" ++ z)).
      rewrite sub_cons.
      change (c :: (ws2' ++ lit "[/code]" ++ z))
        with ((c :: ws2') ++ lit "[/code]" ++ z).
      rewrite (close_marker_at (c :: ws2') z Hw2).
      change (length (c :: ws2') + 7) with (S (length ws2' + 7)).
      cbv iota beta.
      replace (drop (length ws2' + 7) (ws2' ++ lit "[/code]" ++ z)) with z.
      + exact Hz.
      + rewrite app_assoc, drop_app_length'; [reflexivity|].
        rewrite length_app. reflexivity. }
  assert (E12 : sub m_close_marker
                  (x ++ y ++ ws2 ++ lit "[/code]" ++ z) = x ++ y ++ z).
  { rewrite (app_assoc x y).
    rewrite (close_marker_pass (x ++ y)).
    - rewrite E2, <- app_assoc. reflexivity.
    - apply Forall_app. auto.
    - right. exists (x ++ y'), l. subst y. rewrite app_assoc. auto. }
  unfold post_process. rewrite E1, E12.
  rewrite (sub_nomatch m_fence_open).
  - apply sub_nomatch, nomatch_close_no_tick, Ht.
  - rewrite <- (app_nil_r (x ++ y ++ z)). apply nomatch_open_chars; auto.
Qed.

Lemma post_process_strips_markers_witness :
  post_process (lit "Example: " ++ lit "[code]" ++ lit " " ++ lit "x = 1"
                ++ [nl] ++ lit "[/code]" ++ lit " done")
  = lit "Example: " ++ lit "x = 1" ++ lit " done".
Proof.
  apply (post_process_strips_markers (lit "Example: ") (lit "x = 1")
           (lit " done") (lit " ") [nl] "1"%char (lit "x = ")).
  - vm_compute. repeat (constructor; [split; discriminate|]). constructor.
  - repeat constructor.
  - repeat constructor.
  - reflexivity.
  - reflexivity.
  - reflexivity.
Defined.

(** ** Exceptions of the tree work and of [convert] *)

(** X18: with prefixes that all hold a hyphen, as the default prefixes
    [language-] and [lang-] do, the tree work of [clean_html] raises for
    no tree and no URL. *)
Theorem clean_tree_returns
    (cfg : ConversionConfig) (url : option string) (s : soup) :
  Forall (fun prefix => has_hyphen prefix = true) (code_language_classes cfg) →
  ∃ s', clean_tree cfg url s = Ok s'.
Proof.
  intros Hp. unfold clean_tree.
  destruct (process_code_blocks_total cfg (remove_unwanted cfg s) Hp)
    as [s2 ->].
  simpl. destruct (py_or url (base_url cfg)) as [[|c r]|]; eauto.
Qed.

Lemma clean_tree_returns_witness :
  ∃ s', clean_tree default_config (Some "https://example.com/")
          (Soup (Elem 0 "[document]" None ∅
                   [Elem 1 "pre" None ∅ [code_with 2 ["hljs"] "x"]]) 4)
        = Ok s'.
Proof.
  apply (clean_tree_returns default_config). repeat constructor.
Defined.

Section ConvertRaises.

Variable check : string → result unit.
Variable http_get : string → result string.
Variable summary : string → result string.
Variable parse : string → soup.
Variable render : soup → string.
Variable html2text_handle : nat → string → result string.
Variable expanduser : string.
Variable mkdir : string → world → result unit * world.
Variable write_text : string → string → world → result unit * world.
Variable cfg : ConversionConfig.

Let run := convert check http_get summary parse render html2text_handle
                   expanduser mkdir write_text cfg.


End ConvertRaises.

